(** * N-body engine of [n-body.py]: a shallow embedding and its properties

    The Python program keeps its whole state in module-level NumPy arrays
    ([Loc], [VelRad], [VelInt], [AccRad], [AccInt], [isInContact],
    [hasFallen], [TimeSeries]) that the functions [findCurrentAcc],
    [findNextVel], [findNextLoc] and [Run] mutate in place.  Here the arrays
    are the fields of a record [State] that every function takes and returns.

    Numbers.  Every quantity of the program is a NumPy [float64] (or a small
    Python [int] that is converted to one as soon as it meets an array).  The
    embedding is written once, over an interface [Float64] that lists the
    arithmetic the program uses, and is then read at two instances:
    - [float_ops]: Rocq's primitive IEEE-754 binary64 numbers, which run, and
    - [real_ops]: the real numbers, the exact arithmetic that the physical
      statements ("the exact vector sum") speak about.
    Statements about control flow, array slots and loop bounds are proved for
    every instance of the interface at once, so they do not depend on how
    any operation rounds.  [np.linalg.norm] is written as the square root of
    the sum of the squares and [x**3] as [(x*x)*x]; NumPy may round either
    differently in the last place.

    Layout.  The embedding of the program comes first (section [Engine]),
    then what one force pass and one body step write, then the statements
    about the driver and the force pass, the divisions, and the concrete
    runs.  The last part embeds [saveNewSim] and [loadSavedSim] with the
    text files they write and read. *)

From Stdlib Require Import PrimFloat FloatOps SpecFloat FloatAxioms.
From Stdlib Require Import ZArith List Reals Lra Lia.
From Stdlib Require Import Ascii String.
From stdpp Require Import base list strings gmap.

Set Warnings "-inexact-float".

(** ** The arithmetic interface *)

Class Float64 (F : Type) := {
  fadd : F -> F -> F;            (* x + y *)
  fsub : F -> F -> F;            (* x - y *)
  fmul : F -> F -> F;            (* x * y *)
  fdiv : F -> F -> F;            (* x / y, np.divide *)
  fsqrt : F -> F;                (* the square root inside np.linalg.norm *)
  fltb : F -> F -> bool;         (* x < y *)
  fgeb : F -> F -> bool;         (* x >= y *)
  feqb : F -> F -> bool;         (* x == y *)
  fofZ : Z -> F;                 (* an int literal used as a float *)
  ftrunc : F -> option Z         (* int(x); None where Python raises *)
}.

Section Engine.

Context {F : Type} `{Float64 F}.

(** A decimal literal [n/d], such as [0.001] or [0.95]. *)
Definition dec (n d : Z) : F := fdiv (fofZ n) (fofZ d).

(** [x**2] and [x**3].  Python and NumPy compute a float power with the C
    library's [pow], which rounds once; the products here round after each
    multiplication, so that in binary64 a power that is not exact can differ
    from the program's in the last place (the powers of the program's
    constants, [dt**2], [12**3] and [50.0**3], do not).  The statements
    that hold for every instance of the interface do not depend on it;
    where a concrete run shows a value that went through an inexact norm or
    power, its last digits are those of this rounding, and what the run is
    used for is decided by a comparison that leaves a margin. *)
Definition pow2 (x : F) : F := fmul x x.               (* x**2 *)
Definition pow3 (x : F) : F := fmul (fmul x x) x.      (* x**3 *)

(** *** Columns [A[:,i]] of a 3 x N array *)

Definition vec : Type := F * F * F.

Definition vmap (f : F -> F) (v : vec) : vec :=
  let '(x, y, z) := v in (f x, f y, f z).

Definition vmap2 (f : F -> F -> F) (u v : vec) : vec :=
  let '(a, b, c) := u in let '(x, y, z) := v in (f a x, f b y, f c z).

Definition vzero : vec := (fofZ 0, fofZ 0, fofZ 0).
Definition vadd : vec -> vec -> vec := vmap2 fadd.          (* np.add / + *)
Definition vsub : vec -> vec -> vec := vmap2 fsub.          (* np.subtract *)
Definition vdivs (v : vec) (s : F) : vec := vmap (fun c => fdiv c s) v.  (* np.divide(v,s) *)
Definition smulv (s : F) (v : vec) : vec := vmap (fun c => fmul s c) v.  (* s * v *)
Definition vmuls (v : vec) (s : F) : vec := vmap (fun c => fmul c s) v.  (* v * s *)

(** [np.linalg.norm] of a column: the square root of the dot product of
    the column with itself.  NumPy leaves the order and the rounding of the
    three products and two sums of the dot product to the BLAS library it is
    built with (some fuse a product and a sum into one rounding); here they
    are rounded one by one, from left to right.  In binary64 the two can
    differ in the last place when the squares are not exact. *)
Definition norm (v : vec) : F :=
  let '(x, y, z) := v in fsqrt (fadd (fadd (fmul x x) (fmul y y)) (fmul z z)).

#[export] Instance vec_inhabited : Inhabited vec := populate vzero.

(** *** The module-level constants

    The constants a run can be configured with are the fields of [Config];
    the constants the program derives from them are definitions. *)

Record Config : Type := mkConfig {
  N : Z;                      (* body count *)
  Gm : F;                     (* gravitational parameter of each small body *)
  dt : F;                     (* timestep *)
  SmallDiam : F;              (* body diameter *)
  VelDecreaseFactor : F;      (* damping when touching *)
  GenCubeLength : F;          (* length of the generation cube *)
  Vel0 : F                    (* initial cloud speed *)
}.

(** The values written in the program. *)
Definition source_config : Config :=
  {| N := 500; Gm := fofZ 5000000; dt := dec 1 1000; SmallDiam := fofZ 12;
     VelDecreaseFactor := dec 95 100; GenCubeLength := fofZ 500;
     Vel0 := fofZ 5000 |}.

Variable cfg : Config.

Definition GM : F := fmul (Gm cfg) (fofZ 10000).
Definition SpaceLength : F := fmul (fofZ 7) (GenCubeLength cfg).
Definition LargeRadius : F := fdiv (GenCubeLength cfg) (fofZ 10).
Definition HeavyMassLoc : vec :=
  let h := fmul (fdiv SpaceLength (fofZ 2)) (fofZ 1) in (h, h, h).

(** *** The state arrays

    A 3 x N array is the list of its N columns.  [isInContact] and
    [hasFallen] only ever hold 0 or 1 and are only compared with 0 or 1: they
    are lists of booleans.  [TimeSeries[:,:,t]] is the [t]-th element of
    [TimeSeries], itself a list of N columns. *)

Record State : Type := mkState {
  isInContact : list bool;
  hasFallen : list bool;
  AccRad : list vec;
  AccInt : list vec;
  Loc : list vec;
  VelRad : list vec;
  VelInt : list vec;
  TimeSeries : list (list vec)
}.

Definition set_isInContact (i : nat) (b : bool) (st : State) : State :=
  mkState (<[i:=b]> (isInContact st)) (hasFallen st) (AccRad st) (AccInt st)
          (Loc st) (VelRad st) (VelInt st) (TimeSeries st).
Definition set_hasFallen (i : nat) (b : bool) (st : State) : State :=
  mkState (isInContact st) (<[i:=b]> (hasFallen st)) (AccRad st) (AccInt st)
          (Loc st) (VelRad st) (VelInt st) (TimeSeries st).
Definition set_AccRad (i : nat) (v : vec) (st : State) : State :=
  mkState (isInContact st) (hasFallen st) (<[i:=v]> (AccRad st)) (AccInt st)
          (Loc st) (VelRad st) (VelInt st) (TimeSeries st).
Definition set_AccInt (i : nat) (v : vec) (st : State) : State :=
  mkState (isInContact st) (hasFallen st) (AccRad st) (<[i:=v]> (AccInt st))
          (Loc st) (VelRad st) (VelInt st) (TimeSeries st).
Definition set_Loc (i : nat) (v : vec) (st : State) : State :=
  mkState (isInContact st) (hasFallen st) (AccRad st) (AccInt st)
          (<[i:=v]> (Loc st)) (VelRad st) (VelInt st) (TimeSeries st).
Definition set_VelRad (i : nat) (v : vec) (st : State) : State :=
  mkState (isInContact st) (hasFallen st) (AccRad st) (AccInt st)
          (Loc st) (<[i:=v]> (VelRad st)) (VelInt st) (TimeSeries st).
Definition set_VelInt (i : nat) (v : vec) (st : State) : State :=
  mkState (isInContact st) (hasFallen st) (AccRad st) (AccInt st)
          (Loc st) (VelRad st) (<[i:=v]> (VelInt st)) (TimeSeries st).
Definition set_TimeSeries (t : nat) (frame : list vec) (st : State) : State :=
  mkState (isInContact st) (hasFallen st) (AccRad st) (AccInt st)
          (Loc st) (VelRad st) (VelInt st) (<[t:=frame]> (TimeSeries st)).

(** The arrays as the program allocates them: [n] columns each, and
    [frames] snapshots of [n] columns. *)
Definition allocated (n frames : nat) (st : State) : Prop :=
  length (isInContact st) = n /\ length (hasFallen st) = n /\
  length (AccRad st) = n /\ length (AccInt st) = n /\
  length (Loc st) = n /\ length (VelRad st) = n /\ length (VelInt st) = n /\
  length (TimeSeries st) = frames.

(** [range(a, b)] for [0 <= a]; empty when [b <= a]. *)
Definition range (a b : Z) : list nat := seq (Z.to_nat a) (Z.to_nat (b - a)).

(** *** findCurrentAcc *)

(** The vector [r] from body [i] to body [j] and [|r|^3]. *)
Definition r_of (st : State) (i j : nat) : vec := vsub (Loc st !!! j) (Loc st !!! i).
Definition Abs_r3_of (st : State) (i j : nat) : F := pow3 (norm (r_of st i j)).

(** One iteration of [for j in range(0,N-1)]: the state (for
    [isInContact[i]]) and the accumulator [r_Abs_r3]. *)
Definition scan_body (i : nat) (acc : State * vec) (j : nat) : State * vec :=
  let '(st, r_Abs_r3) := acc in
  if decide (j ≠ i) then
    let r := r_of st i j in
    let Abs_r3 := Abs_r3_of st i j in
    if fltb Abs_r3 (pow3 (SmallDiam cfg)) then
      (set_isInContact i true st, r_Abs_r3)
    else
      (st, vadd r_Abs_r3 (vdivs r (fmul (dec 1 1000) Abs_r3)))
  else acc.

(** The vector [R] from body [i] to the central object and [|R|^3]. *)
Definition R_of (st : State) (i : nat) : vec := vsub HeavyMassLoc (Loc st !!! i).
Definition Abs_R3_of (st : State) (i : nat) : F := pow3 (norm (R_of st i)).

Definition findCurrentAcc (i : nat) (st : State) : State :=
  let st := set_isInContact i false st in
  let st := set_hasFallen i false st in
  let R_ := R_of st i in
  let Abs_R3 := Abs_R3_of st i in
  if fgeb Abs_R3 (pow3 LargeRadius) then
    let R_Abs_R3 := vadd vzero (vdivs R_ (fmul (dec 1 1000) Abs_R3)) in
    let st := set_AccRad i (vmuls (smulv GM R_Abs_R3) (dec 1 1000)) st in
    let '(st, r_Abs_r3) := fold_left (scan_body i) (range 0 (N cfg - 1)) (st, vzero) in
    set_AccInt i (vmuls (smulv (Gm cfg) r_Abs_r3) (dec 1 1000)) st
  else
    let st := set_hasFallen i true st in
    let st := set_AccRad i vzero st in
    set_AccInt i vzero st.

(** *** findNextVel, findNextLoc *)

Definition findNextVel (i : nat) (st : State) : State :=
  let st := set_VelRad i (vadd (VelRad st !!! i) (vmuls (AccRad st !!! i) (dt cfg))) st in
  let st := set_VelInt i (vadd (VelInt st !!! i) (vmuls (AccInt st !!! i) (dt cfg))) st in
  if (isInContact st !!! i : bool) then
    set_VelInt i (smulv (VelDecreaseFactor cfg) (VelInt st !!! i)) st
  else st.

Definition findNextLoc (i : nat) (st : State) : State :=
  set_Loc i
    (vadd (Loc st !!! i)
          (vadd (vmuls (vadd (VelRad st !!! i) (VelInt st !!! i)) (dt cfg))
                (vmuls (smulv (dec 1 2) (vadd (AccRad st !!! i) (AccInt st !!! i)))
                       (pow2 (dt cfg)))))
    st.

(** *** Run *)

(** The body of [for i in range(N-1)]. *)
Definition body_step (st : State) (i : nat) : State :=
  if (hasFallen st !!! i : bool) then st
  else findNextVel i (findNextLoc i (findCurrentAcc i st)).

Definition body_loop (st : State) : State :=
  fold_left body_step (range 0 (N cfg - 1)) st.

(** [TimeSeries[:,:,t] = Loc[:,:]]: a copy of the positions; an index
    outside the allocated frames raises IndexError ([None]). *)
Definition snapshot (t : nat) (st : State) : option State :=
  if decide (t < length (TimeSeries st)) then Some (set_TimeSeries t (Loc st) st)
  else None.

(** The body of [for t in range(dtCount-1)]; the progress line that is
    printed is not part of the state. *)
Definition frame (st : State) (t : nat) : option State :=
  snapshot t (body_loop st).

Definition frames (ts : list nat) (st : State) : option State :=
  foldl (fun o t => o ≫= fun s => frame s t) (Some st) ts.

Definition Run (dtCount : Z) (st : State) : option State :=
  frames (range 0 (dtCount - 1)) st.

(** *** Module-level allocation and initialiseStates *)

(** The [np.zeros] calls at module level: [N] columns per array and
    [dtCount] frames; NumPy raises ValueError on a negative dimension. *)
Definition allocate (dtCount : Z) : option State :=
  if decide (N cfg < 0 \/ dtCount < 0)%Z then None
  else
    let n := Z.to_nat (N cfg) in
    Some (mkState (replicate n false) (replicate n false)
            (replicate n vzero) (replicate n vzero) (replicate n vzero)
            (replicate n vzero) (replicate n vzero)
            (replicate (Z.to_nat dtCount) (replicate n vzero))).

(** [list(range(a, b))] on Python ints. *)
Definition zrange (a b : Z) : list Z :=
  map (fun k => (a + Z.of_nat k)%Z) (seq 0 (Z.to_nat (b - a))).

(** The body of [for i in range(N-1)] of [initialiseStates]; [x[i]] raises
    IndexError past the end of the list. *)
Definition place (x y z : list Z) (o : option State) (i : nat) : option State :=
  st ← o;
  xi ← x !! i; yi ← y !! i; zi ← z !! i;
  let st := set_Loc i (fofZ xi, fofZ yi, fofZ zi) st in
  let st := set_VelRad i (fofZ 0, Vel0 cfg, fofZ 0) st in
  Some (set_VelInt i (fofZ 0, fofZ 0, fofZ 0) st).

(** [random.shuffle] is not modelled: the three permutations it happens to
    apply are arguments. *)
Definition initialiseStates (shuffle_x shuffle_y shuffle_z : list Z -> list Z)
    (st : State) : option State :=
  let GenCubeCentre := fdiv (fsub SpaceLength LargeRadius) (fofZ 4) in
  let half := fdiv (GenCubeLength cfg) (fofZ 2) in
  let mid := fdiv SpaceLength (fofZ 2) in
  x0 ← ftrunc (fsub GenCubeCentre half); x1 ← ftrunc (fadd GenCubeCentre half);
  y0 ← ftrunc (fsub mid half); y1 ← ftrunc (fadd mid half);
  z0 ← ftrunc (fsub mid half); z1 ← ftrunc (fadd mid half);
  let x := shuffle_x (zrange x0 x1) in
  let y := shuffle_y (zrange y0 y1) in
  let z := shuffle_z (zrange z0 z1) in
  fold_left (place x y z) (range 0 (N cfg - 1)) (Some st).

End Engine.

Arguments Config F : clear implicits.
Arguments State F : clear implicits.
Arguments vec F : clear implicits.

(** ** The two readings of the arithmetic *)

(** *** IEEE-754 binary64 *)

(** [int(x)]: truncation toward zero; ValueError on NaN, OverflowError on
    an infinity. *)
Definition float_trunc (x : float) : option Z :=
  match Prim2SF x with
  | S754_zero _ => Some 0%Z
  | S754_finite s m e =>
      let a := match e with
               | Z0 => Zpos m
               | Zpos p => Z.shiftl (Zpos m) (Zpos p)
               | Zneg p => Z.shiftr (Zpos m) (Zpos p)
               end in
      Some (if s then Z.opp a else a)
  | S754_infinity _ | S754_nan => None
  end.

#[export] Instance float_ops : Float64 float := {|
  fadd := PrimFloat.add;
  fsub := PrimFloat.sub;
  fmul := PrimFloat.mul;
  fdiv := PrimFloat.div;
  fsqrt := PrimFloat.sqrt;
  fltb := PrimFloat.ltb;
  fgeb := fun x y => PrimFloat.leb y x;
  feqb := PrimFloat.eqb;
  fofZ := fun z => SF2Prim (binary_normalize prec emax z 0 false);
  ftrunc := float_trunc
|}.

(** *** Real numbers *)

Definition Rltb (x y : R) : bool := if Rlt_dec x y then true else false.
Definition Rgeb (x y : R) : bool := if Rge_dec x y then true else false.
Definition Reqb (x y : R) : bool := if Req_dec_T x y then true else false.
Definition Rtrunc (x : R) : option Z :=
  Some (if Rle_dec 0 x then Int_part x else Z.opp (Int_part (- x))).

#[export] Instance real_ops : Float64 R := {|
  fadd := Rplus;
  fsub := Rminus;
  fmul := Rmult;
  fdiv := Rdiv;
  fsqrt := sqrt;
  fltb := Rltb;
  fgeb := Rgeb;
  feqb := Reqb;
  fofZ := IZR;
  ftrunc := Rtrunc
|}.

(** ** What one force pass writes

    The pairwise scan and the branch on the central radius, read off as
    functions of the positions. *)

Section ForcePass.

Context {F : Type} `{Float64 F}.
Variable cfg : Config F.

(** [Abs_R3 >= LargeRadius**3] for body [i]. *)
Definition outside (st : State F) (i : nat) : bool :=
  fgeb (Abs_R3_of cfg st i) (pow3 (LargeRadius cfg)).

(** [Abs_r3 < SmallDiam**3] for the pair [i], [j]. *)
Definition touching (st : State F) (i j : nat) : bool :=
  fltb (Abs_r3_of st i j) (pow3 (SmallDiam cfg)).

(** The term the scan adds for [j]. *)
Definition pair_term (st : State F) (i j : nat) : vec F :=
  vdivs (r_of st i j) (fmul (dec 1 1000) (Abs_r3_of st i j)).

Definition contact_among (st : State F) (i : nat) (js : list nat) : bool :=
  existsb (fun j => bool_decide (j ≠ i) && touching st i j) js.

Definition gravity_sum (st : State F) (i : nat) (js : list nat) (a0 : vec F) : vec F :=
  fold_left (fun a j => if bool_decide (j ≠ i) && negb (touching st i j)
                        then vadd a (pair_term st i j) else a) js a0.

Lemma r_of_Loc (st st' : State F) i j : Loc st' = Loc st -> r_of st' i j = r_of st i j.
Proof. unfold r_of. by intros ->. Qed.

Lemma scan_body_fold (i : nat) (js : list nat) (st : State F) (a0 : vec F) :
  fold_left (scan_body cfg i) js (st, a0) =
  (mkState (if contact_among st i js then <[i:=true]> (isInContact st) else isInContact st)
           (hasFallen st) (AccRad st) (AccInt st) (Loc st) (VelRad st) (VelInt st)
           (TimeSeries st),
   gravity_sum st i js a0).
Proof.
  revert st a0. induction js as [|j js IH]; intros st a0.
  - by destruct st.
  - cbn [fold_left]. unfold scan_body at 2.
    destruct (decide (j ≠ i)) as [Hj|Hj].
    + fold (touching st i j). destruct (touching st i j) eqn:Ht.
      * rewrite IH. unfold contact_among, gravity_sum. cbn [existsb fold_left].
        rewrite (bool_decide_eq_true_2 _ Hj). cbn [andb negb].
        fold (touching st i j). rewrite Ht. cbn [orb negb set_isInContact Loc
          isInContact hasFallen AccRad AccInt VelRad VelInt TimeSeries].
        f_equal. f_equal.
        destruct (existsb _ js); [apply list_insert_insert_eq | done].
      * rewrite IH. unfold contact_among, gravity_sum. cbn [existsb fold_left].
        rewrite (bool_decide_eq_true_2 _ Hj). cbn [andb].
        fold (touching st i j). rewrite Ht. done.
    + rewrite IH. unfold contact_among, gravity_sum. cbn [existsb fold_left].
      rewrite (bool_decide_eq_false_2 _ Hj). done.
Qed.

(** The acceleration columns and flags that [findCurrentAcc i] stores. *)
Definition AccRad_value (st : State F) (i : nat) : vec F :=
  if outside st i then
    vmuls (smulv (GM cfg) (vadd vzero (vdivs (R_of cfg st i)
             (fmul (dec 1 1000) (Abs_R3_of cfg st i))))) (dec 1 1000)
  else vzero.

Definition AccInt_value (st : State F) (i : nat) : vec F :=
  if outside st i then
    vmuls (smulv (Gm cfg) (gravity_sum st i (range 0 (N cfg - 1)) vzero)) (dec 1 1000)
  else vzero.

Definition contact_value (st : State F) (i : nat) : bool :=
  outside st i && contact_among st i (range 0 (N cfg - 1)).

Lemma findCurrentAcc_eq (i : nat) (st : State F) :
  findCurrentAcc cfg i st =
  mkState (<[i:=contact_value st i]> (isInContact st))
          (<[i:=negb (outside st i)]> (hasFallen st))
          (<[i:=AccRad_value st i]> (AccRad st))
          (<[i:=AccInt_value st i]> (AccInt st))
          (Loc st) (VelRad st) (VelInt st) (TimeSeries st).
Proof.
  unfold findCurrentAcc, AccRad_value, AccInt_value, contact_value.
  change (Abs_R3_of cfg (set_hasFallen i false (set_isInContact i false st)) i)
    with (Abs_R3_of cfg st i).
  change (R_of cfg (set_hasFallen i false (set_isInContact i false st)) i)
    with (R_of cfg st i).
  fold (outside st i). destruct (outside st i).
  - rewrite scan_body_fold.
    match goal with |- context [gravity_sum ?s i ?js ?a] =>
      change (gravity_sum s i js a) with (gravity_sum st i js a);
      change (contact_among s i js) with (contact_among st i js) end.
    unfold set_AccInt, set_AccRad, set_hasFallen, set_isInContact.
    cbn [Loc isInContact hasFallen AccRad AccInt VelRad VelInt TimeSeries andb negb].
    f_equal. destruct (contact_among st i _); [apply list_insert_insert_eq | done].
  - unfold set_AccInt, set_AccRad, set_hasFallen, set_isInContact.
    cbn [Loc isInContact hasFallen AccRad AccInt VelRad VelInt TimeSeries].
    f_equal. apply list_insert_insert_eq.
Qed.

End ForcePass.

(** ** Which array slots the driver touches *)

Lemma insert_total {A} `{Inhabited A} (l : list A) (i : nat) (x : A) :
  i < length l -> <[i:=x]> l !!! i = x.
Proof. intros Hi. apply list_lookup_total_correct. by apply list_lookup_insert_eq. Qed.

Ltac projections :=
  cbn [Loc isInContact hasFallen AccRad AccInt VelRad VelInt TimeSeries].

Ltac unfold_setters :=
  unfold set_isInContact, set_hasFallen, set_AccRad, set_AccInt, set_Loc,
         set_VelRad, set_VelInt, set_TimeSeries;
  cbn [Loc isInContact hasFallen AccRad AccInt VelRad VelInt TimeSeries].

Section Slots.

Context {F : Type} `{Float64 F}.
Variable cfg : Config F.

(** Everything the state holds for body [i]. *)
Definition slot (st : State F) (i : nat) :=
  (isInContact st !! i, hasFallen st !! i, AccRad st !! i, AccInt st !! i,
   Loc st !! i, VelRad st !! i, VelInt st !! i).

(** The columns [findNextLoc] and [findNextVel] store for body [i]. *)
Definition Loc_value (st : State F) (i : nat) : vec F :=
  vadd (Loc st !!! i)
    (vadd (vmuls (vadd (VelRad st !!! i) (VelInt st !!! i)) (dt cfg))
          (vmuls (smulv (dec 1 2) (vadd (AccRad st !!! i) (AccInt st !!! i)))
                 (pow2 (dt cfg)))).

Definition VelRad_value (st : State F) (i : nat) : vec F :=
  vadd (VelRad st !!! i) (vmuls (AccRad st !!! i) (dt cfg)).

Definition VelInt_value (st : State F) (i : nat) : vec F :=
  let v := vadd (VelInt st !!! i) (vmuls (AccInt st !!! i) (dt cfg)) in
  if (isInContact st !!! i : bool) then smulv (VelDecreaseFactor cfg) v else v.

Lemma findNextLoc_eq (i : nat) (st : State F) :
  findNextLoc cfg i st =
  mkState (isInContact st) (hasFallen st) (AccRad st) (AccInt st)
          (<[i:=Loc_value st i]> (Loc st)) (VelRad st) (VelInt st) (TimeSeries st).
Proof. reflexivity. Qed.

Lemma findNextVel_shape (i : nat) (st : State F) :
  exists v : vec F,
  findNextVel cfg i st =
  mkState (isInContact st) (hasFallen st) (AccRad st) (AccInt st) (Loc st)
          (<[i:=VelRad_value st i]> (VelRad st)) (<[i:=v]> (VelInt st))
          (TimeSeries st) /\
  (i < length (VelInt st) -> v = VelInt_value st i).
Proof.
  unfold findNextVel, VelInt_value. unfold_setters.
  destruct (isInContact st !!! i : bool); unfold_setters.
  - eexists. split; [by rewrite list_insert_insert_eq|].
    intros Hi. by rewrite insert_total.
  - eexists. split; [done|]. done.
Qed.

Lemma findNextVel_eq (i : nat) (st : State F) :
  i < length (VelInt st) ->
  findNextVel cfg i st =
  mkState (isInContact st) (hasFallen st) (AccRad st) (AccInt st) (Loc st)
          (<[i:=VelRad_value st i]> (VelRad st))
          (<[i:=VelInt_value st i]> (VelInt st)) (TimeSeries st).
Proof.
  intros Hi. destruct (findNextVel_shape i st) as (v & -> & Hv). by rewrite Hv.
Qed.

Lemma findCurrentAcc_slot_ne (k i : nat) (st : State F) :
  k ≠ i -> slot (findCurrentAcc cfg k st) i = slot st i.
Proof.
  intros Hk. rewrite findCurrentAcc_eq. unfold slot.
  cbn [Loc isInContact hasFallen AccRad AccInt VelRad VelInt].
  by rewrite !list_lookup_insert_ne by done.
Qed.

Lemma findNextLoc_slot_ne (k i : nat) (st : State F) :
  k ≠ i -> slot (findNextLoc cfg k st) i = slot st i.
Proof.
  intros Hk. unfold findNextLoc, slot. unfold_setters.
  by rewrite !list_lookup_insert_ne by done.
Qed.

Lemma findNextVel_slot_ne (k i : nat) (st : State F) :
  k ≠ i -> slot (findNextVel cfg k st) i = slot st i.
Proof.
  intros Hk. destruct (findNextVel_shape k st) as (v & -> & _).
  unfold slot. projections. by rewrite !list_lookup_insert_ne by done.
Qed.

Lemma body_step_slot_ne (k i : nat) (st : State F) :
  k ≠ i -> slot (body_step cfg st k) i = slot st i.
Proof.
  intros Hk. unfold body_step. destruct (_ !!! k : bool); [done|].
  rewrite findNextVel_slot_ne, findNextLoc_slot_ne, findCurrentAcc_slot_ne; done.
Qed.

(** A body whose [hasFallen] is 1 is skipped. *)
Lemma body_step_fallen (i : nat) (st : State F) :
  hasFallen st !! i = Some true -> body_step cfg st i = st.
Proof.
  intros Hf. unfold body_step.
  by rewrite (list_lookup_total_correct _ _ _ Hf).
Qed.

Lemma slot_hasFallen (st st' : State F) i :
  slot st' i = slot st i -> hasFallen st' !! i = hasFallen st !! i.
Proof. unfold slot. intros [=]. done. Qed.

Lemma body_steps_fallen (ks : list nat) (i : nat) (st : State F) :
  hasFallen st !! i = Some true ->
  slot (fold_left (body_step cfg) ks st) i = slot st i.
Proof.
  revert st. induction ks as [|k ks IH]; intros st Hf; [done|].
  cbn [fold_left].
  assert (slot (body_step cfg st k) i = slot st i) as Hs.
  { destruct (decide (k = i)) as [->|Hk].
    - by rewrite body_step_fallen.
    - by apply body_step_slot_ne. }
  rewrite IH, Hs; [done|]. by rewrite (slot_hasFallen _ _ _ Hs).
Qed.

Lemma body_steps_not_in (ks : list nat) (i : nat) (st : State F) :
  i ∉ ks -> slot (fold_left (body_step cfg) ks st) i = slot st i.
Proof.
  revert st. induction ks as [|k ks IH]; intros st Hi; [done|].
  cbn [fold_left]. apply not_elem_of_cons in Hi as [Hik Hi].
  rewrite IH by done. by apply body_step_slot_ne.
Qed.

(** The force pass and the integrator never write [TimeSeries], and no
    array changes its size. *)
Lemma body_step_TimeSeries (k : nat) (st : State F) :
  TimeSeries (body_step cfg st k) = TimeSeries st.
Proof.
  unfold body_step. destruct (_ !!! k : bool); [done|].
  destruct (findNextVel_shape k (findNextLoc cfg k (findCurrentAcc cfg k st)))
    as (v & -> & _). projections. by rewrite findNextLoc_eq, findCurrentAcc_eq.
Qed.

Lemma body_steps_TimeSeries (ks : list nat) (st : State F) :
  TimeSeries (fold_left (body_step cfg) ks st) = TimeSeries st.
Proof.
  revert st. induction ks as [|k ks IH]; intros st; [done|].
  cbn [fold_left]. by rewrite IH, body_step_TimeSeries.
Qed.

Lemma body_step_allocated (n f k : nat) (st : State F) :
  allocated n f st -> allocated n f (body_step cfg st k).
Proof.
  unfold body_step. destruct (_ !!! k : bool); [done|].
  destruct (findNextVel_shape k (findNextLoc cfg k (findCurrentAcc cfg k st)))
    as (v & -> & _).
  rewrite findNextLoc_eq, findCurrentAcc_eq. unfold allocated. projections.
  rewrite !length_insert; done.
Qed.

Lemma body_steps_allocated (n f : nat) (ks : list nat) (st : State F) :
  allocated n f st -> allocated n f (fold_left (body_step cfg) ks st).
Proof.
  revert st. induction ks as [|k ks IH]; intros st Ha; [done|].
  cbn [fold_left]. by apply IH, body_step_allocated.
Qed.

(** *** Frames *)

Lemma snapshot_slot (t i : nat) (st st' : State F) :
  snapshot t st = Some st' -> slot st' i = slot st i.
Proof.
  unfold snapshot. destruct (decide _); [|done]. by intros [= <-].
Qed.

Lemma frame_slot_fallen (t i : nat) (st st' : State F) :
  hasFallen st !! i = Some true ->
  frame cfg st t = Some st' -> slot st' i = slot st i.
Proof.
  intros Hf Hfr. unfold frame, body_loop in Hfr.
  rewrite (snapshot_slot _ _ _ _ Hfr). by apply body_steps_fallen.
Qed.

Lemma frames_snoc (ts : list nat) (t : nat) (st : State F) :
  frames cfg (ts ++ [t]) st = frames cfg ts st ≫= fun s => frame cfg s t.
Proof. unfold frames. by rewrite foldl_snoc. Qed.

Lemma frames_cons (ts : list nat) (t : nat) (st : State F) :
  frames cfg (t :: ts) st = frame cfg st t ≫= frames cfg ts.
Proof.
  unfold frames. cbn [foldl mbind option_bind].
  destruct (frame cfg st t) as [s|]; [done|].
  cbn. induction ts as [|t' ts IH]; [done|]. done.
Qed.

Lemma frames_slot_fallen (ts : list nat) (i : nat) (st st' : State F) :
  hasFallen st !! i = Some true ->
  frames cfg ts st = Some st' -> slot st' i = slot st i.
Proof.
  revert st. induction ts as [|t ts IH]; intros st Hf Hfr.
  - by injection Hfr as <-.
  - rewrite frames_cons in Hfr.
    destruct (frame cfg st t) as [s|] eqn:Hs; [|done]. cbn in Hfr.
    pose proof (frame_slot_fallen _ _ _ _ Hf Hs) as Hslot.
    rewrite (IH s); [done| |done].
    by rewrite (slot_hasFallen _ _ _ Hslot).
Qed.

End Slots.

(** ** What one body step and one frame compute *)

Section Driver.

Context {F : Type} `{Float64 F}.
Variable cfg : Config F.

(** The slot of body [i] after [findCurrentAcc(i); findNextLoc(i);
    findNextVel(i)], in terms of the state before. *)
Definition stepped_slot (st : State F) (i : nat) :=
  let c := contact_value cfg st i in
  let aR := AccRad_value cfg st i in
  let aI := AccInt_value cfg st i in
  let loc' := vadd (Loc st !!! i)
                (vadd (vmuls (vadd (VelRad st !!! i) (VelInt st !!! i)) (dt cfg))
                      (vmuls (smulv (dec 1 2) (vadd aR aI)) (pow2 (dt cfg)))) in
  let vR := vadd (VelRad st !!! i) (vmuls aR (dt cfg)) in
  let vI := vadd (VelInt st !!! i) (vmuls aI (dt cfg)) in
  (Some c, Some (negb (outside cfg st i)), Some aR, Some aI, Some loc', Some vR,
   Some (if c then smulv (VelDecreaseFactor cfg) vI else vI)).

Lemma body_step_slot (n f i : nat) (st : State F) :
  allocated n f st -> i < n -> hasFallen st !! i = Some false ->
  slot (body_step cfg st i) i = stepped_slot st i.
Proof.
  intros (H1 & H2 & H3 & H4 & H5 & H6 & H7 & _) Hi Hf.
  unfold body_step. rewrite (list_lookup_total_correct _ _ _ Hf).
  rewrite findCurrentAcc_eq, findNextLoc_eq. projections.
  rewrite findNextVel_eq by (projections; lia).
  unfold slot, stepped_slot, Loc_value, VelRad_value, VelInt_value. projections.
  rewrite !insert_total by lia.
  rewrite !list_lookup_insert_eq by lia. done.
Qed.

Lemma slot_total (st st' : State F) (i : nat) :
  slot st' i = slot st i ->
  Loc st' !!! i = Loc st !!! i /\ VelRad st' !!! i = VelRad st !!! i /\
  VelInt st' !!! i = VelInt st !!! i /\ AccRad st' !!! i = AccRad st !!! i /\
  AccInt st' !!! i = AccInt st !!! i.
Proof.
  unfold slot. intros [= _ _ Ha Hb Hc Hd He].
  rewrite !list_lookup_total_alt, Ha, Hb, Hc, Hd, He. done.
Qed.

Lemma range_0 (n : Z) : range 0 n = seq 0 (Z.to_nat n).
Proof. unfold range. by rewrite Z.sub_0_r. Qed.

Lemma range_split (n : Z) (i : nat) :
  (Z.of_nat i < n)%Z ->
  range 0 n = seq 0 i ++ i :: seq (S i) (Z.to_nat n - S i).
Proof.
  intros Hi. rewrite range_0.
  replace (Z.to_nat n) with (i + S (Z.to_nat n - S i)) at 1 by lia.
  by rewrite seq_app.
Qed.

Lemma not_elem_of_seq_lt (a len i : nat) : i < a -> i ∉ seq a len.
Proof. intros Hi Hin. apply elem_of_seq in Hin. lia. Qed.

Lemma not_elem_of_seq_0 (i : nat) : i ∉ seq 0 i.
Proof. intros Hin. apply elem_of_seq in Hin. lia. Qed.

(** The state in which the body loop reaches body [i]. *)
Definition reached (st : State F) (i : nat) : State F :=
  fold_left (body_step cfg) (seq 0 i) st.

Lemma body_loop_split (st : State F) (i : nat) :
  (Z.of_nat i < N cfg - 1)%Z ->
  body_loop cfg st =
  fold_left (body_step cfg) (seq (S i) (Z.to_nat (N cfg - 1) - S i))
            (body_step cfg (reached st i) i).
Proof.
  intros Hi. unfold body_loop, reached.
  by rewrite (range_split _ i Hi), fold_left_app.
Qed.

Lemma reached_slot (st : State F) (i : nat) : slot (reached st i) i = slot st i.
Proof. apply body_steps_not_in, not_elem_of_seq_0. Qed.

(** After the body loop, the slot of [i] is the one its own step left. *)
Lemma body_loop_slot (st : State F) (i : nat) :
  (Z.of_nat i < N cfg - 1)%Z ->
  slot (body_loop cfg st) i = slot (body_step cfg (reached st i) i) i.
Proof.
  intros Hi. rewrite (body_loop_split st i Hi).
  apply body_steps_not_in, not_elem_of_seq_lt. lia.
Qed.

End Driver.

(** ** The driver: settling, integration order, snapshots *)

Section DriverProperties.

Context {F : Type} `{Float64 F}.
Variable cfg : Config F.

Lemma outside_Loc (st st' : State F) (i : nat) :
  Loc st' !!! i = Loc st !!! i -> outside cfg st' i = outside cfg st i.
Proof. unfold outside, Abs_R3_of, R_of. by intros ->. Qed.

(** The slot of a body that [findCurrentAcc] finds inside the central
    radius, after its step: flags, zero accelerations, and the position
    and velocities that [findNextLoc] and [findNextVel] still compute. *)
Definition settled_slot (st : State F) (i : nat) :=
  (Some false, Some true, Some (vzero (F:=F)), Some (vzero (F:=F)),
   Some (vadd (Loc st !!! i)
           (vadd (vmuls (vadd (VelRad st !!! i) (VelInt st !!! i)) (dt cfg))
                 (vmuls (smulv (dec 1 2) (vadd vzero vzero)) (pow2 (dt cfg))))),
   Some (vadd (VelRad st !!! i) (vmuls vzero (dt cfg))),
   Some (vadd (VelInt st !!! i) (vmuls vzero (dt cfg)))).

Lemma stepped_slot_inside (st : State F) (i : nat) :
  outside cfg st i = false -> stepped_slot cfg st i = settled_slot st i.
Proof.
  intros Ho. unfold stepped_slot, settled_slot, contact_value, AccRad_value,
    AccInt_value. by rewrite Ho.
Qed.

Lemma stepped_slot_reached (st : State F) (i : nat) :
  outside cfg st i = false ->
  stepped_slot cfg (reached cfg st i) i = settled_slot st i.
Proof.
  intros Ho. destruct (slot_total _ _ _ (reached_slot cfg st i)) as (HL & HR & HI & _).
  rewrite stepped_slot_inside by (by rewrite (outside_Loc _ _ _ HL)).
  unfold settled_slot. by rewrite HL, HR, HI.
Qed.

Lemma frame_slot (st st' : State F) (t : nat) (i : nat) :
  frame cfg st t = Some st' -> slot st' i = slot (body_loop cfg st) i.
Proof. apply snapshot_slot. Qed.

Lemma body_loop_settles (f i : nat) (st : State F) :
  allocated (Z.to_nat (N cfg)) f st -> (Z.of_nat i < N cfg - 1)%Z ->
  hasFallen st !! i = Some false -> outside cfg st i = false ->
  slot (body_loop cfg st) i = settled_slot st i.
Proof.
  intros Ha Hi Hf Ho. rewrite body_loop_slot by done.
  rewrite (body_step_slot cfg (Z.to_nat (N cfg)) f).
  - by apply stepped_slot_reached.
  - by apply body_steps_allocated.
  - lia.
  - by rewrite (slot_hasFallen _ _ _ (reached_slot cfg st i)).
Qed.

(** *** Snapshots *)

Lemma frame_TimeSeries (st st' : State F) (t : nat) :
  frame cfg st t = Some st' ->
  t < length (TimeSeries st) /\
  TimeSeries st' = <[t:=Loc (body_loop cfg st)]> (TimeSeries st) /\
  Loc st' = Loc (body_loop cfg st).
Proof.
  unfold frame, snapshot, body_loop. rewrite body_steps_TimeSeries.
  destruct (decide _) as [Ht|]; [|done]. intros [= <-].
  unfold_setters. by rewrite body_steps_TimeSeries.
Qed.

Lemma frame_is_Some (st : State F) (t : nat) :
  t < length (TimeSeries st) -> is_Some (frame cfg st t).
Proof.
  intros Ht. unfold frame, snapshot, body_loop. rewrite body_steps_TimeSeries.
  rewrite decide_True by done. eauto.
Qed.

Lemma frames_TimeSeries_not_in (ts : list nat) (t : nat) (st st' : State F) :
  t ∉ ts -> frames cfg ts st = Some st' ->
  TimeSeries st' !! t = TimeSeries st !! t /\
  length (TimeSeries st') = length (TimeSeries st).
Proof.
  revert st. induction ts as [|t0 ts IH]; intros st Ht Hfr.
  - by injection Hfr as <-.
  - apply not_elem_of_cons in Ht as [Hne Ht]. rewrite frames_cons in Hfr.
    destruct (frame cfg st t0) as [s|] eqn:Hs; [|done]. cbn in Hfr.
    destruct (frame_TimeSeries _ _ _ Hs) as (_ & HT & _).
    destruct (IH s Ht Hfr) as [-> ->]. rewrite HT, length_insert.
    by rewrite list_lookup_insert_ne.
Qed.

Lemma frames_length (ts : list nat) (st st' : State F) :
  frames cfg ts st = Some st' ->
  length (TimeSeries st') = length (TimeSeries st).
Proof.
  revert st. induction ts as [|t0 ts IH]; intros st Hfr.
  - by injection Hfr as <-.
  - rewrite frames_cons in Hfr.
    destruct (frame cfg st t0) as [s|] eqn:Hs; [|done]. cbn in Hfr.
    destruct (frame_TimeSeries _ _ _ Hs) as (_ & HT & _).
    rewrite (IH s Hfr), HT. apply length_insert.
Qed.

Lemma frames_is_Some (ts : list nat) (st : State F) :
  Forall (fun t => t < length (TimeSeries st)) ts -> is_Some (frames cfg ts st).
Proof.
  revert st. induction ts as [|t0 ts IH]; intros st Hall; [by eexists|].
  apply Forall_cons in Hall as [Ht Hall]. rewrite frames_cons.
  destruct (frame_is_Some st t0 Ht) as [s Hs]. rewrite Hs. cbn.
  apply IH. destruct (frame_TimeSeries _ _ _ Hs) as (_ & HT & _).
  by rewrite HT, length_insert.
Qed.

(** [Run] returns whenever the frames it writes are allocated. *)
Lemma Run_is_Some (dtCount : Z) (st : State F) :
  (dtCount - 1 <= Z.of_nat (length (TimeSeries st)))%Z ->
  is_Some (Run cfg dtCount st).
Proof.
  intros Hle. apply frames_is_Some. rewrite range_0.
  apply Forall_forall. intros t Ht. apply elem_of_seq in Ht. lia.
Qed.

End DriverProperties.

(** ** Statements about the driver *)

Section DriverClaims.

Context {F : Type} `{Float64 F}.
Variable cfg : Config F.

(** C5.  Once [hasFallen[i]] is 1, it stays 1, and nothing the state holds
    for body [i] (flags, position, both velocities, both accelerations) is
    written again: not by the rest of the body loop of the frame in which it
    was set, not by any sequence of later frames, not by a later [Run].
    [findCurrentAcc] does reset the flag, but [Run] only calls it on a body
    whose flag is 0. *)
Theorem settled_is_permanent (st : State F) (i : nat) :
  hasFallen st !! i = Some true ->
  (forall ks, slot (fold_left (body_step cfg) ks st) i = slot st i) /\
  (forall ts st', frames cfg ts st = Some st' ->
     hasFallen st' !! i = Some true /\ slot st' i = slot st i) /\
  (forall dtCount st', Run cfg dtCount st = Some st' ->
     hasFallen st' !! i = Some true /\ slot st' i = slot st i).
Proof.
  intros Hf.
  assert (forall ts st', frames cfg ts st = Some st' ->
            hasFallen st' !! i = Some true /\ slot st' i = slot st i) as Hfr.
  { intros ts st' Hr. pose proof (frames_slot_fallen cfg ts i st st' Hf Hr) as Hs.
    split; [|done]. by rewrite (slot_hasFallen _ _ _ Hs). }
  split; [|split].
  - intros ks. by apply body_steps_fallen.
  - exact Hfr.
  - intros dtCount st'. apply Hfr.
Qed.

(** C4, as the program has it.  When the frame's force pass finds body [i]
    inside the central radius (the test [Abs_R3 >= LargeRadius**3] fails),
    the body is marked settled, its contact flag is 0 and both accelerations
    are zero (the pairwise scan is skipped); [findNextLoc] and [findNextVel]
    still run for it in that frame, so its position advances once by
    [(VelRad+VelInt)*dt + 0.5*(0+0)*dt**2] and its velocities become
    [Vel + 0*dt]; after that first frame, and after any number of further
    frames, the slot of the body is exactly this one. *)
Theorem fallen_body_freezes (f i t : nat) (ts : list nat) (st st' : State F) :
  allocated (Z.to_nat (N cfg)) f st -> (Z.of_nat i < N cfg - 1)%Z ->
  hasFallen st !! i = Some false -> outside cfg st i = false ->
  frames cfg (t :: ts) st = Some st' ->
  slot (findCurrentAcc cfg i st) i =
    (Some false, Some true, Some vzero, Some vzero,
     Loc st !! i, VelRad st !! i, VelInt st !! i) /\
  slot st' i = settled_slot cfg st i.
Proof.
  intros Ha Hi Hf Ho Hfr. split.
  - destruct Ha as (H1 & H2 & H3 & H4 & _).
    rewrite findCurrentAcc_eq. unfold slot, contact_value, AccRad_value, AccInt_value.
    cbn [Loc isInContact hasFallen AccRad AccInt VelRad VelInt]. rewrite Ho.
    rewrite !list_lookup_insert_eq by lia. done.
  - rewrite frames_cons in Hfr.
    destruct (frame cfg st t) as [s|] eqn:Hs; [|done]. cbn in Hfr.
    assert (slot s i = settled_slot cfg st i) as Hslot.
    { rewrite (frame_slot cfg _ _ _ i Hs). by apply (body_loop_settles cfg f). }
    rewrite (frames_slot_fallen cfg ts i s st'); [done| |done].
    unfold slot, settled_slot in Hslot. by injection Hslot.
Qed.

(** C3, as the program has it.  [Run] calls [findCurrentAcc(i)], then
    [findNextLoc(i)], then [findNextVel(i)].  The position update therefore
    reads the velocities as they were before this step's velocity update
    (those of the previous step) together with this step's accelerations;
    the velocities are updated afterwards, the internal one damped by
    [VelDecreaseFactor] when the body is in contact. *)
Theorem position_before_velocity (n f i : nat) (st : State F) :
  allocated n f st -> i < n ->
  (hasFallen st !! i = Some false ->
   body_step cfg st i = findNextVel cfg i (findNextLoc cfg i (findCurrentAcc cfg i st))) /\
  let st' := findNextVel cfg i (findNextLoc cfg i st) in
  Loc st' !! i =
    Some (vadd (Loc st !!! i)
            (vadd (vmuls (vadd (VelRad st !!! i) (VelInt st !!! i)) (dt cfg))
                  (vmuls (smulv (dec 1 2) (vadd (AccRad st !!! i) (AccInt st !!! i)))
                         (pow2 (dt cfg))))) /\
  VelRad st' !! i = Some (vadd (VelRad st !!! i) (vmuls (AccRad st !!! i) (dt cfg))) /\
  VelInt st' !! i =
    Some (let v := vadd (VelInt st !!! i) (vmuls (AccInt st !!! i) (dt cfg)) in
          if (isInContact st !!! i : bool) then smulv (VelDecreaseFactor cfg) v else v).
Proof.
  intros (H1 & H2 & H3 & H4 & H5 & H6 & H7 & _) Hi. split.
  - intros Hf. unfold body_step. by rewrite (list_lookup_total_correct _ _ _ Hf).
  - rewrite findNextLoc_eq, findNextVel_eq by (projections; lia).
    unfold Loc_value, VelRad_value, VelInt_value. projections.
    rewrite !list_lookup_insert_eq by lia. done.
Qed.

(** C2, what the program does.  [Run(dtCount)] iterates
    [for t in range(dtCount-1)]: it executes [dtCount-1] frames, and no frame
    of index [dtCount-1] or above is written; in particular the last of the
    [dtCount] allocated columns keeps its initial content. *)
Theorem Run_leaves_last_frame (dtCount : Z) (st st' : State F) :
  Run cfg dtCount st = Some st' ->
  forall t, (dtCount - 1 <= Z.of_nat t)%Z -> TimeSeries st' !! t = TimeSeries st !! t.
Proof.
  intros Hr t Ht. unfold Run in Hr. rewrite range_0 in Hr.
  refine (proj1 (frames_TimeSeries_not_in cfg _ t _ _ _ Hr)).
  intros Hin. apply elem_of_seq in Hin. lia.
Qed.

(** The frames that are executed are recorded as the positions stand at
    the end of the frame. *)
Lemma frame_records_positions (ts : list nat) (t : nat) (st st' : State F) :
  frames cfg (ts ++ [t]) st = Some st' -> TimeSeries st' !! t = Some (Loc st').
Proof.
  rewrite frames_snoc. destruct (frames cfg ts st) as [s|]; [|done]. cbn.
  intros Hfr. destruct (frame_TimeSeries cfg _ _ _ Hfr) as (Ht & -> & ->).
  by apply list_lookup_insert_eq.
Qed.

End DriverClaims.

(** ** Statements about the force pass *)

Section ForceClaims.

Context {F : Type} `{Float64 F}.
Variable cfg : Config F.

(** The vector sum of a list of columns, added left to right from zero as
    the accumulator [r_Abs_r3] is. *)
Definition vsum (vs : list (vec F)) : vec F := fold_left vadd vs vzero.

(** The scan is written [for j in range(0,N-1)]: it covers the bodies
    [0 .. N-2].  Whether the last body, of index [N-1], belongs to the scan
    is a question about that bound which the statements on the force pass do
    not settle: they speak of a scan over [range 0 b] for a bound [b] that is
    one of [N-1] and [N]. *)
Definition scan_bound (b : Z) : Prop := b = (N cfg - 1)%Z \/ b = N cfg.

(** The bodies of [range 0 b] whose term the scan for [i] accumulates. *)
Definition contributors (st : State F) (i : nat) (b : Z) : list nat :=
  filter (fun j => j ≠ i /\ touching cfg st i j = false) (range 0 b).

Lemma gravity_sum_filter (st : State F) (i : nat) (js : list nat) (a0 : vec F) :
  gravity_sum cfg st i js a0 =
  fold_left vadd
    (pair_term st i <$> filter (fun j => j ≠ i /\ touching cfg st i j = false) js) a0.
Proof.
  unfold gravity_sum. revert a0. induction js as [|j js IH]; intros a0; [done|].
  cbn [fold_left]. rewrite IH, filter_cons.
  destruct (decide (j ≠ i)) as [Hj|Hj].
  - rewrite (bool_decide_eq_true_2 _ Hj). cbn [andb].
    destruct (touching cfg st i j) eqn:Ht; cbn [negb].
    + rewrite decide_False; [done|]. intros [_ ?]. done.
    + rewrite decide_True by done. done.
  - rewrite (bool_decide_eq_false_2 _ Hj). cbn [andb].
    rewrite decide_False; [done|]. intros [? _]. done.
Qed.

Lemma contact_among_true (st : State F) (i : nat) (js : list nat) :
  contact_among cfg st i js = true <->
  exists j, j ∈ js /\ j ≠ i /\ touching cfg st i j = true.
Proof.
  unfold contact_among. rewrite existsb_exists. split.
  - intros (j & Hin & Hb). apply andb_true_iff in Hb as [Hne Ht].
    exists j. rewrite list_elem_of_In. by apply bool_decide_eq_true_1 in Hne.
  - intros (j & Hin & Hne & Ht). exists j. rewrite <- list_elem_of_In.
    by rewrite (bool_decide_eq_true_2 _ Hne), Ht.
Qed.

(** The internal acceleration stored for a body outside the central
    radius: the accumulator over the contributors, times [Gm], times 0.001. *)
Lemma AccInt_after_force_pass (n f i : nat) (st : State F) :
  allocated n f st -> i < n -> outside cfg st i = true ->
  AccInt (findCurrentAcc cfg i st) !! i =
  Some (vmuls (smulv (Gm cfg) (vsum (pair_term st i <$> contributors st i (N cfg - 1))))
              (dec 1 1000)).
Proof.
  intros (H1 & H2 & H3 & H4 & _) Hi Ho. rewrite findCurrentAcc_eq.
  cbn [AccInt]. rewrite list_lookup_insert_eq by lia.
  unfold AccInt_value. rewrite Ho, gravity_sum_filter. done.
Qed.

(** C7, as the program has it.  After [findCurrentAcc(i)], [isInContact[i]]
    is 1 exactly when body [i] is outside the central radius and some other
    body [j] of the scan, settled or not, has [|r|^3 < SmallDiam**3]; the
    right-hand side reads positions only, so the flag carries nothing over
    from earlier frames.  The bodies found within the collision diameter are
    left out of the accumulator: the stored internal acceleration is
    [Gm * (sum over the others of r/(0.001*|r|^3)) * 0.001].  The scan covers
    the bodies [0 .. N-2]; the statement holds for one bound [b] among [N-1]
    and [N] and so does not say whether the last body counts. *)
Theorem contact_flag_after_force_pass :
  exists b, scan_bound b /\
  forall (n f i : nat) (st : State F),
  allocated n f st -> i < n ->
  (isInContact (findCurrentAcc cfg i st) !! i = Some true <->
   outside cfg st i = true /\
   exists j, j ∈ range 0 b /\ j ≠ i /\ touching cfg st i j = true) /\
  (outside cfg st i = true ->
   AccInt (findCurrentAcc cfg i st) !! i =
   Some (vmuls (smulv (Gm cfg) (vsum (pair_term st i <$> contributors st i b)))
               (dec 1 1000))).
Proof.
  exists (N cfg - 1)%Z. split; [by left|]. intros n f i st Ha Hi. split.
  - destruct Ha as (H1 & _). rewrite findCurrentAcc_eq.
    cbn [isInContact]. rewrite list_lookup_insert_eq by lia.
    unfold contact_value. rewrite <- contact_among_true.
    rewrite <- andb_true_iff. split; [by intros [= ->]|by intros ->].
  - by apply (AccInt_after_force_pass n f).
Qed.

(** C6, as the program has it.  The body loop is sequential: when it
    reaches body [i], the bodies before [i] already stand at their positions
    of the end of the frame and the bodies from [i] on still stand at the
    positions of the start of the frame.  The accelerations and the contact
    flag stored for body [i] in that frame are the ones the force formulas
    give on these mixed positions. *)
Theorem force_pass_reads_mixed_positions (f i : nat) (st : State F) :
  allocated (Z.to_nat (N cfg)) f st -> (Z.of_nat i < N cfg - 1)%Z ->
  hasFallen st !! i = Some false ->
  let st_end := body_loop cfg st in
  Loc (reached cfg st i) = take i (Loc st_end) ++ drop i (Loc st) /\
  forall m : State F, Loc m = take i (Loc st_end) ++ drop i (Loc st) ->
    AccRad st_end !! i = Some (AccRad_value cfg m i) /\
    AccInt st_end !! i = Some (AccInt_value cfg m i) /\
    isInContact st_end !! i = Some (contact_value cfg m i).
Proof.
  intros Ha Hi Hf st_end.
  pose proof (body_steps_allocated cfg _ _ (seq 0 i) st Ha) as Har.
  fold (reached cfg st i) in Har.
  pose proof (body_steps_allocated cfg _ _ (range 0 (N cfg - 1)) st Ha) as Hae.
  fold (body_loop cfg st) in Hae. fold st_end in Hae.
  assert (Loc (reached cfg st i) = take i (Loc st_end) ++ drop i (Loc st)) as HL.
  { apply list_eq. intros j.
    destruct Ha as (_ & _ & _ & _ & Ha & _).
    destruct Hae as (_ & _ & _ & _ & Hae & _).
    destruct (decide (j < i)) as [Hj|Hj].
    - rewrite lookup_app_l by (rewrite length_take; lia).
      rewrite lookup_take_lt by done.
      unfold st_end. rewrite (body_loop_split cfg st i Hi).
      assert (slot (fold_left (body_step cfg) (i :: seq (S i) (Z.to_nat (N cfg - 1) - S i))
                      (reached cfg st i)) j = slot (reached cfg st i) j) as Hs.
      { apply body_steps_not_in. intros Hin. apply elem_of_cons in Hin as [->|Hin]; [lia|].
        apply elem_of_seq in Hin. lia. }
      cbn [fold_left] in Hs. unfold slot in Hs. by injection Hs.
    - rewrite lookup_app_r by (rewrite length_take; lia).
      rewrite length_take, lookup_drop.
      replace (i + (j - i `min` length (Loc st_end))) with j by lia.
      assert (slot (reached cfg st i) j = slot st j) as Hs.
      { apply body_steps_not_in. intros Hin. apply elem_of_seq in Hin. lia. }
      unfold slot in Hs. by injection Hs. }
  split; [done|]. intros m Hm.
  assert (slot st_end i = stepped_slot cfg (reached cfg st i) i) as Hs.
  { unfold st_end. rewrite body_loop_slot by done.
    apply (body_step_slot cfg (Z.to_nat (N cfg)) f); [done|lia|].
    by rewrite (slot_hasFallen _ _ _ (reached_slot cfg st i)). }
  unfold slot, stepped_slot in Hs. injection Hs as Hc _ HaR HaI _ _ _.
  rewrite Hc, HaR, HaI. rewrite <- HL in Hm.
  unfold AccRad_value, AccInt_value, contact_value, outside, contact_among,
    gravity_sum, touching, pair_term, Abs_R3_of, R_of, Abs_r3_of, r_of.
  rewrite Hm. done.
Qed.

End ForceClaims.

(** ** Divisions and their guards

    NumPy does not raise on a zero denominator (it warns and returns an
    infinity or a NaN).  To speak about denominators, [findCurrentAcc] is
    written a second time with every [np.divide] replaced by a division that
    fails on a zero denominator; nothing else differs. *)

Section CheckedDivision.

Context {F : Type} `{Float64 F}.
Variable cfg : Config F.

Definition divide_checked (v : vec F) (d : F) : option (vec F) :=
  if feqb d (fofZ 0) then None else Some (vdivs v d).

Definition scan_body_checked (i : nat) (acc : option (State F * vec F)) (j : nat)
  : option (State F * vec F) :=
  acc ≫= fun '(st, r_Abs_r3) =>
    if decide (j ≠ i) then
      let r := r_of st i j in
      let Abs_r3 := Abs_r3_of st i j in
      if fltb Abs_r3 (pow3 (SmallDiam cfg)) then
        Some (set_isInContact i true st, r_Abs_r3)
      else
        divide_checked r (fmul (dec 1 1000) Abs_r3) ≫= fun q =>
        Some (st, vadd r_Abs_r3 q)
    else Some (st, r_Abs_r3).

Definition findCurrentAcc_checked (i : nat) (st : State F) : option (State F) :=
  let st := set_isInContact i false st in
  let st := set_hasFallen i false st in
  let R_ := R_of cfg st i in
  let Abs_R3 := Abs_R3_of cfg st i in
  if fgeb Abs_R3 (pow3 (LargeRadius cfg)) then
    divide_checked R_ (fmul (dec 1 1000) Abs_R3) ≫= fun q =>
    let R_Abs_R3 := vadd vzero q in
    let st := set_AccRad i (vmuls (smulv (GM cfg) R_Abs_R3) (dec 1 1000)) st in
    fold_left (scan_body_checked i) (range 0 (N cfg - 1)) (Some (st, vzero))
      ≫= fun '(st, r_Abs_r3) =>
    Some (set_AccInt i (vmuls (smulv (Gm cfg) r_Abs_r3) (dec 1 1000)) st)
  else
    let st := set_hasFallen i true st in
    let st := set_AccRad i vzero st in
    Some (set_AccInt i vzero st).

(** What the two guards have to give for the arithmetic at hand. *)
Hypothesis central_guard : forall a : F,
  fgeb a (pow3 (LargeRadius cfg)) = true -> feqb (fmul (dec 1 1000) a) (fofZ 0) = false.
Hypothesis pair_guard : forall a : F,
  fltb a (pow3 (SmallDiam cfg)) = false -> feqb (fmul (dec 1 1000) a) (fofZ 0) = false.

Lemma scan_checked_fold (i : nat) (js : list nat) (acc : State F * vec F) :
  fold_left (scan_body_checked i) js (Some acc) = Some (fold_left (scan_body cfg i) js acc).
Proof.
  revert acc. induction js as [|j js IH]; intros [st a]; [done|].
  cbn [fold_left]. rewrite <- IH. f_equal.
  unfold scan_body_checked, scan_body. cbn [mbind option_bind].
  destruct (decide (j ≠ i)); [|done].
  destruct (fltb _ _) eqn:Hlt; [done|].
  unfold divide_checked. by rewrite (pair_guard _ Hlt).
Qed.

Lemma findCurrentAcc_checked_ok (i : nat) (st : State F) :
  findCurrentAcc_checked i st = Some (findCurrentAcc cfg i st).
Proof.
  unfold findCurrentAcc_checked, findCurrentAcc.
  destruct (fgeb _ _) eqn:Hge; [|done].
  unfold divide_checked. rewrite (central_guard _ Hge). cbn [mbind option_bind].
  rewrite scan_checked_fold. cbn [option_bind].
  by destruct (fold_left _ _ _).
Qed.

End CheckedDivision.

(** ** Exact arithmetic: the real-number reading *)

Ltac real_ops :=
  unfold vmuls, smulv, vadd, vsub, vdivs, vzero, vmap, vmap2, dec, pow3, pow2 in *;
  cbn [fadd fsub fmul fdiv fsqrt fofZ fltb fgeb feqb real_ops] in *.

Section Exact.

Variable cfg : Config R.

Local Open Scope R_scope.

Lemma Rltb_false (x y : R) : Rltb x y = false -> y <= x.
Proof. unfold Rltb. destruct (Rlt_dec x y); [done|]. intros _. lra. Qed.

Lemma Rgeb_true (x y : R) : Rgeb x y = true -> y <= x.
Proof. unfold Rgeb. destruct (Rge_dec x y); [|done]. intros _. lra. Qed.

Lemma Reqb_false (x y : R) : x <> y -> Reqb x y = false.
Proof. unfold Reqb. by destruct (Req_dec_T x y). Qed.

Lemma cube_pos (x : R) : 0 < x -> 0 < x * x * x.
Proof. intros Hx. repeat apply Rmult_lt_0_compat; done. Qed.

Lemma LargeRadius_pos : 0 < GenCubeLength cfg -> 0 < LargeRadius cfg.
Proof. unfold LargeRadius. real_ops. lra. Qed.

(** The same in exact arithmetic, for every positive body diameter and
    generation cube: every denominator is [0.001] times a number that is at
    least a positive cube.  Two bodies at the same position have
    [Abs_r3 = 0] and take the contact branch. *)
Theorem divisions_are_guarded_exact (i : nat) (st : State R) :
  0 < SmallDiam cfg -> 0 < GenCubeLength cfg ->
  findCurrentAcc_checked cfg i st = Some (findCurrentAcc cfg i st) /\
  (forall j, Loc st !!! j = Loc st !!! i -> touching cfg st i j = true).
Proof.
  intros HD HL. split.
  - apply findCurrentAcc_checked_ok.
    + intros a Ha. apply Rgeb_true in Ha. apply Reqb_false.
      pose proof (cube_pos _ (LargeRadius_pos HL)). real_ops. lra.
    + intros a Ha. apply Rltb_false in Ha. apply Reqb_false.
      pose proof (cube_pos _ HD). real_ops. lra.
  - intros j Hj. unfold touching, Abs_r3_of, r_of, norm. rewrite Hj.
    destruct (Loc st !!! i) as [[x y] z]. pose proof (cube_pos _ HD). real_ops.
    replace (x - x) with 0 by lra. replace (y - y) with 0 by lra.
    replace (z - z) with 0 by lra.
    replace (0 * 0 + 0 * 0 + 0 * 0) with 0 by lra. rewrite sqrt_0.
    unfold Rltb. destruct (Rlt_dec _ _); [done|]. lra.
Qed.

Lemma filter_ext_elem {A} (P Q : A -> Prop) `{!forall x, Decision (P x)}
    `{!forall x, Decision (Q x)} (l : list A) :
  (forall x, x ∈ l -> P x <-> Q x) -> filter P l = filter Q l.
Proof.
  induction l as [|a l IH]; intros Hext; [done|].
  rewrite !filter_cons, IH by (intros x Hx; apply Hext; by right).
  pose proof (Hext a (list_elem_of_here a l)) as Ha.
  destruct (decide (P a)), (decide (Q a)); tauto || done.
Qed.

(** The accumulator of the scan, scaled back by 0.001, is the sum of the
    unscaled terms. *)
Lemma scaled_sum (ras : list (vec R * R)) (a0 : vec R) :
  Forall (fun ra => snd ra <> 0) ras ->
  vmuls (fold_left vadd ((fun ra => vdivs (fst ra) (fmul (dec 1 1000) (snd ra))) <$> ras) a0)
        (dec 1 1000) =
  fold_left vadd ((fun ra => vdivs (fst ra) (snd ra)) <$> ras) (vmuls a0 (dec 1 1000)).
Proof.
  revert a0. induction ras as [|[r a] ras IH]; intros a0 Hall; [done|].
  apply Forall_cons in Hall as [Ha Hall]. cbn [fmap list_fmap fold_left fst snd] in *.
  rewrite IH by done. f_equal.
  destruct a0 as [[x y] z], r as [[u v] w]. real_ops.
  f_equal; [f_equal|]; field; done.
Qed.

Lemma smulv_vmuls (g k : R) (v : vec R) :
  vmuls (smulv g v) k = smulv g (vmuls v k).
Proof. destruct v as [[x y] z]. real_ops. f_equal; [f_equal|]; ring. Qed.

(** The term of body [j] in "the vector sum of [r/|r|^3]". *)
Definition unscaled_term (st : State R) (i j : nat) : vec R :=
  vdivs (r_of st i j) (Abs_r3_of st i j).

(** In exact arithmetic the two factors 0.001 cancel: for a body outside
    the central radius that touches no body of the scan, the stored internal
    acceleration is [Gm] times the sum of the unscaled terms. *)
Lemma AccInt_exact_sum (n f i : nat) (st : State R) :
  allocated n f st -> (i < n)%nat -> 0 < SmallDiam cfg ->
  outside cfg st i = true ->
  (forall j, j ∈ range 0 (N cfg - 1) -> j ≠ i -> touching cfg st i j = false) ->
  AccInt (findCurrentAcc cfg i st) !! i =
  Some (smulv (Gm cfg)
          (vsum (unscaled_term st i <$> filter (fun j => j ≠ i) (range 0 (N cfg - 1))))).
Proof.
  intros Ha Hi HD Ho Hfree.
  rewrite (AccInt_after_force_pass cfg n f i st Ha Hi Ho). f_equal.
  unfold contributors.
  assert (filter (fun j => j ≠ i /\ touching cfg st i j = false) (range 0 (N cfg - 1))
          = filter (fun j => j ≠ i) (range 0 (N cfg - 1))) as ->.
  { apply filter_ext_elem. intros j Hj. split; [by intros []|].
    intros Hne. split; [done|]. by apply Hfree. }
  rewrite smulv_vmuls. f_equal. unfold vsum, pair_term, unscaled_term.
  set (js := filter _ _).
  assert (Forall (fun j => j ∈ range 0 (N cfg - 1) /\ j ≠ i) js) as Hjs.
  { apply Forall_forall. intros j Hj. by apply list_elem_of_filter in Hj as []. }
  pose proof (scaled_sum ((fun j => (r_of st i j, Abs_r3_of st i j)) <$> js) vzero) as Hs.
  rewrite <- !list_fmap_compose in Hs. unfold compose in Hs. cbn [fst snd] in Hs.
  rewrite Hs.
  - f_equal. real_ops. f_equal; [f_equal|]; lra.
  - apply Forall_fmap. eapply Forall_impl; [exact Hjs|].
    intros j [Hin Hne]. unfold compose. cbn [snd]. specialize (Hfree j Hin Hne).
    unfold touching in Hfree. apply Rltb_false in Hfree.
    pose proof (cube_pos _ HD) as Hpos. unfold pow3 in Hfree.
    cbn [fmul real_ops] in Hfree. intros Heq. rewrite Heq in Hfree. lra.
Qed.

End Exact.

(** A body that touches no other body: every body of the scan other than
    [i] is a contributor. *)
Lemma AccInt_untouched {F : Type} `{Float64 F} (cfg : Config F) (n f i : nat)
    (st : State F) :
  allocated n f st -> i < n -> outside cfg st i = true ->
  (forall j, j ∈ range 0 (N cfg - 1) -> j ≠ i -> touching cfg st i j = false) ->
  AccInt (findCurrentAcc cfg i st) !! i =
  Some (vmuls (smulv (Gm cfg)
                 (vsum (pair_term st i <$> filter (fun j => j ≠ i) (range 0 (N cfg - 1)))))
              (dec 1 1000)).
Proof.
  intros Ha Hi Ho Hfree.
  rewrite (AccInt_after_force_pass cfg n f i st Ha Hi Ho). do 5 f_equal.
  unfold contributors. apply filter_ext_elem. intros j Hj.
  split; [by intros []|]. intros Hne. split; [done|]. by apply Hfree.
Qed.

Lemma range_0_mono (a b : Z) (j : nat) : (a <= b)%Z -> j ∈ range 0 a -> j ∈ range 0 b.
Proof. unfold range. rewrite !elem_of_seq. lia. Qed.

(** C1, as the program has it.  Body [i] is outside the central radius and
    within the collision diameter of no other body.

    In every arithmetic, binary64 included, the internal acceleration stored
    by [findCurrentAcc] is [Gm * S * 0.001], where [S] is the accumulator of
    the scan: the terms [r/(0.001*|r|^3)] of the other bodies [j ≠ i] of the
    scan, added from zero in index order.  No term is left out for a settled
    body: the scan never looks at [hasFallen[j]].

    In exact arithmetic the two factors 0.001 cancel, and the stored value
    is [Gm] times the exact vector sum of [r/|r|^3] over the same bodies.

    The scan covers the bodies [0 .. N-2]; each part holds for one bound [b]
    among [N-1] and [N] and so does not say whether the last body counts. *)
Theorem internal_acceleration_is_sum :
  (forall (F : Type) (ops : Float64 F) (cfg : Config F),
     exists b, scan_bound cfg b /\
     forall (n f i : nat) (st : State F),
       allocated n f st -> i < n -> outside cfg st i = true ->
       (forall j, j ∈ range 0 (N cfg) -> j ≠ i -> touching cfg st i j = false) ->
       AccInt (findCurrentAcc cfg i st) !! i =
       Some (vmuls (smulv (Gm cfg)
                      (vsum (pair_term st i <$> filter (fun j => j ≠ i) (range 0 b))))
                   (dec 1 1000))) /\
  (forall cfg : Config R, (0 < SmallDiam cfg)%R ->
     exists b, scan_bound cfg b /\
     forall (n f i : nat) (st : State R),
       allocated n f st -> i < n -> outside cfg st i = true ->
       (forall j, j ∈ range 0 (N cfg) -> j ≠ i -> touching cfg st i j = false) ->
       AccInt (findCurrentAcc cfg i st) !! i =
       Some (smulv (Gm cfg)
               (vsum (unscaled_term st i <$> filter (fun j => j ≠ i) (range 0 b))))).
Proof.
  split.
  - intros F ops cfg. exists (N cfg - 1)%Z. split; [by left|].
    intros n f i st Ha Hi Ho Hfree. apply (AccInt_untouched cfg n f); [done..|].
    intros j Hj. apply Hfree. revert Hj. apply range_0_mono. lia.
  - intros cfg HD. exists (N cfg - 1)%Z. split; [by left|].
    intros n f i st Ha Hi Ho Hfree. apply (AccInt_exact_sum cfg n f); [done..|].
    intros j Hj. apply Hfree. revert Hj. apply range_0_mono. lia.
Qed.



(** ** Binary64: the guards keep the scaled denominators away from zero

    In binary64 a product can underflow to zero.  The lemmas below follow
    the rounding of [SpecFloat] far enough to see that [0.001 * a] is not a
    zero as soon as [a] is not below 1728: the exponent of the exact product
    stays above the smallest exponent, so no significant bit is shifted
    out. *)

Section Binary64.

Local Open Scope Z_scope.

Lemma digits2_pos_size (p : positive) : digits2_pos p = Pos.size p.
Proof. induction p as [p IH|p IH|]; cbn; by rewrite ?IH. Qed.

Lemma digits2_lower (p : positive) : 2 ^ (Zpos (digits2_pos p) - 1) <= Zpos p.
Proof.
  rewrite digits2_pos_size. pose proof (Pos.size_le p) as Hs.
  assert (2 ^ Zpos (Pos.size p) <= 2 * Zpos p) as Hz.
  { change (2 * Zpos p) with (Zpos p~0). rewrite <- Pos2Z.inj_pow. exact Hs. }
  replace (Zpos (Pos.size p)) with (Zpos (Pos.size p) - 1 + 1) in Hz by lia.
  rewrite Z.pow_add_r in Hz by lia. lia.
Qed.

Lemma shr_1_m (mrs : shr_record) :
  0 <= shr_m mrs -> shr_m (shr_1 mrs) = shr_m mrs / 2.
Proof.
  destruct mrs as [m r s]. cbn [shr_m]. intros Hm.
  rewrite <- Z.div2_div.
  destruct m as [|[p|p|]|p]; cbn [shr_1 shr_m]; try reflexivity; lia.
Qed.

Lemma iter_shr_m (p : positive) (mrs : shr_record) :
  0 <= shr_m mrs -> shr_m (SpecFloat.iter_pos shr_1 p mrs) = shr_m mrs / 2 ^ Zpos p.
Proof.
  revert mrs. induction p as [p IH|p IH|]; intros mrs Hm; cbn [SpecFloat.iter_pos].
  - assert (2 ^ Zpos p~1 = 2 * 2 ^ Zpos p * 2 ^ Zpos p) as ->.
    { change 2 with (2 ^ 1) at 2. rewrite <- !Z.pow_add_r by lia. f_equal. lia. }
    assert (0 < 2 ^ Zpos p) as Hp by (apply Z.pow_pos_nonneg; lia).
    assert (0 <= shr_m (shr_1 mrs)) as H1 by (rewrite shr_1_m by done; apply Z.div_pos; lia).
    assert (0 <= shr_m (SpecFloat.iter_pos shr_1 p (shr_1 mrs))) as H2
      by (rewrite IH by done; apply Z.div_pos; lia).
    rewrite IH, IH, shr_1_m by done. rewrite !Z.div_div by lia. f_equal. lia.
  - assert (2 ^ Zpos p~0 = 2 ^ Zpos p * 2 ^ Zpos p) as ->.
    { rewrite <- Z.pow_add_r by lia. f_equal. lia. }
    assert (0 < 2 ^ Zpos p) as Hp by (apply Z.pow_pos_nonneg; lia).
    assert (0 <= shr_m (SpecFloat.iter_pos shr_1 p mrs)) as H2
      by (rewrite IH by done; apply Z.div_pos; lia).
    rewrite IH, IH by done. rewrite !Z.div_div by lia. f_equal.
  - by rewrite shr_1_m.
Qed.

Lemma shr_record_of_loc_m (m : Z) (l : location) : shr_m (shr_record_of_loc m l) = m.
Proof. by destruct l as [|[]]. Qed.

Lemma shr_fexp_pos (m : positive) (E : Z) (l : location) :
  emin prec emax <= E ->
  0 < shr_m (fst (shr_fexp prec emax (Zpos m) E l)) /\
  E <= snd (shr_fexp prec emax (Zpos m) E l).
Proof.
  intros HE. unfold shr_fexp, shr. cbn [Zdigits2].
  pose proof (digits2_lower m) as Hd.
  set (d := Zpos (digits2_pos m)) in *.
  destruct (fexp prec emax (d + E) - E) as [|n|n] eqn:Hn; cbn [fst snd];
    rewrite ?shr_record_of_loc_m; try lia.
  unfold fexp in Hn. split; [|lia].
  rewrite iter_shr_m by (rewrite shr_record_of_loc_m; lia).
  rewrite shr_record_of_loc_m.
  apply Z.div_str_pos. split; [apply Z.pow_pos_nonneg; lia|].
  etrans; [|exact Hd]. apply Z.pow_le_mono_r; [lia|].
  unfold emin in *. change prec with 53 in *. change emax with 1024 in *. lia.
Qed.

Lemma round_nearest_even_ge (m : Z) (l : location) : m <= round_nearest_even m l.
Proof. destruct l as [|[]]; cbn; try lia. destruct (Z.even m); lia. Qed.

(** Neither [+0] nor [-0]. *)
Definition SFnonzero (x : spec_float) : Prop :=
  match x with S754_zero _ => False | _ => True end.

Lemma binary_round_aux_nonzero (s : bool) (m : positive) (E : Z) (l : location) :
  emin prec emax <= E -> SFnonzero (binary_round_aux prec emax s (Zpos m) E l).
Proof.
  intros HE. unfold binary_round_aux.
  destruct (shr_fexp_pos m E l HE) as [H1 H2].
  destruct (shr_fexp prec emax (Zpos m) E l) as [mrs' e']. cbn [fst snd] in *.
  pose proof (round_nearest_even_ge (shr_m mrs') (loc_of_shr_record mrs')) as Hr.
  destruct (round_nearest_even _ _) as [|m'|m'] eqn:Hm'; try lia.
  destruct (shr_fexp_pos m' e' loc_Exact) as [H3 H4]; [lia|].
  destruct (shr_fexp prec emax (Zpos m') e' loc_Exact) as [mrs'' e'']. cbn [fst snd] in *.
  destruct (shr_m mrs'') as [|m''|m'']; try lia.
  by destruct (_ <=? _).
Qed.

Lemma SFeqb_nonzero (x : spec_float) (s : bool) : SFnonzero x -> SFeqb x (S754_zero s) = false.
Proof. by destruct x as [| [] | | [] ? ?]. Qed.

(** A positive finite factor with exponent [ex], times anything that is not
    below a bound with exponent [eb], with [emin <= ex + eb]. *)
Lemma SFmul_nonzero (mx : positive) (ex : Z) (mb : positive) (eb : Z) (y : spec_float) :
  emin prec emax <= ex + eb ->
  SFltb y (S754_finite false mb eb) = false ->
  SFnonzero (SFmul prec emax (S754_finite false mx ex) y).
Proof.
  intros HE Hlt. destruct y as [sy|sy| |sy my ey].
  - discriminate Hlt.
  - destruct sy; [discriminate Hlt|exact I].
  - exact I.
  - destruct sy; [discriminate Hlt|].
    apply binary_round_aux_nonzero.
    unfold SFltb, SFcompare in Hlt. destruct (ey ?= eb) eqn:Hc.
    + apply Z.compare_eq in Hc. lia.
    + discriminate Hlt.
    + apply Z.compare_gt_iff in Hc. lia.
Qed.

Lemma SFleb_ltb (mb : positive) (eb : Z) (mc : positive) (ec : Z) (y : spec_float) :
  eb < ec ->
  SFleb (S754_finite false mc ec) y = true -> SFltb y (S754_finite false mb eb) = false.
Proof.
  intros Hbc Hle. destruct y as [sy|sy| |sy my ey].
  - destruct sy; discriminate Hle.
  - destruct sy; [discriminate Hle|reflexivity].
  - discriminate Hle.
  - destruct sy; [discriminate Hle|]. unfold SFleb, SFltb, SFcompare in *.
    assert (ec <= ey) as Hey.
    { destruct (ec ?= ey) eqn:Hc.
      - apply Z.compare_eq in Hc. lia.
      - change (ec < ey) in Hc. lia.
      - discriminate Hle. }
    destruct (ey ?= eb) eqn:Hc'; [|..|reflexivity].
    + apply Z.compare_eq in Hc'. lia.
    + change (ey < eb) in Hc'. lia.
Qed.

Lemma scaled_not_zero_ltb (a : float) :
  PrimFloat.ltb a 1728 = false -> PrimFloat.eqb (0.001 * a) 0 = false.
Proof.
  intros Hlt. rewrite FloatAxioms.eqb_spec, FloatAxioms.mul_spec. rewrite FloatAxioms.ltb_spec in Hlt.
  let v := eval vm_compute in (Prim2SF 0.001) in change (Prim2SF 0.001) with v.
  let v := eval vm_compute in (Prim2SF 0) in change (Prim2SF 0) with v.
  let v := eval vm_compute in (Prim2SF 1728) in change (Prim2SF 1728) with v in Hlt.
  apply SFeqb_nonzero. eapply SFmul_nonzero; [|exact Hlt]. vm_compute. discriminate.
Qed.

Lemma scaled_not_zero_leb (a : float) :
  PrimFloat.leb 125000 a = true -> PrimFloat.eqb (0.001 * a) 0 = false.
Proof.
  intros Hle. apply scaled_not_zero_ltb. rewrite FloatAxioms.ltb_spec. rewrite FloatAxioms.leb_spec in Hle.
  let v := eval vm_compute in (Prim2SF 125000) in change (Prim2SF 125000) with v in Hle.
  let v := eval vm_compute in (Prim2SF 1728) in change (Prim2SF 1728) with v.
  eapply SFleb_ltb; [|exact Hle]. lia.
Qed.

End Binary64.

(** C10.  With the constants of the program ([SmallDiam = 12],
    [GenCubeLength = 500], hence [LargeRadius**3 = 125000]), no division of
    [findCurrentAcc] has a zero denominator in binary64, for any body index
    and any state, infinities and NaNs included: the central term is divided
    by [0.001*Abs_R3] only where [Abs_R3 >= LargeRadius**3], the pairwise
    term by [0.001*Abs_r3] only where [Abs_r3 < SmallDiam**3] fails, and
    neither product can be a zero there.  The force pass with checked
    divisions therefore always succeeds and is the force pass. *)
Theorem divisions_are_guarded (cfg : Config float) (i : nat) (st : State float) :
  SmallDiam cfg = fofZ 12 -> GenCubeLength cfg = fofZ 500 ->
  findCurrentAcc_checked cfg i st = Some (findCurrentAcc cfg i st).
Proof.
  intros HD HL.
  assert ((dec 1 1000 : float) = 0.001%float) as Hk by (vm_compute; reflexivity).
  assert ((fofZ 0 : float) = 0%float) as H0 by (vm_compute; reflexivity).
  apply findCurrentAcc_checked_ok.
  - intros a Ha. unfold LargeRadius in Ha. rewrite HL in Ha.
    assert (pow3 (fdiv (fofZ 500) (fofZ 10) : float) = 125000%float) as E
      by (vm_compute; reflexivity).
    rewrite E in Ha. rewrite Hk, H0. by apply scaled_not_zero_leb.
  - intros a Ha. rewrite HD in Ha.
    assert (pow3 (fofZ 12 : float) = 1728%float) as E by (vm_compute; reflexivity).
    rewrite E in Ha. rewrite Hk, H0. by apply scaled_not_zero_ltb.
Qed.

(** ** The statements as the specification words them

    Each definition below follows the wording of the specification, not the
    program; the concrete runs further down compare the two. *)

Section AsSpecified.

Context {F : Type} `{Float64 F}.
Variable cfg : Config F.

(** "[Gm] times the exact vector sum of [r/|r|^3] over every other active
    (non-settled) body [j ≠ i]": all [N] bodies, settled ones left out. *)
Definition specified_AccInt (st : State F) (i : nat) : vec F :=
  smulv (Gm cfg)
    (vsum ((fun j => vdivs (r_of st i j) (Abs_r3_of st i j)) <$>
           filter (fun j => j ≠ i /\ hasFallen st !!! j = false) (range 0 (N cfg)))).

(** "The integrator first updates the velocities and then updates the
    position using those just-updated velocities." *)
Definition specified_body_step (st : State F) (i : nat) : State F :=
  if (hasFallen st !!! i : bool) then st
  else findNextLoc cfg i (findNextVel cfg i (findCurrentAcc cfg i st)).

(** "[in_contact[i]] is true if and only if at least one other active
    (non-settled) body lies within the collision diameter of body [i]." *)
Definition specified_contact (st : State F) (i : nat) : bool :=
  existsb (fun j => bool_decide (j ≠ i) && negb (hasFallen st !!! j) && touching cfg st i j)
          (range 0 (N cfg)).

(** The two-phase reference: all accelerations from the positions of the
    start of the frame, and only then the integration of all bodies.  The
    bodies taken are those that are not settled when the frame starts. *)
Definition force_phase (st0 st : State F) : State F :=
  fold_left (fun s i => if (hasFallen st0 !!! i : bool) then s
                        else findCurrentAcc cfg i s) (range 0 (N cfg - 1)) st.

Definition integration_phase (st0 st : State F) : State F :=
  fold_left (fun s i => if (hasFallen st0 !!! i : bool) then s
                        else findNextVel cfg i (findNextLoc cfg i s))
            (range 0 (N cfg - 1)) st.

Definition two_phase_body_loop (st : State F) : State F :=
  integration_phase st (force_phase st st).

(** "Body count N ≤ 0, frame_count ≤ 0, timestep dt ≤ 0, or collision
    diameter at least the generation-cube length". *)
Definition degenerate (dtCount : Z) : bool :=
  bool_decide (N cfg <= 0)%Z || bool_decide (dtCount <= 0)%Z ||
  fgeb (fofZ 0) (dt cfg) || fgeb (SmallDiam cfg) (GenCubeLength cfg).

End AsSpecified.

(** ** Concrete runs in binary64 *)

Definition fv (x y z : Z) : vec float := (fofZ x, fofZ y, fofZ z).

(** The constants of the program, with three bodies. *)
Definition cfg3 : Config float :=
  {| N := 3; Gm := fofZ 5000000; dt := dec 1 1000; SmallDiam := fofZ 12;
     VelDecreaseFactor := dec 95 100; GenCubeLength := fofZ 500;
     Vel0 := fofZ 5000 |}.

Example cfg3_constants :
  cfg3 = mkConfig 3 (Gm source_config) (dt source_config) (SmallDiam source_config)
           (VelDecreaseFactor source_config) (GenCubeLength source_config)
           (Vel0 source_config).
Proof. reflexivity. Qed.

(** Three bodies and three frames; [hasFallen] and [Loc] vary. *)
Definition bodies3 (fallen : list bool) (loc : list (vec float)) : State float :=
  {| isInContact := [false; false; false]; hasFallen := fallen;
     AccRad := replicate 3 vzero; AccInt := replicate 3 vzero;
     Loc := loc;
     VelRad := [fv 0 5000 0; fv 0 5000 0; vzero]; VelInt := replicate 3 vzero;
     TimeSeries := replicate 3 (replicate 3 vzero) |}.

(** Body 0 at distance 100 from the central object (at 1750,1750,1750),
    body 1 settled at distance 10 from it, 90 away from body 0. *)
Definition st_settled_neighbour : State float :=
  bodies3 [false; true; false] [fv 1850 1750 1750; fv 1760 1750 1750; vzero].

(** Body 0 at distance 55 from the central object, body 1 settled at
    distance 45, the two 10 apart. *)
Definition st_settled_touching : State float :=
  bodies3 [false; true; false] [fv 1805 1750 1750; fv 1795 1750 1750; vzero].

(** Body 0 at distance 10 from the central object, not yet flagged, body 1
    active at distance 5 from body 0. *)
Definition st_inside : State float :=
  bodies3 [false; false; false] [fv 1760 1750 1750; fv 1765 1750 1750; vzero].

(** Bodies 0 and 1 active, at distances 100 and 200 from the central
    object. *)
Definition st_two_active : State float :=
  bodies3 [false; false; false] [fv 1850 1750 1750; fv 1950 1750 1750; vzero].

(** Bodies 0 and 1 at the very same position, both active. *)
Definition st_coincident : State float :=
  bodies3 [false; false; false] [fv 1850 1750 1750; fv 1850 1750 1750; vzero].

(** A degenerate configuration: negative timestep, and a collision
    diameter larger than the generation cube. *)
Definition cfg_degenerate : Config float :=
  {| N := 3; Gm := fofZ 5000000; dt := dec (-1) 1000; SmallDiam := fofZ 600;
     VelDecreaseFactor := dec 95 100; GenCubeLength := fofZ 500;
     Vel0 := fofZ 5000 |}.

(** No body and no frame. *)
Definition cfg_empty : Config float :=
  {| N := 0; Gm := fofZ 5000000; dt := dec 1 1000; SmallDiam := fofZ 12;
     VelDecreaseFactor := dec 95 100; GenCubeLength := fofZ 500;
     Vel0 := fofZ 5000 |}.

(** The shuffle that leaves a list as it is. *)
Definition unshuffled (l : list Z) : list Z := l.

(** The first coordinate of a column that is there. *)
Definition xcoord (o : option (vec float)) : float :=
  match o with Some (x, _, _) => x | None => nan end.
Definition ycoord (o : option (vec float)) : float :=
  match o with Some (_, y, _) => y | None => nan end.

(** Two columns differ when one coordinate is below a bound and the other
    is not. *)
Ltac differ_by f bound :=
  let E := fresh "E" in
  intros E; apply (f_equal (fun o => PrimFloat.ltb (f o) bound)) in E;
  vm_compute in E; discriminate E.

(** Split conjunctions only: an equation between runs is left for
    [vm_compute]. *)
Ltac conjs := repeat match goal with |- _ /\ _ => split end.

(** The same, running each conjunct before the next one is looked at, for
    statements whose later conjuncts mention the result of an earlier one. *)
Ltac run_conjs :=
  repeat match goal with |- _ /\ _ => split; [vm_compute; reflexivity|] end;
  vm_compute; reflexivity.

(** The literals of the program are the nearest binary64 numbers. *)
Example literals :
  (dec 1 1000 : float) = 0.001%float /\ (dec 95 100 : float) = 0.95%float /\
  (dec 1 2 : float) = 0.5%float /\ HeavyMassLoc cfg3 = fv 1750 1750 1750 /\
  LargeRadius cfg3 = 50%float.
Proof. conjs; (vm_compute; reflexivity). Qed.

(** Bodies 0 and 1 active and 19 apart, body 2 settled. *)
Definition st_rounding : State float :=
  bodies3 [false; false; true] [fv 1850 1750 1750; fv 1869 1750 1750; vzero].

(** C1 as stated fails, on two counts.

    Settled bodies.  In the first state body 0 is outside the central radius
    and touches no body; body 1 is settled.  The stored internal
    acceleration of body 0 is the term of the settled body 1, with
    [r = (-90,0,0)], and its first coordinate is -617.28...; the sum over
    the non-settled bodies has only the term of the far body 2, and its
    first coordinate is above -1.

    Exactness.  In the second state the only other body that is not settled
    is body 1, at [r = (19,0,0)], so the sum as specified and the scan have
    the same single term, and [|r| = 19] and [|r|^3 = 6859] are computed
    without error.  The program stores [Gm * (r/(0.001*|r|^3)) * 0.001],
    which is 7614346452742383 / 2^39 in binary64: not [Gm * (r/|r|^3)] as
    binary64 computes it, and not the exact value 5000000/361. *)
Lemma internal_acceleration_is_not_as_stated :
  (outside cfg3 st_settled_neighbour 0 = true /\
   touching cfg3 st_settled_neighbour 0 1 = false /\
   touching cfg3 st_settled_neighbour 0 2 = false /\
   hasFallen st_settled_neighbour !! 1 = Some true /\
   AccInt (findCurrentAcc cfg3 0 st_settled_neighbour) !! 0 =
     Some (vmuls (smulv (Gm cfg3) (vadd vzero (pair_term st_settled_neighbour 0 1)))
                 (dec 1 1000)) /\
   AccInt (findCurrentAcc cfg3 0 st_settled_neighbour) !! 0 =
     Some ((-617.28395061728395)%float, 0%float, 0%float) /\
   PrimFloat.ltb (-1)%float
     (xcoord (Some (specified_AccInt cfg3 st_settled_neighbour 0))) = true /\
   AccInt (findCurrentAcc cfg3 0 st_settled_neighbour) !! 0 ≠
     Some (specified_AccInt cfg3 st_settled_neighbour 0)) /\
  (outside cfg3 st_rounding 0 = true /\
   touching cfg3 st_rounding 0 1 = false /\
   touching cfg3 st_rounding 0 2 = false /\
   hasFallen st_rounding = [false; false; true] /\
   norm (r_of st_rounding 0 1) = 19%float /\
   Abs_r3_of st_rounding 0 1 = 6859%float /\
   AccInt (findCurrentAcc cfg3 0 st_rounding) !! 0 =
     Some (13850.415512465375%float, 0%float, 0%float) /\
   specified_AccInt cfg3 st_rounding 0 = (13850.415512465373%float, 0%float, 0%float) /\
   AccInt (findCurrentAcc cfg3 0 st_rounding) !! 0 ≠
     Some (specified_AccInt cfg3 st_rounding 0) /\
   Prim2SF (xcoord (AccInt (findCurrentAcc cfg3 0 st_rounding) !! 0)) =
     S754_finite false 7614346452742383 (-39) /\
   (7614346452742383 * 361 ≠ 5000000 * 2 ^ 39)%Z).
Proof.
  split.
  - conjs; try (vm_compute; reflexivity).
    differ_by xcoord (-1)%float.
  - conjs; try (vm_compute; reflexivity).
    + intros E.
      apply (f_equal (fun o => PrimFloat.ltb 13850.415512465373%float (xcoord o))) in E.
      vm_compute in E. discriminate E.
    + vm_compute. discriminate.
Qed.

(** C3 as stated fails.  One step of body 0: the program moves it to
    [x = 1847.49...], reading the velocity of before the step; updating the
    velocities first would move it to [x = 1842.49...].  The velocities
    stored are the same either way. *)
Lemma position_reads_old_velocity :
  hasFallen st_settled_neighbour !! 0 = Some false /\
  Loc (body_step cfg3 st_settled_neighbour 0) !! 0 =
    Some (1847.4996913580246%float, 1755%float, 1750%float) /\
  Loc (specified_body_step cfg3 st_settled_neighbour 0) !! 0 =
    Some (1842.4990740740741%float, 1755%float, 1750%float) /\
  VelRad (body_step cfg3 st_settled_neighbour 0) !! 0 =
    VelRad (specified_body_step cfg3 st_settled_neighbour 0) !! 0 /\
  Loc (body_step cfg3 st_settled_neighbour 0) !! 0 ≠
    Loc (specified_body_step cfg3 st_settled_neighbour 0) !! 0.
Proof.
  conjs; try (vm_compute; reflexivity).
  differ_by xcoord 1845%float.
Qed.

(** C4 as stated fails.  Body 0 starts inside the central radius with the
    cloud velocity (0,5000,0).  It is settled in frame 0, but the integrator
    has still moved it in that frame (y from 1750 to 1755), and its velocity
    is never set to zero. *)
Lemma settling_body_still_moves :
  exists st', Run cfg3 3 st_inside = Some st' /\
    outside cfg3 st_inside 0 = false /\
    hasFallen st' !! 0 = Some true /\
    Loc st_inside !! 0 = Some (fv 1760 1750 1750) /\
    TimeSeries st' !! 0 ≫= (.!! 0) = Some (fv 1760 1755 1750) /\
    Loc st' !! 0 = Some (fv 1760 1755 1750) /\
    VelRad st' !! 0 = Some (fv 0 5000 0) /\
    Loc st' !! 0 ≠ Loc st_inside !! 0 /\
    VelRad st' !! 0 ≠ Some vzero.
Proof.
  eexists. split; [vm_compute; reflexivity|].
  conjs; try (vm_compute; reflexivity).
  - differ_by ycoord 1752%float.
  - differ_by ycoord 1%float.
Qed.

(** C6 as stated fails.  Bodies 0 and 1 are both active.  The program
    integrates body 0 before it computes the force on body 1, so the force
    on body 1 sees body 0 at its new position; the two-phase reference, and
    the force formula on the positions of the start of the frame, give
    (-500,0,0). *)
Lemma sequential_loop_is_not_two_phase :
  AccInt (body_loop cfg3 st_two_active) !! 1 =
    Some ((-474.21588417740958)%float, 23.132538575821396%float, 0%float) /\
  AccInt (two_phase_body_loop cfg3 st_two_active) !! 1 = Some (fv (-500) 0 0) /\
  AccInt_value cfg3 st_two_active 1 = fv (-500) 0 0 /\
  AccInt (body_loop cfg3 st_two_active) !! 1 ≠ Some (AccInt_value cfg3 st_two_active 1) /\
  body_loop cfg3 st_two_active ≠ two_phase_body_loop cfg3 st_two_active.
Proof.
  conjs; try (vm_compute; reflexivity).
  - differ_by xcoord (-490)%float.
  - intros E. apply (f_equal (fun s => PrimFloat.ltb (xcoord (AccInt s !! 1)) (-490)%float)) in E.
    vm_compute in E. discriminate E.
Qed.

(** C7 as stated fails, in both directions.  First state: the only body
    within the collision diameter of body 0 is the settled body 1, and the
    flag is 1.  Second state: the active body 1 is 5 away from body 0, but
    body 0 is inside the central radius, its scan is skipped and the flag
    is 0. *)
Lemma contact_flag_counts_settled_bodies :
  (outside cfg3 st_settled_touching 0 = true /\
   hasFallen st_settled_touching !! 1 = Some true /\
   touching cfg3 st_settled_touching 0 1 = true /\
   touching cfg3 st_settled_touching 0 2 = false /\
   specified_contact cfg3 st_settled_touching 0 = false /\
   isInContact (findCurrentAcc cfg3 0 st_settled_touching) !! 0 = Some true) /\
  (outside cfg3 st_inside 0 = false /\
   hasFallen st_inside !! 1 = Some false /\
   touching cfg3 st_inside 0 1 = true /\
   specified_contact cfg3 st_inside 0 = true /\
   isInContact (findCurrentAcc cfg3 0 st_inside) !! 0 = Some false).
Proof. conjs; (vm_compute; reflexivity). Qed.

(** C9 as stated fails.  With a negative timestep and a collision diameter
    above the cube length, the arrays are allocated, [initialiseStates]
    places the bodies and [Run] executes its frames (body 0 drifts backwards,
    from y = 1500 to below 1495); with no body and no frame, everything
    returns normally as well. *)
Lemma degenerate_configuration_runs :
  (degenerate cfg_degenerate 3 = true /\
   exists st0 st1 st2,
     allocate cfg_degenerate 3 = Some st0 /\
     initialiseStates cfg_degenerate unshuffled unshuffled unshuffled st0 = Some st1 /\
     Run cfg_degenerate 3 st1 = Some st2 /\
     Loc st1 !! 0 = Some (fv 612 1500 1500) /\
     TimeSeries st2 !! 1 = Some (Loc st2) /\
     PrimFloat.ltb (ycoord (Loc st2 !! 0)) 1495%float = true) /\
  (degenerate cfg_empty 0 = true /\
   exists st0,
     allocate cfg_empty 0 = Some st0 /\
     initialiseStates cfg_empty unshuffled unshuffled unshuffled st0 = Some st0 /\
     Run cfg_empty 0 st0 = Some st0).
Proof.
  split; (split; [vm_compute; reflexivity|]).
  - do 3 eexists. run_conjs.
  - eexists. run_conjs.
Qed.

(** C2, on a run.  Three frames are allocated and [Run(3)] is called: two
    frames are executed and recorded, the third column is still zero, while
    the bodies are elsewhere. *)
Lemma last_frame_is_never_recorded :
  exists st0 st1 st2,
    allocate cfg3 3 = Some st0 /\
    initialiseStates cfg3 unshuffled unshuffled unshuffled st0 = Some st1 /\
    Run cfg3 3 st1 = Some st2 /\
    length (TimeSeries st2) = 3 /\
    TimeSeries st2 !! 1 = Some (Loc st2) /\
    TimeSeries st2 !! 2 = Some (replicate 3 vzero) /\
    PrimFloat.ltb 612%float (xcoord (Loc st2 !! 0)) = true.
Proof. do 3 eexists. run_conjs. Qed.

(** *** The driver theorems on these runs *)

Ltac is_allocated := unfold allocated; conjs; reflexivity.

Lemma settled_is_permanent_run :
  hasFallen st_settled_neighbour !! 1 = Some true /\
  exists st', Run cfg3 3 st_settled_neighbour = Some st' /\
    hasFallen st' !! 1 = Some true /\
    slot st' 1 = slot st_settled_neighbour 1.
Proof.
  split; [reflexivity|]. eexists. split; [vm_compute; reflexivity|].
  refine (proj2 (proj2 (settled_is_permanent cfg3 st_settled_neighbour 1 _)) 3%Z _ _).
  - reflexivity.
  - vm_compute; reflexivity.
Defined.

Lemma fallen_body_freezes_run :
  allocated (Z.to_nat (N cfg3)) 3 st_inside /\ (Z.of_nat 0 < N cfg3 - 1)%Z /\
  hasFallen st_inside !! 0 = Some false /\ outside cfg3 st_inside 0 = false /\
  exists st', frames cfg3 [0; 1] st_inside = Some st' /\
    slot (findCurrentAcc cfg3 0 st_inside) 0 =
      (Some false, Some true, Some vzero, Some vzero,
       Loc st_inside !! 0, VelRad st_inside !! 0, VelInt st_inside !! 0) /\
    slot st' 0 = settled_slot cfg3 st_inside 0.
Proof.
  split; [is_allocated|]. split; [reflexivity|]. split; [reflexivity|].
  split; [vm_compute; reflexivity|].
  eexists. split; [vm_compute; reflexivity|].
  refine (fallen_body_freezes cfg3 3 0 0 [1] st_inside _ _ _ _ _ _).
  - is_allocated.
  - reflexivity.
  - reflexivity.
  - vm_compute; reflexivity.
  - vm_compute; reflexivity.
Defined.

Lemma position_before_velocity_run :
  allocated 3 3 st_settled_neighbour /\ 0 < 3 /\
  Loc (findNextVel cfg3 0 (findNextLoc cfg3 0 st_settled_neighbour)) !! 0 =
    Some (vadd (Loc st_settled_neighbour !!! 0)
            (vadd (vmuls (vadd (VelRad st_settled_neighbour !!! 0)
                               (VelInt st_settled_neighbour !!! 0)) (dt cfg3))
                  (vmuls (smulv (dec 1 2) (vadd (AccRad st_settled_neighbour !!! 0)
                                                (AccInt st_settled_neighbour !!! 0)))
                         (pow2 (dt cfg3))))).
Proof.
  split; [is_allocated|]. split; [lia|].
  refine (proj1 (proj2 (position_before_velocity cfg3 3 3 0 st_settled_neighbour _ _))).
  - is_allocated.
  - lia.
Defined.

Lemma Run_leaves_last_frame_run :
  exists st', Run cfg3 3 st_two_active = Some st' /\ (3 - 1 <= Z.of_nat 2)%Z /\
    TimeSeries st' !! 2 = TimeSeries st_two_active !! 2.
Proof.
  eexists. split; [vm_compute; reflexivity|]. split; [lia|].
  refine (Run_leaves_last_frame cfg3 3 st_two_active _ _ 2 _).
  - vm_compute; reflexivity.
  - lia.
Defined.

Lemma contact_flag_after_force_pass_run :
  allocated 3 3 st_settled_touching /\ 0 < 3 /\
  outside cfg3 st_settled_touching 0 = true /\
  hasFallen st_settled_touching !! 1 = Some true /\
  touching cfg3 st_settled_touching 0 1 = true /\
  exists b, scan_bound cfg3 b /\
    (isInContact (findCurrentAcc cfg3 0 st_settled_touching) !! 0 = Some true <->
     outside cfg3 st_settled_touching 0 = true /\
     exists j, j ∈ range 0 b /\ j ≠ 0 /\
               touching cfg3 st_settled_touching 0 j = true) /\
    AccInt (findCurrentAcc cfg3 0 st_settled_touching) !! 0 =
      Some (vmuls (smulv (Gm cfg3)
                     (vsum (pair_term st_settled_touching 0 <$>
                            contributors cfg3 st_settled_touching 0 b)))
                  (dec 1 1000)).
Proof.
  split; [is_allocated|]. split; [lia|]. split; [vm_compute; reflexivity|].
  split; [reflexivity|]. split; [vm_compute; reflexivity|].
  destruct (contact_flag_after_force_pass cfg3) as (b & Hb & Hc).
  exists b. split; [exact Hb|].
  destruct (Hc 3 3 0 st_settled_touching) as [Hflag Hacc]; [is_allocated|lia|].
  split; [exact Hflag|]. apply Hacc. vm_compute; reflexivity.
Defined.

Lemma divisions_are_guarded_coincident :
  SmallDiam cfg3 = fofZ 12 /\ GenCubeLength cfg3 = fofZ 500 /\
  Loc st_coincident !! 0 = Loc st_coincident !! 1 /\
  touching cfg3 st_coincident 0 1 = true /\
  findCurrentAcc_checked cfg3 0 st_coincident = Some (findCurrentAcc cfg3 0 st_coincident).
Proof.
  split; [reflexivity|]. split; [reflexivity|]. split; [reflexivity|].
  split; [vm_compute; reflexivity|].
  exact (divisions_are_guarded cfg3 0 st_coincident eq_refl eq_refl).
Defined.

Lemma force_pass_reads_mixed_positions_run :
  allocated (Z.to_nat (N cfg3)) 3 st_two_active /\ (Z.of_nat 1 < N cfg3 - 1)%Z /\
  hasFallen st_two_active !! 1 = Some false /\
  Loc (reached cfg3 st_two_active 1) =
    take 1 (Loc (body_loop cfg3 st_two_active)) ++ drop 1 (Loc st_two_active) /\
  AccInt (body_loop cfg3 st_two_active) !! 1 =
    Some (AccInt_value cfg3 (reached cfg3 st_two_active 1) 1).
Proof.
  split; [is_allocated|]. split; [reflexivity|]. split; [reflexivity|].
  pose proof (force_pass_reads_mixed_positions cfg3 3 1 st_two_active) as Hm.
  destruct Hm as [HL Hm]; [is_allocated|reflexivity|reflexivity|].
  split; [exact HL|]. exact (proj1 (proj2 (Hm _ HL))).
Defined.

(** ** Configuration *)

Section Configuration.

Context {F : Type} `{Float64 F}.

(** The configuration with another timestep and another body diameter. *)
Definition with_dt_and_diameter (cfg : Config F) (dt' D' : F) : Config F :=
  mkConfig (N cfg) (Gm cfg) dt' D' (VelDecreaseFactor cfg) (GenCubeLength cfg)
           (Vel0 cfg).

(** The arrays the program starts from have the sizes the statements
    about the driver assume, and [initialiseStates] keeps them. *)
Lemma allocate_allocated (cfg : Config F) (dtCount : Z) (st : State F) :
  allocate cfg dtCount = Some st ->
  allocated (Z.to_nat (N cfg)) (Z.to_nat dtCount) st.
Proof.
  unfold allocate. destruct (decide _); [done|]. intros [= <-].
  unfold allocated. cbn. rewrite !length_replicate. done.
Qed.

Lemma place_allocated (cfg : Config F) (n f : nat) (x y z : list Z)
    (o : option (State F)) (i : nat) (st' : State F) :
  (forall st, o = Some st -> allocated n f st) ->
  place cfg x y z o i = Some st' -> allocated n f st'.
Proof.
  intros Ho. unfold place. destruct o as [st|]; [|done]. cbn.
  destruct (x !! i); [|done]. destruct (y !! i); [|done].
  destruct (z !! i); [|done]. cbn. intros [= <-].
  specialize (Ho st eq_refl). unfold allocated in *. cbn.
  rewrite !length_insert. done.
Qed.

Lemma places_allocated (cfg : Config F) (n f : nat) (x y z : list Z)
    (ks : list nat) (o : option (State F)) (st' : State F) :
  (forall st, o = Some st -> allocated n f st) ->
  fold_left (place cfg x y z) ks o = Some st' -> allocated n f st'.
Proof.
  revert o. induction ks as [|k ks IH]; intros o Ho Hfold; cbn [fold_left] in Hfold.
  - by apply Ho.
  - eapply IH; [|exact Hfold]. intros s Hs.
    eapply place_allocated; [exact Ho|exact Hs].
Qed.

Lemma initialiseStates_allocated (cfg : Config F) (n f : nat)
    (sx sy sz : list Z -> list Z) (st st' : State F) :
  allocated n f st -> initialiseStates cfg sx sy sz st = Some st' ->
  allocated n f st'.
Proof.
  intros Ha. unfold initialiseStates.
  repeat match goal with |- context [ftrunc ?a] =>
    destruct (ftrunc a); cbn [mbind option_bind]; [|discriminate] end.
  apply places_allocated. by intros s [= <-].
Qed.

(** C9, as the program has it.  Nothing validates the configuration.
    Allocation fails exactly on a negative dimension (NumPy's ValueError);
    [initialiseStates] does not read the timestep or the body diameter;
    [Run] returns for every configuration as soon as the frames it writes
    are allocated; a frame count of at most 1 makes [Run] return the state
    unchanged, and a body count of at most 1 makes the body loop do
    nothing. *)
Theorem no_configuration_check (cfg : Config F) :
  (forall dtCount, allocate cfg dtCount = None <-> (N cfg < 0 \/ dtCount < 0)%Z) /\
  (forall dt' D' sx sy sz st,
     initialiseStates (with_dt_and_diameter cfg dt' D') sx sy sz st =
     initialiseStates cfg sx sy sz st) /\
  (forall dtCount st, (dtCount - 1 <= Z.of_nat (length (TimeSeries st)))%Z ->
     is_Some (Run cfg dtCount st)) /\
  (forall dtCount st, (dtCount <= 1)%Z -> Run cfg dtCount st = Some st) /\
  (forall st, (N cfg <= 1)%Z -> body_loop cfg st = st).
Proof.
  split; [|split; [|split; [|split]]].
  - intros dtCount. unfold allocate. destruct (decide _) as [Hneg|Hok].
    + done.
    + split; [done|]. intros Hneg. by destruct Hok.
  - reflexivity.
  - intros dtCount st. apply Run_is_Some.
  - intros dtCount st Hle. unfold Run, range.
    replace (Z.to_nat (dtCount - 1 - 0)) with 0 by lia. done.
  - intros st Hle. unfold body_loop, range.
    replace (Z.to_nat (N cfg - 1 - 0)) with 0 by lia. done.
Qed.

End Configuration.

Lemma no_configuration_check_run :
  (1 <= 1)%Z /\ Run cfg_degenerate 1 st_two_active = Some st_two_active.
Proof.
  split; [lia|].
  refine (proj1 (proj2 (proj2 (proj2 (no_configuration_check cfg_degenerate)))) 1%Z _ _).
  lia.
Defined.

(** ** Concrete states in exact arithmetic *)

Local Open Scope R_scope.

(** The constants of the program, with three bodies. *)
Definition cfgR : Config R :=
  {| N := 3; Gm := 5000000; dt := 1 / 1000; SmallDiam := 12;
     VelDecreaseFactor := 95 / 100; GenCubeLength := 500; Vel0 := 5000 |}.

(** Body 0 at distance 100 from the central object, body 1 settled at
    distance 10 from it, 90 away from body 0. *)
Definition stR : State R :=
  {| isInContact := [false; false; false]; hasFallen := [false; true; false];
     AccRad := replicate 3 (0, 0, 0); AccInt := replicate 3 (0, 0, 0);
     Loc := [(1850, 1750, 1750); (1760, 1750, 1750); (0, 0, 0)];
     VelRad := [(0, 5000, 0); (0, 5000, 0); (0, 0, 0)];
     VelInt := replicate 3 (0, 0, 0);
     TimeSeries := replicate 3 (replicate 3 (0, 0, 0)) |}.

Lemma sqrt_of_square (e a : R) : 0 <= a -> e = a * a -> sqrt e = a.
Proof. intros Ha ->. by apply sqrt_square. Qed.

Lemma stR_outside : outside cfgR stR 0 = true.
Proof.
  unfold outside, Abs_R3_of, R_of, norm, HeavyMassLoc, SpaceLength, LargeRadius.
  cbn. real_ops. rewrite (sqrt_of_square _ 100) by lra.
  unfold Rgeb. destruct (Rge_dec _ _); [done|lra].
Qed.

Lemma stR_not_touching : touching cfgR stR 0 1 = false.
Proof.
  unfold touching, Abs_r3_of, r_of, norm. cbn. real_ops.
  rewrite (sqrt_of_square _ 90) by lra.
  unfold Rltb. destruct (Rlt_dec _ _); [lra|done].
Qed.

Lemma stR_not_touching_last : touching cfgR stR 0 2 = false.
Proof.
  unfold touching, Abs_r3_of, r_of, norm. cbn. real_ops.
  set (s := (0 - 1850) * (0 - 1850) + (0 - 1750) * (0 - 1750) + (0 - 1750) * (0 - 1750)).
  assert (12 <= sqrt s) as Hs.
  { rewrite <- (sqrt_of_square 144 12) by lra. apply sqrt_le_1_alt. unfold s. lra. }
  unfold Rltb. destruct (Rlt_dec _ _) as [Hlt|]; [|done]. nra.
Qed.

Lemma stR_untouched (j : nat) :
  j ∈ range 0 (N cfgR) -> j ≠ 0%nat -> touching cfgR stR 0 j = false.
Proof.
  intros Hj Hne. change (range 0 (N cfgR)) with [0%nat; 1%nat; 2%nat] in Hj.
  apply elem_of_cons in Hj as [->|Hj]; [done|].
  apply elem_of_cons in Hj as [->|Hj]; [exact stR_not_touching|].
  apply list_elem_of_singleton in Hj as ->. exact stR_not_touching_last.
Qed.

Lemma st_settled_neighbour_untouched (j : nat) :
  j ∈ range 0 (N cfg3) -> j ≠ 0%nat -> touching cfg3 st_settled_neighbour 0 j = false.
Proof.
  intros Hj Hne. change (range 0 (N cfg3)) with [0%nat; 1%nat; 2%nat] in Hj.
  apply elem_of_cons in Hj as [->|Hj]; [done|].
  apply elem_of_cons in Hj as [->|Hj]; [vm_compute; reflexivity|].
  apply list_elem_of_singleton in Hj as ->. vm_compute; reflexivity.
Qed.

Lemma internal_acceleration_is_sum_runs :
  (allocated 3 3 st_settled_neighbour /\ (0 < 3)%nat /\
   outside cfg3 st_settled_neighbour 0 = true /\
   hasFallen st_settled_neighbour !! 1%nat = Some true /\
   exists b, scan_bound cfg3 b /\
     AccInt (findCurrentAcc cfg3 0 st_settled_neighbour) !! 0%nat =
     Some (vmuls (smulv (Gm cfg3)
                    (vsum (pair_term st_settled_neighbour 0 <$>
                           filter (fun j => j ≠ 0%nat) (range 0 b))))
                 (dec 1 1000))) /\
  (allocated 3 3 stR /\ (0 < 3)%nat /\ 0 < SmallDiam cfgR /\
   outside cfgR stR 0 = true /\ hasFallen stR !! 1%nat = Some true /\
   exists b, scan_bound cfgR b /\
     AccInt (findCurrentAcc cfgR 0 stR) !! 0%nat =
     Some (smulv (Gm cfgR)
             (vsum (unscaled_term stR 0 <$> filter (fun j => j ≠ 0%nat) (range 0 b))))).
Proof.
  split.
  - split; [is_allocated|]. split; [lia|]. split; [vm_compute; reflexivity|].
    split; [reflexivity|].
    destruct (proj1 internal_acceleration_is_sum float float_ops cfg3) as (b & Hb & Hsum).
    exists b. split; [exact Hb|].
    refine (Hsum 3%nat 3%nat 0%nat st_settled_neighbour _ _ _ _).
    + is_allocated.
    + lia.
    + vm_compute; reflexivity.
    + exact st_settled_neighbour_untouched.
  - split; [is_allocated|]. split; [lia|]. split; [cbn; lra|].
    split; [exact stR_outside|]. split; [reflexivity|].
    destruct (proj2 internal_acceleration_is_sum cfgR) as (b & Hb & Hsum); [cbn; lra|].
    exists b. split; [exact Hb|].
    refine (Hsum 3%nat 3%nat 0%nat stR _ _ _ _).
    + is_allocated.
    + lia.
    + exact stR_outside.
    + exact stR_untouched.
Defined.

Lemma divisions_are_guarded_exact_at_stR :
  0 < SmallDiam cfgR /\ 0 < GenCubeLength cfgR /\
  findCurrentAcc_checked cfgR 0 stR = Some (findCurrentAcc cfgR 0 stR).
Proof.
  split; [cbn; lra|]. split; [cbn; lra|].
  refine (proj1 (divisions_are_guarded_exact cfgR 0 stR _ _)); cbn; lra.
Defined.

Close Scope R_scope.

(** * Further properties of the program *)

(** ** The driver [Run] *)

Section RunProperties.

Context {F : Type} `{Float64 F}.
Variable cfg : Config F.

Lemma frames_app (ts1 ts2 : list nat) (st : State F) :
  frames cfg (ts1 ++ ts2) st = frames cfg ts1 st ≫= frames cfg ts2.
Proof.
  revert st. induction ts1 as [|t ts1 IH]; intros st; [done|].
  cbn [app]. rewrite !frames_cons.
  destruct (frame cfg st t) as [s|]; [|done]. cbn. apply IH.
Qed.

Lemma frame_allocated (n f t : nat) (st st' : State F) :
  allocated n f st -> frame cfg st t = Some st' -> allocated n f st'.
Proof.
  intros Ha Hfr.
  pose proof (body_steps_allocated cfg n f (range 0 (N cfg - 1)) st Ha) as Hb.
  unfold frame, snapshot in Hfr. fold (body_loop cfg st) in Hb.
  destruct (decide _); [|done]. injection Hfr as <-.
  unfold allocated in *. unfold_setters. rewrite length_insert. done.
Qed.

Lemma frames_allocated (n f : nat) (ts : list nat) (st st' : State F) :
  allocated n f st -> frames cfg ts st = Some st' -> allocated n f st'.
Proof.
  revert st. induction ts as [|t ts IH]; intros st Ha Hfr.
  - by injection Hfr as <-.
  - rewrite frames_cons in Hfr.
    destruct (frame cfg st t) as [s|] eqn:Hs; [|done]. cbn in Hfr.
    eapply IH; [|exact Hfr]. by eapply frame_allocated.
Qed.

Lemma frames_Some_bounds (ts : list nat) (st st' : State F) :
  frames cfg ts st = Some st' -> Forall (fun t => t < length (TimeSeries st)) ts.
Proof.
  revert st. induction ts as [|t ts IH]; intros st Hfr; [constructor|].
  rewrite frames_cons in Hfr.
  destruct (frame cfg st t) as [s|] eqn:Hs; [|done]. cbn in Hfr.
  destruct (frame_TimeSeries cfg _ _ _ Hs) as (Ht & HT & _).
  constructor; [done|]. specialize (IH s Hfr).
  by rewrite HT, length_insert in IH.
Qed.

Lemma frames_slot_not_in (ts : list nat) (i : nat) (st st' : State F) :
  (N cfg - 1 <= Z.of_nat i)%Z -> frames cfg ts st = Some st' ->
  slot st' i = slot st i.
Proof.
  intros Hi. revert st. induction ts as [|t ts IH]; intros st Hfr.
  - by injection Hfr as <-.
  - rewrite frames_cons in Hfr.
    destruct (frame cfg st t) as [s|] eqn:Hs; [|done]. cbn in Hfr.
    rewrite (IH s Hfr), (frame_slot cfg _ _ _ i Hs).
    apply body_steps_not_in. rewrite range_0. intros Hin.
    apply elem_of_seq in Hin. lia.
Qed.

(** [Run] raises IndexError exactly when it is asked for more frames than
    [TimeSeries] has columns for: [Run(dtCount)] writes the columns
    [0 .. dtCount-2], so it fails if and only if [TimeSeries] has fewer than
    [dtCount-1] columns, whatever the bodies do. *)
Theorem Run_fails_iff (dtCount : Z) (st : State F) :
  Run cfg dtCount st = None <->
  (Z.of_nat (length (TimeSeries st)) < dtCount - 1)%Z.
Proof.
  split.
  - intros Hnone.
    destruct (decide (dtCount - 1 <= Z.of_nat (length (TimeSeries st)))%Z) as [Hle|]; [|lia].
    destruct (Run_is_Some cfg dtCount st Hle) as [s Hs]. congruence.
  - intros Hlt. destruct (Run cfg dtCount st) as [s|] eqn:Hs; [|done].
    apply frames_Some_bounds in Hs. rewrite range_0 in Hs.
    rewrite Forall_forall in Hs.
    specialize (Hs (length (TimeSeries st))).
    assert (length (TimeSeries st) ∈ seq 0 (Z.to_nat (dtCount - 1))) as Hin
      by (apply elem_of_seq; lia).
    specialize (Hs Hin). lia.
Qed.

(** [Run] keeps the sizes of all the arrays. *)
Theorem Run_keeps_sizes (n f : nat) (dtCount : Z) (st st' : State F) :
  allocated n f st -> Run cfg dtCount st = Some st' -> allocated n f st'.
Proof. intros Ha Hr. by eapply frames_allocated. Qed.

(** A run of one more frame is the shorter run followed by one frame:
    for [dtCount >= 1], [Run(dtCount+1)] is [Run(dtCount)] and then the
    frame of index [dtCount-1]. *)
Theorem Run_one_more_frame (dtCount : Z) (st : State F) :
  (1 <= dtCount)%Z ->
  Run cfg (dtCount + 1) st =
  Run cfg dtCount st ≫= fun s => frame cfg s (Z.to_nat (dtCount - 1)).
Proof.
  intros Hd. unfold Run. rewrite !range_0.
  replace (Z.to_nat (dtCount + 1 - 1)) with (S (Z.to_nat (dtCount - 1))) by lia.
  rewrite seq_S, frames_snoc. done.
Qed.

(** Every executed frame stays recorded: after [Run(dtCount)], column [t]
    of [TimeSeries], for [t < dtCount-1], holds the positions as they stood
    at the end of frame [t] (the positions of the state that the run of the
    frames [0 .. t] returns); later frames do not overwrite it. *)
Theorem Run_keeps_frames (dtCount : Z) (t : nat) (st st' : State F) :
  Run cfg dtCount st = Some st' -> (Z.of_nat t < dtCount - 1)%Z ->
  exists s, Run cfg (Z.of_nat t + 2) st = Some s /\
            TimeSeries st' !! t = Some (Loc s).
Proof.
  intros Hr Ht. unfold Run in *. rewrite range_0 in *.
  replace (Z.to_nat (Z.of_nat t + 2 - 1)) with (S t) by lia.
  replace (Z.to_nat (dtCount - 1)) with (S t + (Z.to_nat (dtCount - 1) - S t)) in Hr by lia.
  rewrite seq_app, frames_app in Hr.
  destruct (frames cfg (seq 0 (S t)) st) as [s|] eqn:Hs; [|done]. cbn in Hr.
  exists s. split; [done|].
  assert (t ∉ seq (0 + S t) (Z.to_nat (dtCount - 1) - S t)) as Hnot
    by (intros Hin; apply elem_of_seq in Hin; lia).
  rewrite (proj1 (frames_TimeSeries_not_in cfg _ t s st' Hnot Hr)).
  rewrite seq_S in Hs. by apply (frame_records_positions cfg) in Hs.
Qed.

(** The driver never touches a body of index [N-1] or above: whatever the
    run, the flags, accelerations, position and velocities of the last
    allocated body are those it started with. *)
Theorem Run_never_steps_last_body (dtCount : Z) (i : nat) (st st' : State F) :
  (N cfg - 1 <= Z.of_nat i)%Z -> Run cfg dtCount st = Some st' ->
  slot st' i = slot st i.
Proof. intros Hi Hr. by eapply frames_slot_not_in. Qed.

End RunProperties.

(** ** When every body has fallen *)

Section AllSettled.

Context {F : Type} `{Float64 F}.
Variable cfg : Config F.

(** Every body of the loop has [hasFallen] 1. *)
Definition all_fallen (st : State F) : Prop :=
  forall i, (Z.of_nat i < N cfg - 1)%Z -> hasFallen st !! i = Some true.

Lemma body_steps_all_fallen (ks : list nat) (st : State F) :
  (forall i, i ∈ ks -> hasFallen st !! i = Some true) ->
  fold_left (body_step cfg) ks st = st.
Proof.
  induction ks as [|k ks IH]; intros Hall; [done|]. cbn [fold_left].
  rewrite body_step_fallen by (apply Hall; left). apply IH.
  intros i Hi. apply Hall. by right.
Qed.

Lemma body_loop_all_fallen (st : State F) : all_fallen st -> body_loop cfg st = st.
Proof.
  intros Hall. apply body_steps_all_fallen. intros i Hi. apply Hall.
  rewrite range_0 in Hi. apply elem_of_seq in Hi. lia.
Qed.

Lemma frames_all_fallen (ts : list nat) (st st' : State F) :
  all_fallen st -> frames cfg ts st = Some st' ->
  isInContact st' = isInContact st /\ hasFallen st' = hasFallen st /\
  AccRad st' = AccRad st /\ AccInt st' = AccInt st /\ Loc st' = Loc st /\
  VelRad st' = VelRad st /\ VelInt st' = VelInt st /\
  forall t, t ∈ ts -> TimeSeries st' !! t = Some (Loc st).
Proof.
  revert st st'. induction ts as [|t ts IH] using rev_ind; intros st st' Hall Hfr.
  - injection Hfr as <-. repeat split; try done. intros t Ht. by apply elem_of_nil in Ht.
  - rewrite frames_snoc in Hfr.
    destruct (frames cfg ts st) as [s|] eqn:Hs; [|done]. cbn in Hfr.
    destruct (IH st s Hall Hs) as (H1 & H2 & H3 & H4 & H5 & H6 & H7 & H8).
    assert (all_fallen s) as Halls by (intros i Hi; rewrite H2; by apply Hall).
    unfold frame in Hfr. rewrite (body_loop_all_fallen s Halls) in Hfr.
    unfold snapshot in Hfr. destruct (decide _) as [Hlt|]; [|done].
    injection Hfr as <-. unfold_setters.
    repeat split; try done. intros t' Ht'.
    destruct (decide (t' = t)) as [->|Hne].
    + rewrite list_lookup_insert_eq by done. by rewrite H5.
    + rewrite list_lookup_insert_ne by done. apply H8.
      apply elem_of_app in Ht' as [Ht'|Ht']; [done|].
      apply list_elem_of_singleton in Ht'. done.
Qed.

(** There is no early exit: once every body of the loop has fallen, a run
    still executes all its frames, but each of them leaves every body array
    as it is and records the very same positions. *)
Theorem Run_after_all_fallen (dtCount : Z) (st st' : State F) :
  all_fallen st -> Run cfg dtCount st = Some st' ->
  body_loop cfg st = st /\
  (isInContact st' = isInContact st /\ hasFallen st' = hasFallen st /\
   AccRad st' = AccRad st /\ AccInt st' = AccInt st /\ Loc st' = Loc st /\
   VelRad st' = VelRad st /\ VelInt st' = VelInt st) /\
  forall t : nat, (Z.of_nat t < dtCount - 1)%Z -> TimeSeries st' !! t = Some (Loc st).
Proof.
  intros Hall Hr. split; [by apply body_loop_all_fallen|].
  destruct (frames_all_fallen _ _ _ Hall Hr) as (H1 & H2 & H3 & H4 & H5 & H6 & H7 & H8).
  split; [done|]. intros t Ht. apply H8. rewrite range_0. apply elem_of_seq. lia.
Qed.

End AllSettled.

(** ** Start-up followed by a run *)

Section StartUp.

Context {F : Type} `{Float64 F}.
Variable cfg : Config F.

(** The program's own sequence (allocate the arrays for [dtCount] frames,
    initialise, run [dtCount]) cannot fail in [Run]: once allocation and
    [initialiseStates] have succeeded, [Run] returns, with all arrays still
    of the allocated sizes. *)
Theorem start_up_then_Run (dtCount : Z) (sx sy sz : list Z -> list Z)
    (st0 st1 : State F) :
  allocate cfg dtCount = Some st0 ->
  initialiseStates cfg sx sy sz st0 = Some st1 ->
  exists st2, Run cfg dtCount st1 = Some st2 /\
              allocated (Z.to_nat (N cfg)) (Z.to_nat dtCount) st2.
Proof.
  intros Hal Hin.
  pose proof (allocate_allocated cfg dtCount st0 Hal) as Ha0.
  pose proof (initialiseStates_allocated cfg _ _ sx sy sz st0 st1 Ha0 Hin) as Ha1.
  destruct (Run_is_Some cfg dtCount st1) as [st2 Hr].
  { destruct Ha1 as (_ & _ & _ & _ & _ & _ & _ & ->). lia. }
  exists st2. split; [done|]. by eapply (frames_allocated cfg).
Qed.

End StartUp.

(** ** [initialiseStates] *)

Section Initialise.

Context {F : Type} `{Float64 F}.
Variable cfg : Config F.

(** The three shuffled coordinate lists [x], [y], [z] that
    [initialiseStates] builds before its loop. *)
Definition coordinates (shuffle_x shuffle_y shuffle_z : list Z -> list Z)
  : option (list Z * list Z * list Z) :=
  let GenCubeCentre := fdiv (fsub (SpaceLength cfg) (LargeRadius cfg)) (fofZ 4) in
  let half := fdiv (GenCubeLength cfg) (fofZ 2) in
  let mid := fdiv (SpaceLength cfg) (fofZ 2) in
  x0 ← ftrunc (fsub GenCubeCentre half); x1 ← ftrunc (fadd GenCubeCentre half);
  y0 ← ftrunc (fsub mid half); y1 ← ftrunc (fadd mid half);
  z0 ← ftrunc (fsub mid half); z1 ← ftrunc (fadd mid half);
  Some (shuffle_x (zrange x0 x1), shuffle_y (zrange y0 y1), shuffle_z (zrange z0 z1)).

Lemma initialiseStates_coordinates (sx sy sz : list Z -> list Z) (st : State F) :
  initialiseStates cfg sx sy sz st =
  coordinates sx sy sz ≫= fun '(x, y, z) =>
    fold_left (place cfg x y z) (range 0 (N cfg - 1)) (Some st).
Proof.
  unfold initialiseStates, coordinates.
  repeat match goal with |- context [ftrunc ?a] =>
    destruct (ftrunc a); cbn [mbind option_bind]; [|reflexivity] end.
  reflexivity.
Qed.

(** The column [initialiseStates] stores as the position of body [i]. *)
Definition placed (x y z : list Z) (i : nat) : option (vec F) :=
  xi ← x !! i; yi ← y !! i; zi ← z !! i; Some (fofZ xi, fofZ yi, fofZ zi).

Lemma place_None (x y z : list Z) (i : nat) : place cfg x y z None i = None.
Proof. done. Qed.

Lemma places_None (x y z : list Z) (ks : list nat) :
  fold_left (place cfg x y z) ks None = None.
Proof. induction ks as [|k ks IH]; [done|]. cbn [fold_left]. by rewrite place_None. Qed.

Lemma place_Some (x y z : list Z) (st st' : State F) (i : nat) :
  place cfg x y z (Some st) i = Some st' ->
  exists v, placed x y z i = Some v /\
    st' = mkState (isInContact st) (hasFallen st) (AccRad st) (AccInt st)
            (<[i:=v]> (Loc st))
            (<[i:=(fofZ 0, Vel0 cfg, fofZ 0)]> (VelRad st))
            (<[i:=(fofZ 0, fofZ 0, fofZ 0)]> (VelInt st)) (TimeSeries st).
Proof.
  unfold place, placed. cbn [mbind option_bind].
  destruct (x !! i) as [xi|]; [|done]. destruct (y !! i) as [yi|]; [|done].
  destruct (z !! i) as [zi|]; [|done]. cbn [option_bind]. intros [= <-].
  eexists. split; [done|]. done.
Qed.

Lemma placed_is_Some (x y z : list Z) (i : nat) :
  is_Some (placed x y z i) <-> i < length x /\ i < length y /\ i < length z.
Proof.
  unfold placed. rewrite <- !lookup_lt_is_Some. split.
  - intros [v Hv]. destruct (x !! i); [|done]. destruct (y !! i); [|done].
    destruct (z !! i); [|done]. eauto.
  - intros ([xi ->] & [yi ->] & [zi ->]). by eexists.
Qed.

(** What the loop over [ks] has done when it returns. *)
Lemma places_inv (x y z : list Z) (ks : list nat) (st st' : State F) :
  fold_left (place cfg x y z) ks (Some st) = Some st' ->
  (isInContact st' = isInContact st /\ hasFallen st' = hasFallen st /\
   AccRad st' = AccRad st /\ AccInt st' = AccInt st /\
   TimeSeries st' = TimeSeries st) /\
  (length (Loc st') = length (Loc st) /\ length (VelRad st') = length (VelRad st) /\
   length (VelInt st') = length (VelInt st)) /\
  (forall i, i ∉ ks -> Loc st' !! i = Loc st !! i /\
     VelRad st' !! i = VelRad st !! i /\ VelInt st' !! i = VelInt st !! i) /\
  (forall i, i ∈ ks -> exists v, placed x y z i = Some v /\
     (i < length (Loc st) -> Loc st' !! i = Some v) /\
     (i < length (VelRad st) -> VelRad st' !! i = Some (fofZ 0, Vel0 cfg, fofZ 0)) /\
     (i < length (VelInt st) -> VelInt st' !! i = Some (fofZ 0, fofZ 0, fofZ 0))).
Proof.
  revert st'. induction ks as [|k ks IH] using rev_ind; intros st' Hfold.
  - injection Hfold as <-. split; [done|]. split; [done|]. split; [done|].
    intros i Hi. by apply elem_of_nil in Hi.
  - rewrite fold_left_app in Hfold. cbn [fold_left] in Hfold.
    destruct (fold_left (place cfg x y z) ks (Some st)) as [s|] eqn:Hs; [|done].
    destruct (IH s eq_refl) as ((H1 & H2 & H3 & H4 & H5) & (L1 & L2 & L3) & Hout & Hin).
    apply place_Some in Hfold as (v & Hv & ->). projections.
    rewrite !length_insert.
    split; [done|]. split; [done|]. split.
    + intros i Hi.
      assert (k ≠ i) as Hne by (intros ->; apply Hi, elem_of_app; right; left).
      assert (i ∉ ks) as Hi' by (intros Hin'; apply Hi, elem_of_app; by left).
      rewrite !list_lookup_insert_ne by done. by apply Hout.
    + intros i Hi. destruct (decide (i = k)) as [->|Hne].
      * exists v. split; [done|].
        split; [|split]; intros Hlt; apply list_lookup_insert_eq.
        -- exact (eq_ind_r (fun m => k < m) Hlt L1).
        -- exact (eq_ind_r (fun m => k < m) Hlt L2).
        -- exact (eq_ind_r (fun m => k < m) Hlt L3).
      * apply elem_of_app in Hi as [Hi|Hi];
          [|apply list_elem_of_singleton in Hi; done].
        destruct (Hin i Hi) as (w & Hw & W1 & W2 & W3). exists w. split; [done|].
        rewrite !list_lookup_insert_ne by done. done.
Qed.

Lemma places_is_Some (x y z : list Z) (ks : list nat) (st : State F) :
  is_Some (fold_left (place cfg x y z) ks (Some st)) <->
  forall i, i ∈ ks -> i < length x /\ i < length y /\ i < length z.
Proof.
  induction ks as [|k ks IH] using rev_ind.
  - split; [|by eexists]. intros _ i Hi. by apply elem_of_nil in Hi.
  - rewrite fold_left_app. cbn [fold_left]. split.
    + intros [st' Hst'].
      destruct (fold_left (place cfg x y z) ks (Some st)) as [s|] eqn:Hs; [|done].
      apply place_Some in Hst' as (v & Hv & _).
      intros i Hi. apply elem_of_app in Hi as [Hi|Hi].
      * apply IH; [by eexists|done].
      * apply list_elem_of_singleton in Hi as ->. apply placed_is_Some. by eexists.
    + intros Hall.
      destruct (proj2 IH) as [s Hs].
      { intros i Hi. apply Hall, elem_of_app. by left. }
      rewrite Hs. unfold place. cbn [mbind option_bind].
      destruct (proj2 (placed_is_Some x y z k)) as [v Hv].
      { apply Hall, elem_of_app. right. left. }
      unfold placed in Hv. destruct (x !! k); [|done]. destruct (y !! k); [|done].
      destruct (z !! k); [|done]. cbn. by eexists.
Qed.

End Initialise.

Section InitialiseTheorems.

Context {F : Type} `{Float64 F}.
Variable cfg : Config F.

Lemma elem_of_range (n : Z) (i : nat) : i ∈ range 0 n <-> (Z.of_nat i < n)%Z.
Proof. rewrite range_0, elem_of_seq. lia. Qed.

(** [initialiseStates] places the bodies [0 .. N-2] and nothing else: body
    [i] of the loop gets the position [(x[i], y[i], z[i])], the cloud
    velocity [(0, Vel0, 0)] and a zero internal velocity; the body of index
    [N-1] (and any slot above) keeps what it held, and the flags, the
    accelerations and [TimeSeries] are not written. *)
Theorem initialiseStates_places (n f : nat) (sx sy sz : list Z -> list Z)
    (st st' : State F) :
  allocated n f st -> initialiseStates cfg sx sy sz st = Some st' ->
  exists x y z, coordinates cfg sx sy sz = Some (x, y, z) /\
    (forall i, (Z.of_nat i < N cfg - 1)%Z -> i < n ->
       exists v, placed x y z i = Some v /\ Loc st' !! i = Some v /\
         VelRad st' !! i = Some (fofZ 0, Vel0 cfg, fofZ 0) /\
         VelInt st' !! i = Some (fofZ 0, fofZ 0, fofZ 0)) /\
    (forall i, (N cfg - 1 <= Z.of_nat i)%Z -> slot st' i = slot st i) /\
    isInContact st' = isInContact st /\ hasFallen st' = hasFallen st /\
    AccRad st' = AccRad st /\ AccInt st' = AccInt st /\
    TimeSeries st' = TimeSeries st.
Proof.
  intros (_ & _ & _ & _ & A5 & A6 & A7 & _) Hinit.
  rewrite initialiseStates_coordinates in Hinit.
  destruct (coordinates cfg sx sy sz) as [[[x y] z]|]; [|done].
  cbn [mbind option_bind] in Hinit.
  destruct (places_inv cfg x y z _ st st' Hinit)
    as ((H1 & H2 & H3 & H4 & H5) & _ & Hout & Hin).
  exists x, y, z. split; [done|]. split; [|split].
  - intros i Hi Hn. destruct (Hin i) as (v & Hv & W1 & W2 & W3).
    { by apply elem_of_range. }
    exists v. split; [done|]. split; [apply W1; by rewrite A5|].
    split; [apply W2; by rewrite A6|apply W3; by rewrite A7].
  - intros i Hi. destruct (Hout i) as (O1 & O2 & O3).
    { rewrite elem_of_range. lia. }
    unfold slot. by rewrite H1, H2, H3, H4, O1, O2, O3.
  - done.
Qed.

(** [initialiseStates] fails exactly when [int(...)] raises on a bound of
    the generation cube, or when the loop indexes past the end of a
    coordinate list (IndexError): some list has fewer than [N-1] entries.
    This is the source's "the particle count must be smaller than the cube
    length". *)
Theorem initialiseStates_fails_iff (sx sy sz : list Z -> list Z) (st : State F) :
  initialiseStates cfg sx sy sz st = None <->
  match coordinates cfg sx sy sz with
  | None => True
  | Some (x, y, z) =>
      length x < Z.to_nat (N cfg - 1) \/ length y < Z.to_nat (N cfg - 1) \/
      length z < Z.to_nat (N cfg - 1)
  end.
Proof.
  rewrite initialiseStates_coordinates.
  destruct (coordinates cfg sx sy sz) as [[[x y] z]|]; [|done].
  cbn [mbind option_bind].
  pose proof (places_is_Some cfg x y z (range 0 (N cfg - 1)) st) as Hs.
  split.
  - intros Hnone.
    destruct (decide (Z.to_nat (N cfg - 1) <= length x /\
                      Z.to_nat (N cfg - 1) <= length y /\
                      Z.to_nat (N cfg - 1) <= length z)) as [Hle|Hnle]; [|lia].
    destruct (proj2 Hs) as [s Hsome]; [|congruence].
    intros i Hi. apply elem_of_range in Hi. lia.
  - intros Hshort.
    destruct (fold_left _ _ _) as [s|] eqn:Hfold; [|done].
    assert (Z.to_nat (N cfg - 1) - 1 ∈ range 0 (N cfg - 1)) as Hin
      by (apply elem_of_range; lia).
    destruct (proj1 Hs (ltac:(by eexists)) _ Hin) as (? & ? & ?). lia.
Qed.

Lemma zrange_NoDup (a b : Z) : NoDup (zrange a b).
Proof.
  unfold zrange.
  change (NoDup ((fun k => (a + Z.of_nat k)%Z) <$> seq 0 (Z.to_nat (b - a)))).
  apply NoDup_fmap_2; [|apply NoDup_seq]. intros k1 k2 Hk. lia.
Qed.

Lemma NoDup_lookup_ne {A} (l : list A) (i j : nat) (a b : A) :
  NoDup l -> i ≠ j -> l !! i = Some a -> l !! j = Some b -> a ≠ b.
Proof.
  intros Hnd Hij Hi Hj ->. apply Hij. by eapply NoDup_lookup.
Qed.

(** The conversion of the integers of [l] to floats keeps them apart.  In
    exact arithmetic it always does; in binary64 it does as long as the
    integers are below 2^53. *)
Definition kept_apart (l : list Z) : Prop :=
  forall a b, a ∈ l -> b ∈ l -> fofZ a = (fofZ b : F) -> a = b.

(** With shuffles that are permutations (as [random.shuffle] is), no two
    initialised bodies share an x value, a y value or a z value: the
    positions stored for two different bodies of the loop are built from
    [x[i], y[i], z[i]] and [x[j], y[j], z[j]] and differ in each of the three
    coordinates, provided the conversion to floats keeps the integers of
    each coordinate list apart. *)
Theorem initialiseStates_distinct_coordinates (n f : nat)
    (sx sy sz : list Z -> list Z) (st st' : State F) (x y z : list Z) (i j : nat) :
  (forall l, sx l ≡ₚ l) -> (forall l, sy l ≡ₚ l) -> (forall l, sz l ≡ₚ l) ->
  allocated n f st -> initialiseStates cfg sx sy sz st = Some st' ->
  coordinates cfg sx sy sz = Some (x, y, z) ->
  kept_apart x -> kept_apart y -> kept_apart z ->
  (Z.of_nat i < N cfg - 1)%Z -> (Z.of_nat j < N cfg - 1)%Z -> i < n -> j < n ->
  i ≠ j ->
  exists xi yi zi xj yj zj,
    (x !! i = Some xi /\ y !! i = Some yi /\ z !! i = Some zi) /\
    (x !! j = Some xj /\ y !! j = Some yj /\ z !! j = Some zj) /\
    Loc st' !! i = Some (fofZ xi, fofZ yi, fofZ zi) /\
    Loc st' !! j = Some (fofZ xj, fofZ yj, fofZ zj) /\
    fofZ xi ≠ (fofZ xj : F) /\ fofZ yi ≠ (fofZ yj : F) /\ fofZ zi ≠ (fofZ zj : F).
Proof.
  intros Px Py Pz (_ & _ & _ & _ & A5 & _) Hinit Hc Kx Ky Kz Hi Hj Hin Hjn Hij.
  rewrite initialiseStates_coordinates, Hc in Hinit.
  cbn [mbind option_bind] in Hinit.
  destruct (places_inv cfg x y z _ st st' Hinit) as (_ & _ & _ & Hplaced).
  destruct (Hplaced i) as (vi & Hvi & Wi & _); [by apply elem_of_range|].
  destruct (Hplaced j) as (vj & Hvj & Wj & _); [by apply elem_of_range|].
  unfold placed in Hvi, Hvj.
  destruct (x !! i) as [xi|] eqn:Exi; [|done]. destruct (y !! i) as [yi|] eqn:Eyi; [|done].
  destruct (z !! i) as [zi|] eqn:Ezi; [|done]. injection Hvi as <-.
  destruct (x !! j) as [xj|] eqn:Exj; [|done]. destruct (y !! j) as [yj|] eqn:Eyj; [|done].
  destruct (z !! j) as [zj|] eqn:Ezj; [|done]. injection Hvj as <-.
  exists xi, yi, zi, xj, yj, zj.
  split; [done|]. split; [done|].
  split; [apply Wi; exact (eq_ind_r (fun m => i < m) Hin A5)|].
  split; [apply Wj; exact (eq_ind_r (fun m => j < m) Hjn A5)|].
  assert (NoDup x /\ NoDup y /\ NoDup z) as (Nx & Ny & Nz).
  { unfold coordinates in Hc.
    repeat match type of Hc with context [ftrunc ?a] =>
      destruct (ftrunc a); cbn [mbind option_bind] in Hc; [|discriminate] end.
    injection Hc as <- <- <-.
    rewrite (Px _), (Py _), (Pz _). split; [|split]; apply zrange_NoDup. }
  split; [|split]; intros Heq.
  - apply (NoDup_lookup_ne x i j xi xj Nx Hij Exi Exj).
    apply Kx; [by eapply list_elem_of_lookup_2..|done].
  - apply (NoDup_lookup_ne y i j yi yj Ny Hij Eyi Eyj).
    apply Ky; [by eapply list_elem_of_lookup_2..|done].
  - apply (NoDup_lookup_ne z i j zi zj Nz Hij Ezi Ezj).
    apply Kz; [by eapply list_elem_of_lookup_2..|done].
Qed.

End InitialiseTheorems.

(** ** The force pass [findCurrentAcc] *)

Section ForcePassProperties.

Context {F : Type} `{Float64 F}.
Variable cfg : Config F.

(** [findCurrentAcc(i)] writes the two flags and the two accelerations of
    body [i] and nothing else: positions, velocities and [TimeSeries] are
    left as they are, no slot of another body changes, and no array changes
    its size. *)
Theorem findCurrentAcc_footprint (i : nat) (st : State F) :
  Loc (findCurrentAcc cfg i st) = Loc st /\
  VelRad (findCurrentAcc cfg i st) = VelRad st /\
  VelInt (findCurrentAcc cfg i st) = VelInt st /\
  TimeSeries (findCurrentAcc cfg i st) = TimeSeries st /\
  (forall k, k ≠ i -> slot (findCurrentAcc cfg i st) k = slot st k) /\
  (forall n f, allocated n f st -> allocated n f (findCurrentAcc cfg i st)).
Proof.
  rewrite findCurrentAcc_eq. projections. repeat (split; [done|]). split.
  - intros k Hk. unfold slot. projections.
    by rewrite !list_lookup_insert_ne by done.
  - intros n f. unfold allocated. projections. by rewrite !length_insert.
Qed.

(** The force pass reads nothing but the positions, so calling it twice in
    a row on the same body is the same as calling it once: the second call
    recomputes and stores the very same flags and accelerations. *)
Theorem findCurrentAcc_idempotent (i : nat) (st : State F) :
  findCurrentAcc cfg i (findCurrentAcc cfg i st) = findCurrentAcc cfg i st.
Proof.
  rewrite (findCurrentAcc_eq cfg i (findCurrentAcc cfg i st)).
  rewrite (findCurrentAcc_eq cfg i st). projections.
  rewrite !list_insert_insert_eq. reflexivity.
Qed.

End ForcePassProperties.

(** ** The force formulas in exact arithmetic *)

Section ExactForces.

Variable cfg : Config R.

Local Open Scope R_scope.

Lemma norm_nonneg (v : vec R) : 0 <= norm v.
Proof. destruct v as [[x y] z]. unfold norm. real_ops. apply sqrt_pos. Qed.

Lemma cube_le_iff (a b : R) : 0 <= a -> 0 <= b -> (a * a * a <= b * b * b <-> a <= b).
Proof.
  intros Ha Hb.
  assert (b * b * b - a * a * a = (b - a) * (a * a + a * b + b * b)) as Hfac by ring.
  assert (0 <= a * b) as Hab by (by apply Rmult_le_pos).
  assert (0 <= a * a) as Haa by (by apply Rmult_le_pos).
  assert (0 <= b * b) as Hbb by (by apply Rmult_le_pos).
  split.
  - intros Hc. destruct (Rle_or_lt a b) as [|Hlt]; [done|]. exfalso.
    assert (0 < a * a) as Haa' by (apply Rmult_lt_0_compat; lra).
    assert (0 < (a - b) * (a * a + a * b + b * b)) as Hpos
      by (apply Rmult_lt_0_compat; lra).
    lra.
  - intros Hle.
    assert (0 <= (b - a) * (a * a + a * b + b * b)) as Hpos
      by (apply Rmult_le_pos; lra).
    lra.
Qed.

(** The program compares cubes of distances; that is the same as comparing
    the distances.  For a non-negative cube length and body diameter, a body
    passes the test [Abs_R3 >= LargeRadius**3] exactly when its distance to
    the central object is at least [LargeRadius], and two bodies pass
    [Abs_r3 < SmallDiam**3] exactly when they are less than [SmallDiam]
    apart. *)
Theorem cube_tests_compare_distances (st : State R) (i j : nat) :
  0 <= GenCubeLength cfg -> 0 <= SmallDiam cfg ->
  (outside cfg st i = true <-> LargeRadius cfg <= norm (R_of cfg st i)) /\
  (touching cfg st i j = true <-> norm (r_of st i j) < SmallDiam cfg).
Proof.
  intros HL HD.
  assert (0 <= LargeRadius cfg) as HLR by (unfold LargeRadius; real_ops; lra).
  split.
  - unfold outside, Abs_R3_of. pose proof (norm_nonneg (R_of cfg st i)) as Hn.
    rewrite <- (cube_le_iff _ _ HLR Hn). unfold pow3. real_ops. unfold Rgeb.
    destruct (Rge_dec _ _); split; try done; lra.
  - unfold touching, Abs_r3_of. pose proof (norm_nonneg (r_of st i j)) as Hn.
    unfold pow3. real_ops. unfold Rltb.
    pose proof (cube_le_iff _ _ HD Hn) as Hc.
    destruct (Rlt_dec _ _) as [Hlt|Hnlt]; split; try done.
    + intros _. apply Rnot_le_lt. intros Hle. apply Hc in Hle. lra.
    + intros Hlt. exfalso. apply Hnlt. apply Rnot_le_lt. intros Hle.
      apply Hc in Hle. lra.
Qed.

(** The rescaling by 0.001 changes nothing in exact arithmetic: for a body
    outside the central radius (with a positive cube length) the stored
    central acceleration is [GM * R / |R|^3]. *)
Theorem central_acceleration_is_exact (n f i : nat) (st : State R) :
  allocated n f st -> (i < n)%nat -> 0 < GenCubeLength cfg ->
  outside cfg st i = true ->
  AccRad (findCurrentAcc cfg i st) !! i =
  Some (smulv (GM cfg) (vdivs (R_of cfg st i) (Abs_R3_of cfg st i))).
Proof.
  intros (_ & _ & H3 & _) Hi HL Ho. rewrite findCurrentAcc_eq. cbn [AccRad].
  rewrite list_lookup_insert_eq by lia. unfold AccRad_value. rewrite Ho. f_equal.
  assert (0 < Abs_R3_of cfg st i) as Ha.
  { unfold outside in Ho. apply Rgeb_true in Ho.
    pose proof (cube_pos _ (LargeRadius_pos cfg HL)). unfold pow3 in Ho.
    real_ops. lra. }
  destruct (R_of cfg st i) as [[x y] z]. real_ops.
  f_equal; [f_equal|]; field; lra.
Qed.

(** Newton's third law, term by term: in exact arithmetic the term that
    body [j] adds to the accumulator of body [i] is the opposite of the term
    that [i] adds to the accumulator of [j], and the contact test is
    symmetric. *)
Theorem pair_terms_are_opposite (st : State R) (i j : nat) :
  pair_term st i j = smulv (-1) (pair_term st j i) /\
  touching cfg st i j = touching cfg st j i.
Proof.
  assert (Abs_r3_of st i j = Abs_r3_of st j i) as Ha.
  { unfold Abs_r3_of, r_of, norm.
    destruct (Loc st !!! i) as [[a b] c], (Loc st !!! j) as [[x y] z].
    real_ops. f_equal; [f_equal|]; f_equal; ring. }
  split.
  - unfold pair_term. rewrite Ha. unfold r_of.
    destruct (Loc st !!! i) as [[a b] c], (Loc st !!! j) as [[x y] z].
    real_ops. unfold Rdiv. f_equal; [f_equal|]; ring.
  - unfold touching. by rewrite Ha.
Qed.

End ExactForces.

(** ** Binary64: a NaN position *)

Section NaNPositions.

Lemma is_nan_spec (x : float) : is_nan x = true -> Prim2SF x = S754_nan.
Proof.
  unfold is_nan. rewrite FloatAxioms.eqb_spec. unfold SFeqb, SFcompare.
  destruct (Prim2SF x) as [s|s| |s m e]; try done.
  - by destruct s.
  - destruct s; rewrite Z.compare_refl, Pos.compare_cont_refl; done.
Qed.

Lemma sub_nan_r (x y : float) :
  Prim2SF y = S754_nan -> Prim2SF (x - y) = S754_nan.
Proof.
  intros Hy. rewrite sub_spec, Hy. unfold SF64sub, SFsub.
  by destruct (Prim2SF x).
Qed.

Lemma mul_nan_l (x y : float) :
  Prim2SF x = S754_nan -> Prim2SF (x * y) = S754_nan.
Proof. intros Hx. rewrite mul_spec, Hx. reflexivity. Qed.

Lemma add_nan_l (x y : float) :
  Prim2SF x = S754_nan -> Prim2SF (x + y) = S754_nan.
Proof. intros Hx. rewrite add_spec, Hx. reflexivity. Qed.

Lemma add_nan_r (x y : float) :
  Prim2SF y = S754_nan -> Prim2SF (x + y) = S754_nan.
Proof.
  intros Hy. rewrite add_spec, Hy. unfold SF64add, SFadd.
  by destruct (Prim2SF x).
Qed.

Lemma sqrt_nan (x : float) :
  Prim2SF x = S754_nan -> Prim2SF (PrimFloat.sqrt x) = S754_nan.
Proof. intros Hx. rewrite sqrt_spec, Hx. reflexivity. Qed.

Lemma leb_nan_r (c x : float) : Prim2SF x = S754_nan -> PrimFloat.leb c x = false.
Proof.
  intros Hx. rewrite leb_spec, Hx. unfold SFleb, SFcompare.
  by destruct (Prim2SF c).
Qed.

(** Some coordinate of the column is a NaN. *)
Definition has_nan (v : vec float) : bool :=
  let '(x, y, z) := v in is_nan x || is_nan y || is_nan z.

Lemma norm_nan (a v : vec float) :
  has_nan v = true -> Prim2SF (pow3 (norm (vsub a v))) = S754_nan.
Proof.
  destruct a as [[a b] c], v as [[x y] z]. unfold has_nan. intros Hv.
  unfold pow3, norm, vsub, vmap2. cbn [fmul fadd fsub fsqrt float_ops].
  do 2 apply mul_nan_l. apply sqrt_nan.
  apply orb_true_iff in Hv as [Hv|Hz].
  - apply add_nan_l. apply orb_true_iff in Hv as [Hx|Hy].
    + apply add_nan_l, mul_nan_l, sub_nan_r. by apply is_nan_spec.
    + apply add_nan_r, mul_nan_l, sub_nan_r. by apply is_nan_spec.
  - apply add_nan_r, mul_nan_l, sub_nan_r. by apply is_nan_spec.
Qed.

Lemma nan_is_inside (cfg : Config float) (st : State float) (i : nat) :
  has_nan (Loc st !!! i) = true -> outside cfg st i = false.
Proof.
  intros Hv. unfold outside, Abs_R3_of, R_of. cbn [fgeb float_ops].
  apply leb_nan_r. by apply norm_nan.
Qed.

(** No check guards against a NaN.  If a coordinate of body [i] is a NaN,
    the test [Abs_R3 >= LargeRadius**3] is false, so [findCurrentAcc] takes
    the body for one that has fallen onto the central object: it is flagged
    settled, with zero accelerations and no contact, whatever the
    configuration and wherever the other bodies are. *)
Theorem nan_position_is_settled (cfg : Config float) (n f i : nat) (st : State float) :
  allocated n f st -> i < n -> has_nan (Loc st !!! i) = true ->
  slot (findCurrentAcc cfg i st) i =
  (Some false, Some true, Some vzero, Some vzero,
   Loc st !! i, VelRad st !! i, VelInt st !! i).
Proof.
  intros (H1 & H2 & H3 & H4 & _) Hi Hv.
  rewrite findCurrentAcc_eq. unfold slot, contact_value, AccRad_value, AccInt_value.
  projections. rewrite (nan_is_inside cfg st i Hv).
  rewrite !list_lookup_insert_eq by lia. done.
Qed.

End NaNPositions.

(** ** The integrator *)

Section IntegratorProperties.

Context {F : Type} `{Float64 F}.
Variable cfg : Config F.

(** [findNextLoc(i)] followed by [findNextVel(i)] writes the position and
    the two velocities of body [i] and nothing else: the flags, the
    accelerations and [TimeSeries] are left as they are, and no slot of
    another body changes. *)
Theorem integrator_footprint (i : nat) (st : State F) :
  let st' := findNextVel cfg i (findNextLoc cfg i st) in
  isInContact st' = isInContact st /\ hasFallen st' = hasFallen st /\
  AccRad st' = AccRad st /\ AccInt st' = AccInt st /\
  TimeSeries st' = TimeSeries st /\
  forall k, k ≠ i -> slot st' k = slot st k.
Proof.
  intros st'. subst st'.
  destruct (findNextVel_shape cfg i (findNextLoc cfg i st)) as (v & -> & _).
  rewrite findNextLoc_eq. projections. repeat (split; [done|]).
  intros k Hk. unfold slot. projections. by rewrite !list_lookup_insert_ne by done.
Qed.

End IntegratorProperties.

Section SettlingExact.

Variable cfg : Config R.

Local Open Scope R_scope.

(** In exact arithmetic the frame in which a body settles displaces it by
    exactly [(VelRad + VelInt) * dt] and leaves both velocities as they
    were: a settled body keeps its last velocity for the rest of the run,
    it is only never integrated again. *)
Theorem settling_frame_is_exact (f i t : nat) (ts : list nat) (st st' : State R) :
  allocated (Z.to_nat (N cfg)) f st -> (Z.of_nat i < N cfg - 1)%Z ->
  hasFallen st !! i = Some false -> outside cfg st i = false ->
  frames cfg (t :: ts) st = Some st' ->
  Loc st' !! i =
    Some (vadd (Loc st !!! i)
               (vmuls (vadd (VelRad st !!! i) (VelInt st !!! i)) (dt cfg))) /\
  VelRad st' !! i = VelRad st !! i /\ VelInt st' !! i = VelInt st !! i.
Proof.
  intros Ha Hi Hf Ho Hfr. rewrite frames_cons in Hfr.
  destruct (frame cfg st t) as [s|] eqn:Hs; [|done]. cbn in Hfr.
  assert (slot s i = settled_slot cfg st i) as Hslot.
  { rewrite (frame_slot cfg _ _ _ i Hs). by apply (body_loop_settles cfg f). }
  assert (slot st' i = settled_slot cfg st i) as Hslot'.
  { rewrite (frames_slot_fallen cfg ts i s st'); [done| |done].
    unfold slot, settled_slot in Hslot. by injection Hslot. }
  unfold slot, settled_slot in Hslot'. injection Hslot' as _ _ _ _ HL HR HI.
  destruct Ha as (_ & _ & _ & _ & A5 & A6 & A7 & _).
  assert (i < length (Loc st))%nat as L5 by lia.
  assert (i < length (VelRad st))%nat as L6 by lia.
  assert (i < length (VelInt st))%nat as L7 by lia.
  rewrite HL, HR, HI.
  rewrite (list_lookup_lookup_total_lt (VelRad st) i L6).
  rewrite (list_lookup_lookup_total_lt (VelInt st) i L7).
  destruct (Loc st !!! i) as [[a b] c], (VelRad st !!! i) as [[u v] w],
    (VelInt st !!! i) as [[p q] r].
  real_ops. split; [|split]; f_equal; (f_equal; [f_equal|]); ring.
Qed.

End SettlingExact.

(** ** The further properties on concrete states *)

(** Bodies 0 and 1 (all the bodies of the loop) settled. *)
Definition st_all_fallen : State float :=
  bodies3 [true; true; false] [fv 1760 1750 1750; fv 1765 1750 1750; vzero].

(** Body 0 with a NaN coordinate. *)
Definition st_nan : State float :=
  bodies3 [false; false; false]
          [(nan, fofZ 1750, fofZ 1750); fv 1950 1750 1750; vzero].

Lemma Run_keeps_sizes_run :
  allocated 3 3 st_two_active /\
  exists st', Run cfg3 3 st_two_active = Some st' /\ allocated 3 3 st'.
Proof.
  split; [is_allocated|]. eexists. split; [vm_compute; reflexivity|].
  refine (Run_keeps_sizes cfg3 3 3 3 st_two_active _ _ _).
  - is_allocated.
  - vm_compute; reflexivity.
Defined.

Lemma Run_one_more_frame_run :
  (1 <= 2)%Z /\
  Run cfg3 (2 + 1) st_two_active =
  Run cfg3 2 st_two_active ≫= fun s => frame cfg3 s (Z.to_nat (2 - 1)).
Proof.
  split; [lia|]. refine (Run_one_more_frame cfg3 2 st_two_active _). lia.
Defined.

Lemma Run_keeps_frames_run :
  exists st', Run cfg3 3 st_two_active = Some st' /\ (Z.of_nat 0 < 3 - 1)%Z /\
    exists s, Run cfg3 (Z.of_nat 0 + 2) st_two_active = Some s /\
              TimeSeries st' !! 0 = Some (Loc s).
Proof.
  eexists. split; [vm_compute; reflexivity|]. split; [reflexivity|].
  refine (Run_keeps_frames cfg3 3 0 st_two_active _ _ _).
  - vm_compute; reflexivity.
  - reflexivity.
Defined.

Lemma Run_never_steps_last_body_run :
  (N cfg3 - 1 <= Z.of_nat 2)%Z /\
  exists st', Run cfg3 3 st_two_active = Some st' /\
    slot st' 2 = slot st_two_active 2.
Proof.
  split; [vm_compute; discriminate|]. eexists. split; [vm_compute; reflexivity|].
  refine (Run_never_steps_last_body cfg3 3 2 st_two_active _ _ _).
  - vm_compute; discriminate.
  - vm_compute; reflexivity.
Defined.

Lemma st_all_fallen_all_fallen : all_fallen cfg3 st_all_fallen.
Proof.
  intros i Hi. change (N cfg3) with 3%Z in Hi.
  destruct i as [|[|i]]; [reflexivity|reflexivity|lia].
Defined.

Lemma Run_after_all_fallen_run :
  exists st', Run cfg3 3 st_all_fallen = Some st' /\
    body_loop cfg3 st_all_fallen = st_all_fallen /\
    Loc st' = Loc st_all_fallen /\
    TimeSeries st' !! 1 = Some (Loc st_all_fallen).
Proof.
  destruct (Run cfg3 3 st_all_fallen) as [st'|] eqn:Hr; [|vm_compute in Hr; discriminate Hr].
  exists st'. split; [reflexivity|].
  destruct (Run_after_all_fallen cfg3 3 st_all_fallen st' st_all_fallen_all_fallen Hr)
    as (Hloop & (_ & _ & _ & _ & HL & _) & Hts).
  split; [exact Hloop|]. split; [exact HL|]. apply (Hts 1). reflexivity.
Defined.

Lemma start_up_then_Run_run :
  exists st0 st1,
    allocate cfg3 3 = Some st0 /\
    initialiseStates cfg3 unshuffled unshuffled unshuffled st0 = Some st1 /\
    exists st2, Run cfg3 3 st1 = Some st2 /\
                allocated (Z.to_nat (N cfg3)) (Z.to_nat 3) st2.
Proof.
  do 2 eexists. split; [vm_compute; reflexivity|]. split; [vm_compute; reflexivity|].
  refine (start_up_then_Run cfg3 3 unshuffled unshuffled unshuffled _ _ _ _);
    vm_compute; reflexivity.
Defined.

Lemma initialiseStates_places_run :
  exists st0 st1,
    allocate cfg3 3 = Some st0 /\ allocated 3 3 st0 /\
    initialiseStates cfg3 reverse reverse reverse st0 = Some st1 /\
    exists x y z, coordinates cfg3 reverse reverse reverse = Some (x, y, z) /\
      (exists v, placed x y z 1 = Some v /\ Loc st1 !! 1 = Some v) /\
      slot st1 2 = slot st0 2.
Proof.
  destruct (allocate cfg3 3) as [st0|] eqn:H0; [|vm_compute in H0; discriminate H0].
  pose proof (allocate_allocated cfg3 3 st0 H0) as Ha.
  destruct (initialiseStates cfg3 reverse reverse reverse st0) as [st1|] eqn:H1.
  2: { injection H0 as <-. vm_compute in H1. discriminate H1. }
  exists st0, st1. split; [reflexivity|]. split; [exact Ha|]. split; [exact H1|].
  destruct (initialiseStates_places cfg3 3 3 reverse reverse reverse st0 st1 Ha H1)
    as (x & y & z & Hc & Hplaced & Hlast & _).
  exists x, y, z. split; [exact Hc|]. split.
  - destruct (Hplaced 1) as (v & Hv & HL & _); [reflexivity|lia|].
    exists v. split; [exact Hv|exact HL].
  - apply Hlast. vm_compute; discriminate.
Defined.

(** In binary64 an integer that [int(float(a))] gives back is kept apart
    from every other such integer. *)
Definition survives (a : Z) : bool :=
  match float_trunc (fofZ a) with Some b => Z.eqb a b | None => false end.

Lemma survivors_kept_apart (l : list Z) :
  forallb survives l = true -> kept_apart (F := float) l.
Proof.
  intros Hall a b Ha Hb Heq.
  rewrite forallb_forall in Hall.
  pose proof (Hall a (proj1 (list_elem_of_In _ _) Ha)) as Sa.
  pose proof (Hall b (proj1 (list_elem_of_In _ _) Hb)) as Sb.
  unfold survives in Sa, Sb. rewrite Heq in Sa.
  destruct (float_trunc (fofZ b)) as [c|]; [|discriminate].
  apply Z.eqb_eq in Sa, Sb. congruence.
Qed.

(** The program's own constants in binary64. *)
Definition cfg500 : Config float := source_config.

(** With the program's own constants: 500 bodies, the x values 612..1111
    and the y and z values 1500..1999, here shuffled by reversal. *)
Lemma initialiseStates_distinct_coordinates_run :
  exists st0 st1,
    allocate cfg500 2 = Some st0 /\
    initialiseStates cfg500 reverse reverse reverse st0 = Some st1 /\
    coordinates cfg500 reverse reverse reverse =
      Some (reverse (zrange 612 1112), reverse (zrange 1500 2000),
            reverse (zrange 1500 2000)) /\
    exists xi yi zi xj yj zj,
      (reverse (zrange 612 1112) !! 0 = Some xi /\
       reverse (zrange 1500 2000) !! 0 = Some yi /\
       reverse (zrange 1500 2000) !! 0 = Some zi) /\
      (reverse (zrange 612 1112) !! 1 = Some xj /\
       reverse (zrange 1500 2000) !! 1 = Some yj /\
       reverse (zrange 1500 2000) !! 1 = Some zj) /\
      Loc st1 !! 0 = Some (fofZ xi, fofZ yi, fofZ zi) /\
      Loc st1 !! 1 = Some (fofZ xj, fofZ yj, fofZ zj) /\
      fofZ xi ≠ (fofZ xj : float) /\ fofZ yi ≠ (fofZ yj : float) /\
      fofZ zi ≠ (fofZ zj : float).
Proof.
  destruct (allocate cfg500 2) as [st0|] eqn:H0;
    [|vm_compute in H0; discriminate H0].
  pose proof (allocate_allocated cfg500 2 st0 H0) as Ha.
  destruct (initialiseStates cfg500 reverse reverse reverse st0) as [st1|] eqn:H1.
  2: { injection H0 as <-. vm_compute in H1. discriminate H1. }
  exists st0, st1. split; [reflexivity|]. split; [exact H1|].
  assert (coordinates cfg500 reverse reverse reverse =
            Some (reverse (zrange 612 1112), reverse (zrange 1500 2000),
                  reverse (zrange 1500 2000))) as Hc by (vm_compute; reflexivity).
  split; [exact Hc|].
  refine (initialiseStates_distinct_coordinates cfg500 _ _ reverse reverse reverse
            st0 st1 _ _ _ 0 1 _ _ _ Ha H1 Hc _ _ _ _ _ _ _ _).
  - intros l. apply reverse_Permutation.
  - intros l. apply reverse_Permutation.
  - intros l. apply reverse_Permutation.
  - apply survivors_kept_apart. vm_compute; reflexivity.
  - apply survivors_kept_apart. vm_compute; reflexivity.
  - apply survivors_kept_apart. vm_compute; reflexivity.
  - reflexivity.
  - reflexivity.
  - vm_compute; lia.
  - vm_compute; lia.
  - lia.
Defined.

Lemma nan_position_is_settled_run :
  allocated 3 3 st_nan /\ 0 < 3 /\ has_nan (Loc st_nan !!! 0) = true /\
  slot (findCurrentAcc cfg3 0 st_nan) 0 =
  (Some false, Some true, Some vzero, Some vzero,
   Loc st_nan !! 0, VelRad st_nan !! 0, VelInt st_nan !! 0).
Proof.
  split; [is_allocated|]. split; [lia|]. split; [vm_compute; reflexivity|].
  refine (nan_position_is_settled cfg3 3 3 0 st_nan _ _ _).
  - is_allocated.
  - lia.
  - vm_compute; reflexivity.
Defined.

(** *** In exact arithmetic *)

(** Body 0 at distance 10 from the central object, not yet flagged. *)
Definition stR_inside : State R :=
  {| isInContact := [false; false; false]; hasFallen := [false; false; false];
     AccRad := replicate 3 (0, 0, 0)%R; AccInt := replicate 3 (0, 0, 0)%R;
     Loc := [(1760, 1750, 1750); (1950, 1750, 1750); (0, 0, 0)]%R;
     VelRad := [(0, 5000, 0); (0, 5000, 0); (0, 0, 0)]%R;
     VelInt := replicate 3 (0, 0, 0)%R;
     TimeSeries := replicate 3 (replicate 3 (0, 0, 0)%R) |}.

Lemma stR_inside_inside : outside cfgR stR_inside 0 = false.
Proof.
  unfold outside, Abs_R3_of, R_of, norm, HeavyMassLoc, SpaceLength, LargeRadius.
  cbn. real_ops. rewrite (sqrt_of_square _ 10) by lra.
  unfold Rgeb. destruct (Rge_dec _ _); [lra|done].
Qed.

Lemma cube_tests_compare_distances_at_stR :
  (0 <= GenCubeLength cfgR)%R /\ (0 <= SmallDiam cfgR)%R /\
  (outside cfgR stR 0 = true <-> (LargeRadius cfgR <= norm (R_of cfgR stR 0))%R) /\
  (touching cfgR stR 0 1 = true <-> (norm (r_of stR 0 1) < SmallDiam cfgR)%R).
Proof.
  split; [cbn; lra|]. split; [cbn; lra|].
  refine (cube_tests_compare_distances cfgR stR 0 1 _ _); cbn; lra.
Defined.

Lemma central_acceleration_is_exact_at_stR :
  allocated 3 3 stR /\ 0 < 3 /\ (0 < GenCubeLength cfgR)%R /\
  outside cfgR stR 0 = true /\
  AccRad (findCurrentAcc cfgR 0 stR) !! 0 =
  Some (smulv (GM cfgR) (vdivs (R_of cfgR stR 0) (Abs_R3_of cfgR stR 0))).
Proof.
  split; [is_allocated|]. split; [lia|]. split; [cbn; lra|].
  split; [exact stR_outside|].
  refine (central_acceleration_is_exact cfgR 3 3 0 stR _ _ _ _).
  - is_allocated.
  - lia.
  - cbn; lra.
  - exact stR_outside.
Defined.

Lemma settling_frame_is_exact_at_stR :
  allocated (Z.to_nat (N cfgR)) 3 stR_inside /\ (Z.of_nat 0 < N cfgR - 1)%Z /\
  hasFallen stR_inside !! 0 = Some false /\ outside cfgR stR_inside 0 = false /\
  exists st', frames cfgR [0] stR_inside = Some st' /\
    VelRad st' !! 0 = VelRad stR_inside !! 0.
Proof.
  split; [is_allocated|]. split; [reflexivity|]. split; [reflexivity|].
  split; [exact stR_inside_inside|].
  destruct (frames_is_Some cfgR [0] stR_inside) as [st' Hst'].
  { repeat constructor. }
  exists st'. split; [exact Hst'|].
  refine (proj1 (proj2 (settling_frame_is_exact cfgR 3 0 0 [] stR_inside st' _ _ _ _ Hst'))).
  - is_allocated.
  - reflexivity.
  - reflexivity.
  - exact stR_inside_inside.
Defined.

(** * Saving the time series and loading it back

    [saveNewSim] writes [TimeSeries[0,:,:]], [TimeSeries[1,:,:]] and
    [TimeSeries[2,:,:]] with [np.savetxt] to the files [name+"X.txt"],
    [name+"Y.txt"] and [name+"Z.txt"]; [loadSavedSim] reads them with
    [np.loadtxt] into a new array of shape [3 x n x dtcount] and then starts
    the display.  The two NumPy functions are library code: they are written
    out here from their documentation, with the defaults the program uses.
    [np.savetxt] writes one line per row and formats every number with
    [%.18e]; [np.loadtxt] splits the lines into fields, reads every field as
    a float, and squeezes the axes of length one out of the result.  A file
    is a text, a text is a list of characters, and the files are a finite
    map from paths to texts.  Writing a file always succeeds here: there are
    no directories and no permissions.  The display is not part of the
    embedding: [loadSavedSim] is followed up to the array it has filled. *)

(** ** Decimal numerals of binary64 numbers *)

Section Decimal.

Local Open Scope Z_scope.

(** A positive rational is a pair of a numerator and a positive
    denominator; [times_pow b k nd] is [nd * b^k]. *)
Definition times_pow (b k : Z) (nd : Z * Z) : Z * Z :=
  let '(n, d) := nd in if 0 <=? k then (n * b ^ k, d) else (n, d * b ^ (- k)).

(** The integer nearest to [n/d], the even one of two that are equally
    near. *)
Definition round_half_even (n d : Z) : Z :=
  let q := n / d in
  let r := n mod d in
  if 2 * r <? d then q
  else if d <? 2 * r then q + 1
  else if Z.even q then q else q + 1.

(** The decimal exponent of [nd]: the [k] with [10^k <= nd < 10^(k+1)],
    searched upwards from [k]. *)
Fixpoint search10 (fuel : nat) (k : Z) (nd : Z * Z) : Z :=
  match fuel with
  | O => k
  | S fuel' =>
      let '(n', d') := times_pow 10 (- (k + 1)) nd in
      if n' <? d' then k else search10 fuel' (k + 1) nd
  end.

(** The 19 significant digits [D] and the exponent [k] that [%.18e] prints
    for [m * 2^e]: the decimal [D * 10^(k-18)] with [10^18 <= D < 10^19]
    nearest to it.  The smallest positive binary64 number is above
    [10^-324] and the largest is below [10^309]. *)
Definition e18 (m : positive) (e : Z) : Z * Z :=
  let v := times_pow 2 e (Zpos m, 1) in
  let k := search10 633 (-324) v in
  let '(n, d) := times_pow 10 (18 - k) v in
  let D := round_half_even n d in
  if D =? 10 ^ 19 then (10 ^ 18, k + 1) else (D, k).

(** The [t] with [2^t <= nd < 2^(t+1)]. *)
Definition flog2 (nd : Z * Z) : Z :=
  let t := Z.log2 (fst nd) - Z.log2 (snd nd) in
  let '(n', d') := times_pow 2 (- t) nd in
  if n' <? d' then t - 1 else t.

(** The binary64 number nearest to the rational [nd], ties to even, as
    [float] gives it for a decimal numeral: 53 bits, fewer below [2^-1022],
    zero when everything is rounded away and an infinity from [2^1024]
    on. *)
Definition nearest_binary64 (s : bool) (nd : Z * Z) : spec_float :=
  let e := Z.max (flog2 nd - 52) (-1074) in
  let '(n', d') := times_pow 2 (- e) nd in
  let q := round_half_even n' d' in
  let '(m, e) := if q =? 2 ^ 53 then (2 ^ 52, e + 1) else (q, e) in
  match m with
  | Zpos p => if 971 <? e then S754_infinity s else S754_finite s p e
  | _ => S754_zero s
  end.

End Decimal.

(** ** Texts *)

(** A text is a list of characters; [txt] turns a literal into one. *)
Definition text : Type := list ascii.

Definition txt (s : string) : text := list_ascii_of_string s.

Definition newline : ascii := ascii_of_nat 10.

(** The characters that separate the fields of a line: blank, tab, carriage
    return, vertical tab, form feed. *)
Definition is_space (c : ascii) : bool :=
  bool_decide (nat_of_ascii c ∈ [32; 9; 13; 11; 12]).

Definition is_newline (c : ascii) : bool := Ascii.eqb c newline.

(** The pieces of [s] between separators, empty pieces included; [cur] is
    the piece being read. *)
Fixpoint split_on (sep : ascii -> bool) (cur s : text) : list text :=
  match s with
  | [] => [cur]
  | c :: s' => if sep c then cur :: split_on sep [] s' else split_on sep (cur ++ [c]) s'
  end.

(** [s] up to the first [c], and what follows that [c] if there is one. *)
Fixpoint split_at (c : ascii) (s : text) : text * option text :=
  match s with
  | [] => ([], None)
  | a :: s' =>
      if Ascii.eqb a c then ([], Some s')
      else let '(u, r) := split_at c s' in (a :: u, r)
  end.

Definition join (sep : text) (ts : list text) : text :=
  match ts with
  | [] => []
  | t :: ts' => t ++ concat ((fun u => sep ++ u) <$> ts')
  end.

(** *** Decimal digits *)

Section Numerals.

Local Open Scope Z_scope.

Definition digit (n : Z) : ascii := ascii_of_nat (48 + Z.to_nat n).

(** The [w] low decimal digits of [n], most significant first. *)
Fixpoint digits (w : nat) (n : Z) : text :=
  match w with
  | O => []
  | S w' => digits w' (n / 10) ++ [digit (n mod 10)]
  end.

Definition digit_value (c : ascii) : option Z :=
  let n := Z.of_nat (nat_of_ascii c) in
  if (48 <=? n) && (n <=? 57) then Some (n - 48) else None.

(** The number written by a run of digits, continuing from [acc]. *)
Fixpoint number_of (acc : Z) (s : text) : option Z :=
  match s with
  | [] => Some acc
  | c :: s' => d ← digit_value c; number_of (10 * acc + d) s'
  end.

(** *** [%.18e] *)

Definition sign_text (s : bool) : text := if s then txt "-" else [].

(** The 19 digits [D] and the exponent [k] as [d.dddddddddddddddddde+kk]. *)
Definition numeral (D k : Z) : text :=
  digits 1 (D / 10 ^ 18) ++ txt "." ++ digits 18 (D mod 10 ^ 18) ++
  txt "e" ++ (if k <? 0 then txt "-" else txt "+") ++
  digits (if Z.abs k <? 100 then 2 else 3) (Z.abs k).

(** ['%.18e' % x] in Python: one digit, a point, 18 digits, and an exponent
    of at least two digits; [nan] and [inf] for the special values. *)
Definition fmt_e18 (x : float) : text :=
  match Prim2SF x with
  | S754_nan => txt "nan"
  | S754_infinity s => sign_text s ++ txt "inf"
  | S754_zero s => sign_text s ++ txt "0.000000000000000000e+00"
  | S754_finite s m e => let '(D, k) := e18 m e in sign_text s ++ numeral D k
  end.

(** *** Reading a number *)

(** An integer with an optional sign. *)
Definition parse_int (s : text) : option Z :=
  match s with
  | [] => None
  | c :: r =>
      if Ascii.eqb c "-" then (if r is [] then None else Z.opp <$> number_of 0 r)
      else if Ascii.eqb c "+" then (if r is [] then None else number_of 0 r)
      else number_of 0 s
  end.

(** A decimal numeral [digits[.digits][e[sign]digits]] as a pair [(M, x)]
    that stands for [M * 10^x]. *)
Definition parse_decimal (s : text) : option (Z * Z) :=
  let '(mant, ex) := split_at "e" s in
  let '(ip, fp) := split_at "." mant in
  let fp := default [] fp in
  if ip ++ fp is [] then None
  else
    M ← number_of 0 (ip ++ fp);
    E ← match ex with None => Some 0 | Some t => parse_int t end;
    Some (M, E - Z.of_nat (length fp)).

Definition parse_unsigned (s : bool) (r : text) : option spec_float :=
  if decide (r = txt "nan") then Some S754_nan
  else if decide (r = txt "inf" \/ r = txt "infinity") then Some (S754_infinity s)
  else '(M, x) ← parse_decimal r; Some (nearest_binary64 s (times_pow 10 x (M, 1))).

(** [float(token)]: the nearest binary64 number, ties to even.  The syntax
    read is a decimal numeral with an optional sign, fraction and exponent,
    or [nan], [inf], [infinity] in lower case.  What Python accepts beyond
    that (capitals, underscores, blanks around the numeral) is an error
    here; none of it occurs in a file that [np.savetxt] wrote. *)
Definition parse_float (t : text) : option float :=
  SF2Prim <$>
  match t with
  | c :: r =>
      if Ascii.eqb c "-" then parse_unsigned true r
      else if Ascii.eqb c "+" then parse_unsigned false r
      else parse_unsigned false t
  | [] => None
  end.

End Numerals.


(** ** Tables of numbers as text: [np.savetxt] and [np.loadtxt] *)

(** [np.savetxt(fname, X)] with its defaults: every row on a line of its
    own, the numbers written with [%.18e] and separated by one blank. *)
Definition savetxt (X : list (list float)) : text :=
  concat ((fun row => join (txt " ") (fmt_e18 <$> row) ++ [newline]) <$> X).

(** The fields of a line, as [str.split()] gives them. *)
Definition fields (line : text) : list text :=
  filter (fun t => t <> []) (split_on is_space [] line).

(** A line without its comment. *)
Definition strip_comment (line : text) : text := fst (split_at "#" line).

(** The rows of numbers of a text: lines without fields are skipped; a
    field that is not a number, or rows of different lengths, raise
    ValueError. *)
Definition parse_rows (s : text) : option (list (list float)) :=
  let rows := filter (fun r => r <> [])
                ((fun l => fields (strip_comment l)) <$> split_on is_newline [] s) in
  rows' ← mapM (mapM parse_float) rows;
  match rows' with
  | [] => Some []
  | r :: rs =>
      if forallb (fun r' => Nat.eqb (length r') (length r)) rs then Some rows' else None
  end.

(** A NumPy array of at most two axes. *)
Inductive ndarray : Type :=
  | Scalar (x : float)
  | Vector (v : list float)
  | Matrix (rows : list (list float)).

(** [np.loadtxt] squeezes the axes of length one out of what it read: one
    number becomes a scalar, one row or one column a vector; no data at all
    is the empty vector. *)
Definition squeeze (rows : list (list float)) : ndarray :=
  match rows with
  | [] => Vector []
  | [[x]] => Scalar x
  | [row] => Vector row
  | _ =>
      if forallb (fun r => Nat.eqb (length r) 1) rows then Vector (concat rows)
      else Matrix rows
  end.

Definition loadtxt (s : text) : option ndarray := squeeze <$> parse_rows s.

(** An array as rows, the way broadcasting to two axes reads it. *)
Definition as_rows (a : ndarray) : list (list float) :=
  match a with
  | Scalar x => [[x]]
  | Vector v => [v]
  | Matrix rows => rows
  end.

(** Broadcasting along one axis to length [k]: an axis of length one is
    repeated, any other length has to be [k]. *)
Definition stretch {A} (k : nat) (l : list A) : option (list A) :=
  if decide (length l = k) then Some l
  else match l with [x] => Some (replicate k x) | _ => None end.

(** The value that [A[a,:,:] = arr] stores in an [n x T] slice; ValueError
    when the shapes do not broadcast. *)
Definition broadcast_to (n T : nat) (a : ndarray) : option (list (list float)) :=
  rows ← mapM (stretch T) (as_rows a); stretch n rows.

(** ** saveNewSim and loadSavedSim *)


Definition xc (v : vec float) : float := v.1.1.
Definition yc (v : vec float) : float := v.1.2.
Definition zc (v : vec float) : float := v.2.

(** [TimeSeries[a,:,:]]: a row per body, a column per frame. *)
Definition axis_table (a : vec float -> float) (n : nat) (ts : list (list (vec float)))
  : list (list float) :=
  (fun i => (fun fr => a (fr !!! i)) <$> ts) <$> seq 0 n.

Definition saveNewSim (cfg : Config float) (name : string) (st : State float)
    (fs : gmap string text) : gmap string text :=
  let n := Z.to_nat (N cfg) in
  let fs := <[(name +:+ "X.txt")%string := savetxt (axis_table xc n (TimeSeries st))]> fs in
  let fs := <[(name +:+ "Y.txt")%string := savetxt (axis_table yc n (TimeSeries st))]> fs in
  <[(name +:+ "Z.txt")%string := savetxt (axis_table zc n (TimeSeries st))]> fs.

#[export] Instance float_inhabited : Inhabited float := populate 0%float.

(** The array whose three slices are [X], [Y] and [Z], frame by frame as
    [State] holds a time series. *)
Definition frames_of (X Y Z : list (list float)) (n T : nat) : list (list (vec float)) :=
  (fun t => (fun i => ((X !!! i) !!! t, (Y !!! i) !!! t, (Z !!! i) !!! t) : vec float)
              <$> seq 0 n) <$> seq 0 T.

(** [TimeSeries[a,:,:] = np.loadtxt(path)] on the local [n x dtcount]
    array; a missing file raises OSError. *)
Definition load_axis (fs : gmap string text) (path : string) (n T : nat)
  : option (list (list float)) :=
  s ← fs !! path; a ← loadtxt s; broadcast_to n T a.

(** [loadSavedSim(name, n, dtcount, ...)] up to the point where the display
    starts: the local [TimeSeries] it has filled, frame by frame as in
    [State]. *)
Definition loadSavedSim (name : string) (n dtcount : Z) (fs : gmap string text)
  : option (list (list (vec float))) :=
  if decide (n < 0 \/ dtcount < 0)%Z then None
  else
    let n' := Z.to_nat n in
    let T := Z.to_nat dtcount in
    X ← load_axis fs (name +:+ "X.txt")%string n' T;
    Y ← load_axis fs (name +:+ "Y.txt")%string n' T;
    Z ← load_axis fs (name +:+ "Z.txt")%string n' T;
    Some (frames_of X Y Z n' T).

(** ** Rounding to a decimal and back

    The values of the fractions are followed in the real numbers. *)

Section DecimalFacts.

Local Open Scope R_scope.

(** The value of a fraction. *)
Definition val (nd : Z * Z) : R := IZR (fst nd) / IZR (snd nd).

Lemma IZR_pow (b k : Z) : (0 <= k)%Z -> IZR (b ^ k) = powerRZ (IZR b) k.
Proof.
  intros Hk. replace k with (Z.of_nat (Z.to_nat k)) by lia.
  rewrite <- pow_IZR. apply pow_powerRZ.
Qed.

Lemma powerRZ_ge_1 (x : R) (k : Z) : 1 <= x -> (0 <= k)%Z -> 1 <= powerRZ x k.
Proof.
  intros Hx Hk. replace k with (Z.of_nat (Z.to_nat k)) by lia.
  rewrite <- pow_powerRZ. by apply pow_R1_Rle.
Qed.

Lemma powerRZ_mono (x : R) (j k : Z) : 1 <= x -> (j <= k)%Z -> powerRZ x j <= powerRZ x k.
Proof.
  intros Hx Hjk. replace k with (j + (k - j))%Z by lia.
  rewrite powerRZ_add by lra.
  pose proof (powerRZ_lt x j ltac:(lra)). pose proof (powerRZ_ge_1 x (k - j) Hx ltac:(lia)).
  nra.
Qed.

Lemma powerRZ_succ (x : R) (k : Z) : x <> 0 -> powerRZ x (k + 1) = powerRZ x k * x.
Proof. intros Hx. rewrite powerRZ_add by done. by rewrite powerRZ_1. Qed.

Lemma powerRZ_mono_strict (x : R) (j k : Z) :
  1 < x -> (j < k)%Z -> powerRZ x j < powerRZ x k.
Proof.
  intros Hx Hjk. pose proof (powerRZ_mono x (j + 1) k ltac:(lra) ltac:(lia)) as Hm.
  rewrite powerRZ_succ in Hm by lra. pose proof (powerRZ_lt x j ltac:(lra)). nra.
Qed.

Lemma times_pow_spec (b k : Z) (nd : Z * Z) :
  (0 < b)%Z -> (0 < snd nd)%Z ->
  (0 < snd (times_pow b k nd))%Z /\
  val (times_pow b k nd) = val nd * powerRZ (IZR b) k.
Proof.
  destruct nd as [n d]. cbn [snd]. intros Hb Hd. unfold times_pow, val.
  assert (0 < IZR d) as HdR by (by apply IZR_lt).
  destruct (Z.leb_spec 0 k) as [Hk|Hk]; cbn [fst snd].
  - split; [done|]. rewrite mult_IZR, IZR_pow by done. field. lra.
  - assert (0 < b ^ (- k))%Z as Hp by (apply Z.pow_pos_nonneg; lia).
    split; [lia|]. rewrite mult_IZR, IZR_pow by lia.
    assert (powerRZ (IZR b) k = / powerRZ (IZR b) (- k)) as ->.
    { rewrite <- powerRZ_neg'. f_equal. lia. }
    pose proof (powerRZ_lt (IZR b) (- k) ltac:(by apply IZR_lt)).
    field. split; lra.
Qed.


Lemma round_half_even_near_Z (n d z : Z) :
  (0 < d)%Z -> (- d < 2 * n - 2 * z * d < d)%Z -> round_half_even n d = z.
Proof.
  intros Hd Hz. unfold round_half_even.
  pose proof (Z.div_mod n d ltac:(lia)) as Hn.
  pose proof (Z.mod_pos_bound n d Hd) as Hr.
  set (q := (n / d)%Z) in *. set (r := (n mod d)%Z) in *.
  assert (q = z \/ q = z - 1)%Z as Hq by nia.
  destruct (Z.ltb_spec (2 * r) d); [nia|].
  destruct (Z.ltb_spec d (2 * r)); [nia|].
  destruct (Z.even q); nia.
Qed.

Lemma round_half_even_error_Z (n d : Z) :
  (0 < d)%Z -> (- d <= 2 * round_half_even n d * d - 2 * n <= d)%Z.
Proof.
  intros Hd. unfold round_half_even.
  pose proof (Z.div_mod n d ltac:(lia)) as Hn.
  pose proof (Z.mod_pos_bound n d Hd) as Hr.
  set (q := (n / d)%Z) in *. set (r := (n mod d)%Z) in *.
  destruct (Z.ltb_spec (2 * r) d); [nia|].
  destruct (Z.ltb_spec d (2 * r)); [nia|].
  destruct (Z.even q); nia.
Qed.

Lemma round_half_even_near (nd : Z * Z) (z : Z) :
  (0 < snd nd)%Z -> Rabs (val nd - IZR z) < / 2 ->
  round_half_even (fst nd) (snd nd) = z.
Proof.
  destruct nd as [n d]. unfold val. cbn [fst snd]. intros Hd Hz.
  apply round_half_even_near_Z; [done|].
  assert (0 < IZR d) as HdR by (by apply IZR_lt).
  apply Rabs_def2 in Hz as [Hlo Hhi].
  assert (IZR n = IZR n / IZR d * IZR d) as Hn by (field; lra).
  set (x := IZR n / IZR d) in *.
  clearbody x.
  split; apply lt_IZR; rewrite ?minus_IZR, ?mult_IZR, ?opp_IZR; rewrite Hn; nra.
Qed.

Lemma round_half_even_error (nd : Z * Z) :
  (0 < snd nd)%Z -> Rabs (IZR (round_half_even (fst nd) (snd nd)) - val nd) <= / 2.
Proof.
  destruct nd as [n d]. unfold val. cbn [fst snd]. intros Hd.
  assert (0 < IZR d) as HdR by (by apply IZR_lt).
  destruct (round_half_even_error_Z n d Hd) as [Hlo Hhi].
  apply IZR_le in Hlo, Hhi. rewrite opp_IZR in Hlo.
  rewrite minus_IZR, !mult_IZR in Hlo, Hhi.
  assert (IZR n = IZR n / IZR d * IZR d) as Hn by (field; lra).
  set (x := IZR n / IZR d) in *. set (q := IZR (round_half_even n d)) in *.
  rewrite Hn in Hlo, Hhi. clearbody q x. apply Rabs_le.
  split; apply (Rmult_le_reg_r (IZR d)); [done|lra|done|lra].
Qed.


(** [n/d < b^j], decided on the scaled fraction. *)
Lemma below_pow (b j : Z) (nd : Z * Z) :
  (0 < b)%Z -> (0 < snd nd)%Z ->
  (fst (times_pow b (- j) nd) <? snd (times_pow b (- j) nd))%Z = true <->
  val nd < powerRZ (IZR b) j.
Proof.
  intros Hb Hd. destruct (times_pow_spec b (- j) nd Hb Hd) as [Hd' Hv].
  destruct (times_pow b (- j) nd) as [n' d']. cbn [fst snd] in *.
  unfold val at 1 in Hv. cbn [fst snd] in Hv. rewrite powerRZ_neg' in Hv.
  pose proof (powerRZ_lt (IZR b) j ltac:(by apply IZR_lt)) as Hp.
  assert (0 < IZR d') as HdR by (by apply IZR_lt).
  assert (IZR n' = val nd * / powerRZ (IZR b) j * IZR d') as Hn.
  { rewrite <- Hv. field. lra. }
  rewrite Z.ltb_lt. split.
  - intros Hlt. apply IZR_lt in Hlt. rewrite Hn in Hlt.
    apply (Rmult_lt_reg_r (/ powerRZ (IZR b) j * IZR d')).
    { apply Rmult_lt_0_compat; [by apply Rinv_0_lt_compat|done]. }
    rewrite <- Rmult_assoc.
    replace (powerRZ (IZR b) j * (/ powerRZ (IZR b) j * IZR d')) with (IZR d')
      by (field; lra). done.
  - intros Hlt. apply lt_IZR. rewrite Hn.
    replace (IZR d') with (powerRZ (IZR b) j * (/ powerRZ (IZR b) j * IZR d')) at 2
      by (field; lra).
    rewrite Rmult_assoc. apply Rmult_lt_compat_r; [|done].
    apply Rmult_lt_0_compat; [by apply Rinv_0_lt_compat|done].
Qed.

Lemma search10_spec (fuel : nat) (k : Z) (nd : Z * Z) :
  (0 < snd nd)%Z ->
  powerRZ 10 k <= val nd -> val nd < powerRZ 10 (k + Z.of_nat fuel) ->
  powerRZ 10 (search10 fuel k nd) <= val nd < powerRZ 10 (search10 fuel k nd + 1).
Proof.
  intros Hd. revert k. induction fuel as [|fuel IH]; intros k Hlo Hhi.
  - replace (k + Z.of_nat 0)%Z with k in Hhi by lia. lra.
  - cbn [search10].
    pose proof (below_pow 10 (k + 1) nd ltac:(lia) Hd) as Hb.
    destruct (times_pow 10 (- (k + 1)) nd) as [n' d']. cbn [fst snd] in Hb.
    destruct (n' <? d')%Z.
    + split; [done|]. by apply Hb.
    + apply IH.
      * apply Rnot_lt_le. intros Hlt. apply Hb in Hlt. discriminate Hlt.
      * replace (k + 1 + Z.of_nat fuel)%Z with (k + Z.of_nat (S fuel))%Z by lia. done.
Qed.

Lemma log2_bounds (n : Z) :
  (0 < n)%Z -> powerRZ 2 (Z.log2 n) <= IZR n < powerRZ 2 (Z.log2 n + 1).
Proof.
  intros Hn. destruct (Z.log2_spec n Hn) as [Hlo Hhi].
  pose proof (Z.log2_nonneg n) as Hnn.
  apply IZR_le in Hlo. apply IZR_lt in Hhi.
  rewrite IZR_pow in Hlo by done. rewrite IZR_pow in Hhi by lia.
  replace (Z.succ (Z.log2 n)) with (Z.log2 n + 1)%Z in Hhi by lia. done.
Qed.

Lemma flog2_spec (nd : Z * Z) :
  (0 < fst nd)%Z -> (0 < snd nd)%Z ->
  powerRZ 2 (flog2 nd) <= val nd < powerRZ 2 (flog2 nd + 1).
Proof.
  intros Hn Hd. unfold flog2.
  destruct (log2_bounds _ Hn) as [Hn1 Hn2]. destruct (log2_bounds _ Hd) as [Hd1 Hd2].
  set (a := Z.log2 (fst nd)) in *. set (b := Z.log2 (snd nd)) in *.
  pose proof (below_pow 2 (a - b) nd ltac:(lia) Hd) as Hb.
  destruct (times_pow 2 (- (a - b)) nd) as [n' d']. cbn [fst snd] in Hb.
  assert (0 < IZR (snd nd)) as HdR by (by apply IZR_lt).
  pose proof (powerRZ_lt 2 b ltac:(lra)) as Hpb.
  pose proof (powerRZ_lt 2 (a - b) ltac:(lra)) as Hpab.
  assert (powerRZ 2 a = powerRZ 2 (a - b) * powerRZ 2 b) as Ha.
  { rewrite <- powerRZ_add by lra. f_equal. lia. }
  assert (IZR (fst nd) = val nd * IZR (snd nd)) as Hv by (unfold val; field; lra).
  rewrite powerRZ_succ in Hn2, Hd2 by lra.
  set (v := val nd) in *. clearbody v.
  destruct (n' <? d')%Z.
  - replace (a - b - 1 + 1)%Z with (a - b)%Z by lia.
    split; [|by apply Hb].
    assert (powerRZ 2 (a - b) = powerRZ 2 (a - b - 1) * 2) as Hs.
    { rewrite <- powerRZ_succ by lra. f_equal. lia. }
    pose proof (powerRZ_lt 2 (a - b - 1) ltac:(lra)).
    apply Rnot_lt_le. intros Hlt. nra.
  - split.
    + apply Rnot_lt_le. intros Hlt. apply Hb in Hlt. discriminate Hlt.
    + rewrite powerRZ_succ by lra. apply Rnot_le_lt. intros Hle. nra.
Qed.


Lemma times_pow_pos (b k : Z) (nd : Z * Z) :
  (0 < b)%Z -> (0 < fst nd)%Z -> (0 < fst (times_pow b k nd))%Z.
Proof.
  destruct nd as [n d]. cbn [fst]. intros Hb Hn. unfold times_pow.
  destruct (0 <=? k)%Z eqn:Hk; cbn [fst]; [|done].
  apply Z.leb_le in Hk. apply Z.mul_pos_pos; [done|]. by apply Z.pow_pos_nonneg.
Qed.

(** The mantissa and exponent of a finite binary64 number: 53 bits, or
    fewer bits at the smallest exponent. *)
Lemma bounded_cases (m : positive) (e : Z) :
  SpecFloat.bounded prec emax m e = true ->
  ((4503599627370496 <= Zpos m < 9007199254740992)%Z /\ (-1074 <= e <= 971)%Z) \/
  ((Zpos m < 4503599627370496)%Z /\ e = (-1074)%Z).
Proof.
  unfold SpecFloat.bounded, canonical_mantissa, fexp, emin, prec, emax.
  intros Hb. apply andb_true_iff in Hb as [Hc He].
  apply Z.eqb_eq in Hc. apply Z.leb_le in He.
  pose proof (digits2_lower m) as Hlo.
  assert (Zpos m < 2 ^ Zpos (digits2_pos m))%Z as Hhi.
  { rewrite digits2_pos_size. pose proof (Pos.size_gt m) as Hs.
    apply Pos2Z.pos_lt_pos in Hs. by rewrite Pos2Z.inj_pow in Hs. }
  set (sz := Zpos (digits2_pos m)) in *.
  assert (1 <= sz)%Z as Hsz by (unfold sz; lia).
  destruct (Z.max_spec (sz + e - 53) (3 - 1024 - 53)) as [[Hlt Hmax]|[Hle Hmax]];
    rewrite Hmax in Hc.
  - right. split; [|lia].
    change 4503599627370496%Z with (2 ^ 52)%Z.
    eapply Z.lt_le_trans; [exact Hhi|]. apply Z.pow_le_mono_r; lia.
  - left. assert (sz = 53)%Z as Hs by lia. rewrite Hs in Hlo, Hhi.
    split; [|lia]. split; [exact Hlo|exact Hhi].
Qed.

Lemma powerRZ_lt_inv (x : R) (j k : Z) : 1 < x -> powerRZ x j < powerRZ x k -> (j < k)%Z.
Proof.
  intros Hx Hlt. destruct (Z.lt_ge_cases j k) as [|Hge]; [done|].
  pose proof (powerRZ_mono x k j ltac:(lra) Hge). lra.
Qed.


Lemma Rabs_bounds (x y : R) : Rabs x <= y -> - y <= x <= y.
Proof. unfold Rabs. destruct (Rcase_abs x); lra. Qed.

Lemma two_pow_51 : powerRZ 2 51 = 2251799813685248.
Proof. rewrite <- IZR_pow by lia. reflexivity. Qed.
Lemma two_pow_52 : powerRZ 2 52 = 4503599627370496.
Proof. rewrite <- IZR_pow by lia. reflexivity. Qed.
Lemma two_pow_53 : powerRZ 2 53 = 9007199254740992.
Proof. rewrite <- IZR_pow by lia. reflexivity. Qed.

(** A fraction within a relative distance of [10^-18 / 2] of a finite
    binary64 number rounds to that number. *)
Lemma nearest_binary64_near (s : bool) (m : positive) (e : Z) (nd : Z * Z) :
  SpecFloat.bounded prec emax m e = true ->
  (0 < fst nd)%Z -> (0 < snd nd)%Z ->
  Rabs (val nd - IZR (Zpos m) * powerRZ 2 e) <=
    IZR (Zpos m) * powerRZ 2 e * / 2000000000000000000 ->
  nearest_binary64 s nd = S754_finite s m e.
Proof.
  intros Hb Hn Hd Herr.
  destruct (flog2_spec nd Hn Hd) as [Ht1 Ht2].
  unfold nearest_binary64. set (t := flog2 nd) in *.
  pose proof (powerRZ_lt 2 e ltac:(lra)) as Hp.
  pose proof (powerRZ_lt 2 (- e) ltac:(lra)) as Hip.
  assert (powerRZ 2 e * powerRZ 2 (- e) = 1) as Hpip.
  { rewrite <- powerRZ_add by lra. replace (e + - e)%Z with 0%Z by lia. done. }
  set (p := powerRZ 2 e) in *. set (ip := powerRZ 2 (- e)) in *.
  set (M := IZR (Zpos m)) in *.
  set (u := val nd * ip).
  assert (val nd = u * p) as Hy.
  { unfold u. rewrite Rmult_assoc, (Rmult_comm ip p), Hpip. lra. }
  assert (1 <= M) as HM1 by (apply IZR_le; lia).
  apply Rabs_bounds in Herr as [Hlo Hhi]. rewrite Hy in Hlo, Hhi.
  assert (- (M * / 2000000000000000000) <= u - M <= M * / 2000000000000000000) as Hu.
  { split; apply (Rmult_le_reg_r p); [done|lra|done|lra]. }
  (* the binade of [u] *)
  assert (powerRZ 2 (t - e) <= u < powerRZ 2 (t - e + 1)) as Hj.
  { assert (powerRZ 2 t = powerRZ 2 (t - e) * p) as E1.
    { unfold p. rewrite <- powerRZ_add by lra. f_equal. lia. }
    assert (powerRZ 2 (t + 1) = powerRZ 2 (t - e + 1) * p) as E2.
    { unfold p. rewrite <- powerRZ_add by lra. f_equal. lia. }
    rewrite E1, Hy in Ht1. rewrite E2, Hy in Ht2.
    split; [apply (Rmult_le_reg_r p)|apply (Rmult_lt_reg_r p)]; done. }
  set (j := (t - e)%Z) in *.
  assert (forall e', val (times_pow 2 (- e') nd) = u * powerRZ 2 (e - e') /\
                     (0 < snd (times_pow 2 (- e') nd))%Z) as Hscaled.
  { intros e'. destruct (times_pow_spec 2 (- e') nd ltac:(lia) Hd) as [Hd' Hv].
    split; [|done]. rewrite Hv. unfold u.
    replace (- e')%Z with (- e + (e - e'))%Z by lia.
    rewrite powerRZ_add by lra. fold ip. lra. }
  assert ((Z.max (t - 52) (-1074) = e /\ Rabs (u - M) < / 2) \/
          (Z.max (t - 52) (-1074) = (e - 1)%Z /\ Zpos m = 4503599627370496%Z /\
           Rabs (2 * u - 9007199254740992) < / 2)) as Hcase.
  { destruct (bounded_cases m e Hb) as [[[Hm1 Hm2] He]|[Hm ->]].
    - assert (Zpos m <= 9007199254740991)%Z as Hm3 by lia.
      pose proof Hm1 as Hm1Z.
      apply IZR_le in Hm1, Hm3. apply IZR_lt in Hm2. fold M in Hm1, Hm2, Hm3.
      assert (j < 53)%Z as Hj1.
      { apply (powerRZ_lt_inv 2); [lra|]. rewrite two_pow_53. lra. }
      assert (50 < j)%Z as Hj2.
      { assert (51 < j + 1)%Z; [|lia].
        apply (powerRZ_lt_inv 2); [lra|]. rewrite two_pow_51. lra. }
      assert (j = 52 \/ j = 51)%Z as [Hj52|Hj51] by lia.
      + left. split; [lia|]. apply Rabs_def1; lra.
      + rewrite Hj51 in Hj. replace (51 + 1)%Z with 52%Z in Hj by lia.
        rewrite two_pow_52 in Hj.
        assert (Zpos m = 4503599627370496%Z) as Hm.
        { assert (Zpos m < 4503599627370497)%Z; [|lia].
          apply lt_IZR. fold M. lra. }
        assert (M = 4503599627370496) as HM by (unfold M; by rewrite Hm).
        destruct (Z.eq_dec e (-1074)%Z) as [He74|Hne].
        * left. split; [lia|]. apply Rabs_def1; lra.
        * right. split; [lia|]. split; [done|]. apply Rabs_def1; lra.
    - assert (Zpos m <= 4503599627370495)%Z as Hm3 by lia.
      apply IZR_le in Hm3. fold M in Hm3.
      assert (j < 52)%Z as Hj1.
      { apply (powerRZ_lt_inv 2); [lra|]. rewrite two_pow_52. lra. }
      left. split; [lia|]. apply Rabs_def1; lra. }
  assert (-1074 <= e <= 971 /\ Zpos m < 9007199254740992)%Z as [He Hm53].
  { destruct (bounded_cases m e Hb) as [[? ?]|[? ->]]; lia. }
  destruct Hcase as [[-> Hq]|(-> & Hm & Hq)].
  - destruct (Hscaled e) as [Hv Hd']. replace (e - e)%Z with 0%Z in Hv by lia.
    rewrite powerRZ_O, Rmult_1_r in Hv.
    pose proof (round_half_even_near (times_pow 2 (- e) nd) (Zpos m) Hd') as Hr.
    rewrite Hv in Hr. specialize (Hr Hq).
    destruct (times_pow 2 (- e) nd) as [n' d']. cbn [fst snd] in Hr. rewrite Hr.
    destruct (Z.eqb_spec (Zpos m) (2 ^ 53)) as [Heq|_].
    { change (2 ^ 53)%Z with 9007199254740992%Z in Heq. lia. }
    destruct (Z.ltb_spec 971 e); [lia|done].
  - destruct (Hscaled (e - 1)%Z) as [Hv Hd'].
    replace (e - (e - 1))%Z with 1%Z in Hv by lia. rewrite powerRZ_1 in Hv.
    pose proof (round_half_even_near (times_pow 2 (- (e - 1)) nd) 9007199254740992 Hd') as Hr.
    rewrite Hv, (Rmult_comm u 2) in Hr. specialize (Hr Hq).
    destruct (times_pow 2 (- (e - 1)) nd) as [n' d']. cbn [fst snd] in Hr. rewrite Hr.
    change (9007199254740992 =? 2 ^ 53)%Z with true. cbn iota.
    change (2 ^ 52)%Z with 4503599627370496%Z.
    replace (e - 1 + 1)%Z with e by lia.
    destruct (Z.ltb_spec 971 e); [lia|]. injection Hm as ->. done.
Qed.


Lemma ten_pow_18 : powerRZ 10 18 = 1000000000000000000.
Proof. rewrite <- IZR_pow by lia. reflexivity. Qed.

Lemma smallest_above_ten_pow : powerRZ 10 (-324) <= powerRZ 2 (-1074).
Proof.
  change (-324)%Z with (Z.opp 324). change (-1074)%Z with (Z.opp 1074).
  rewrite !powerRZ_neg'. apply Rinv_le_contravar; [apply powerRZ_lt; lra|].
  rewrite <- !IZR_pow by lia. apply IZR_le. apply Z.leb_le. vm_compute. reflexivity.
Qed.

Lemma largest_below_ten_pow : powerRZ 2 1024 <= powerRZ 10 309.
Proof.
  rewrite <- !IZR_pow by lia. apply IZR_le. apply Z.leb_le. vm_compute. reflexivity.
Qed.

(** The 19 digits and the decimal exponent that [%.18e] prints for a finite
    binary64 number. *)
Lemma e18_spec (m : positive) (e : Z) :
  SpecFloat.bounded prec emax m e = true ->
  (1000000000000000000 <= fst (e18 m e) < 10000000000000000000)%Z /\
  (-324 <= snd (e18 m e) <= 309)%Z /\
  Rabs (val (times_pow 10 (snd (e18 m e) - 18) (fst (e18 m e), 1%Z)) -
        IZR (Zpos m) * powerRZ 2 e) <=
    IZR (Zpos m) * powerRZ 2 e * / 2000000000000000000.
Proof.
  intros Hb. unfold e18.
  destruct (times_pow_spec 2 e (Zpos m, 1%Z) ltac:(lia) ltac:(cbn; lia)) as [Hvd Hv].
  unfold val at 2 in Hv. cbn [fst snd] in Hv. rewrite Rdiv_1_r in Hv.
  set (v := times_pow 2 e (Zpos m, 1%Z)) in *.
  set (M := IZR (Zpos m)) in *. set (p := powerRZ 2 e) in *.
  assert (powerRZ 10 (-324) <= val v < powerRZ 10 (-324 + Z.of_nat 633)) as [Hv1 Hv2].
  { assert (-1074 <= e <= 971 /\ 1 <= Zpos m <= 9007199254740991)%Z as [He [Hm1 Hm2]].
    { destruct (bounded_cases m e Hb) as [[? ?]|[? ->]]; lia. }
    apply IZR_le in Hm1, Hm2. fold M in Hm1, Hm2.
    pose proof (powerRZ_mono 2 (-1074) e ltac:(lra) ltac:(lia)) as Hp1.
    pose proof (powerRZ_mono 2 e 971 ltac:(lra) ltac:(lia)) as Hp2.
    pose proof (powerRZ_lt 2 (-1074) ltac:(lra)) as Hp0.
    fold p in Hp1, Hp2.
    pose proof smallest_above_ten_pow. pose proof largest_below_ten_pow as Hl.
    replace 1024%Z with (53 + 971)%Z in Hl by lia.
    rewrite powerRZ_add, two_pow_53 in Hl by lra.
    change (-324 + Z.of_nat 633)%Z with 309%Z.
    rewrite Hv. split; nra. }
  destruct (search10_spec 633 (-324) v Hvd Hv1 Hv2) as [Hk1 Hk2].
  set (k := search10 633 (-324) v) in *.
  assert (-324 <= k <= 308)%Z as Hk.
  { split.
    - assert (-324 < k + 1)%Z; [|lia]. apply (powerRZ_lt_inv 10); lra.
    - assert (k < 309)%Z; [|lia]. apply (powerRZ_lt_inv 10); [lra|].
      change (-324 + Z.of_nat 633)%Z with 309%Z in Hv2. lra. }
  destruct (times_pow_spec 10 (18 - k) v ltac:(lia) Hvd) as [Hwd Hw].
  pose proof (round_half_even_error (times_pow 10 (18 - k) v) Hwd) as Hr.
  destruct (times_pow 10 (18 - k) v) as [n d]. cbn [fst snd] in Hr, Hwd.
  set (D0 := round_half_even n d) in *. rewrite Hw in Hr.
  pose proof (powerRZ_lt 10 (18 - k) ltac:(lra)) as HP.
  pose proof (powerRZ_lt 10 (k - 18) ltac:(lra)) as HIP.
  assert (powerRZ 10 (18 - k) * powerRZ 10 (k - 18) = 1) as HPIP.
  { rewrite <- powerRZ_add by lra. replace (18 - k + (k - 18))%Z with 0%Z by lia. done. }
  assert (powerRZ 10 k = 1000000000000000000 * powerRZ 10 (k - 18)) as Hk18.
  { rewrite <- ten_pow_18, <- powerRZ_add by lra. f_equal. lia. }
  assert (powerRZ 10 (k + 1) = 10000000000000000000 * powerRZ 10 (k - 18)) as Hk19.
  { rewrite powerRZ_succ, Hk18 by lra. lra. }
  set (P := powerRZ 10 (18 - k)) in *. set (IP := powerRZ 10 (k - 18)) in *.
  apply Rabs_bounds in Hr as [Hr1 Hr2].
  assert (1000000000000000000 <= val v * P <= 10000000000000000000) as [Hw1 Hw2].
  { rewrite Hk18 in Hk1. rewrite Hk19 in Hk2.
    split; apply (Rmult_le_reg_r IP); try done;
      rewrite Rmult_assoc, HPIP; lra. }
  assert (1000000000000000000 <= D0 <= 10000000000000000000)%Z as HD0.
  { split.
    - assert (999999999999999999 < D0)%Z; [|lia]. apply lt_IZR. lra.
    - assert (D0 < 10000000000000000001)%Z; [|lia]. apply lt_IZR. lra. }
  assert (Rabs (IZR D0 * IP - M * p) <= M * p * / 2000000000000000000) as Herr.
  { rewrite <- Hv. apply Rabs_le.
    assert (val v = val v * P * IP) as Hvv by (rewrite Rmult_assoc, HPIP; lra).
    rewrite Hk18 in Hk1.
    split.
    - apply Rle_trans with (- (/ 2 * IP)); [lra|].
      rewrite Hvv at 1. nra.
    - apply Rle_trans with (/ 2 * IP); [|lra].
      rewrite Hvv at 1. nra. }
  change (10 ^ 19)%Z with 10000000000000000000%Z.
  change (10 ^ 18)%Z with 1000000000000000000%Z.
  destruct (Z.eqb_spec D0 10000000000000000000) as [Hcarry|Hnc]; cbn [fst snd].
  - split; [lia|]. split; [lia|].
    destruct (times_pow_spec 10 (k + 1 - 18) (1000000000000000000%Z, 1%Z)
                ltac:(lia) ltac:(cbn; lia)) as [_ Hval].
    rewrite Hval. unfold val at 1. cbn [fst snd]. rewrite Rdiv_1_r.
    replace (k + 1 - 18)%Z with (k - 18 + 1)%Z by lia.
    rewrite powerRZ_succ by lra. fold IP. rewrite Hcarry in Herr.
    replace (1000000000000000000 * (IP * 10)) with (10000000000000000000 * IP) by lra.
    done.
  - split; [lia|]. split; [lia|].
    destruct (times_pow_spec 10 (k - 18) (D0, 1%Z) ltac:(lia) ltac:(cbn; lia)) as [_ Hval].
    rewrite Hval. unfold val at 1. cbn [fst snd]. rewrite Rdiv_1_r. done.
Qed.

(** Printing a finite binary64 number with [%.18e] and reading the decimal
    back gives the number. *)
Lemma e18_round_trip (s : bool) (m : positive) (e : Z) :
  SpecFloat.bounded prec emax m e = true ->
  nearest_binary64 s (times_pow 10 (snd (e18 m e) - 18) (fst (e18 m e), 1%Z)) =
  S754_finite s m e.
Proof.
  intros Hb. destruct (e18_spec m e Hb) as (HD & Hk & Herr).
  apply nearest_binary64_near; [done| | |done].
  - apply times_pow_pos; cbn [fst]; lia.
  - apply times_pow_spec; cbn [snd]; lia.
Qed.

End DecimalFacts.

(** ** Printing and reading back *)

Section TextFacts.

Local Open Scope Z_scope.

Lemma digit_value_digit (d : Z) : 0 <= d <= 9 -> digit_value (digit d) = Some d.
Proof.
  intros Hd.
  assert (d = 0 \/ d = 1 \/ d = 2 \/ d = 3 \/ d = 4 \/ d = 5 \/ d = 6 \/ d = 7 \/
          d = 8 \/ d = 9) as Hc by lia.
  repeat destruct Hc as [->|Hc]; try subst d; reflexivity.
Qed.

(** A character that is a decimal digit is none of the characters that
    structure a line or a numeral. *)
Definition plain (c : ascii) : bool :=
  negb (is_space c) && negb (is_newline c) && negb (Ascii.eqb c "#").

Lemma digit_cases (c : ascii) (d : Z) :
  digit_value c = Some d -> c = digit d /\ 0 <= d <= 9.
Proof.
  unfold digit_value. intros Hc.
  destruct ((48 <=? Z.of_nat (nat_of_ascii c)) && (Z.of_nat (nat_of_ascii c) <=? 57)) eqn:Hb;
    [|discriminate].
  injection Hc as <-. apply andb_true_iff in Hb as [H1 H2].
  apply Z.leb_le in H1, H2. split; [|lia].
  unfold digit. rewrite <- (ascii_nat_embedding c) at 1. f_equal. lia.
Qed.

Lemma digit_plain (c : ascii) (d : Z) :
  digit_value c = Some d ->
  plain c = true /\ c <> "e"%char /\ c <> "."%char /\ c <> "-"%char /\ c <> "+"%char /\
  c <> "n"%char /\ c <> "i"%char.
Proof.
  intros Hc. apply digit_cases in Hc as [-> Hd].
  assert (d = 0 \/ d = 1 \/ d = 2 \/ d = 3 \/ d = 4 \/ d = 5 \/ d = 6 \/ d = 7 \/
          d = 8 \/ d = 9) as Hc by lia.
  repeat destruct Hc as [->|Hc]; try subst d;
    (split; [reflexivity|repeat split; discriminate]).
Qed.

Lemma number_of_app (acc : Z) (s t : text) :
  number_of acc (s ++ t) = number_of acc s ≫= fun a => number_of a t.
Proof.
  revert acc. induction s as [|c s IH]; intros acc; [done|].
  cbn [app number_of]. destruct (digit_value c); [|done]. cbn [mbind option_bind]. apply IH.
Qed.

Lemma number_of_digits (w : nat) (n acc : Z) :
  0 <= n < 10 ^ Z.of_nat w ->
  number_of acc (digits w n) = Some (acc * 10 ^ Z.of_nat w + n).
Proof.
  revert n. induction w as [|w IH]; intros n Hn.
  - cbn. f_equal. change (10 ^ Z.of_nat 0) with 1 in *. lia.
  - cbn [digits]. rewrite number_of_app.
    replace (Z.of_nat (S w)) with (Z.of_nat w + 1) in * by lia.
    rewrite Z.pow_add_r, Z.pow_1_r in * by lia.
    pose proof (Z.div_mod n 10 ltac:(lia)) as Hdm.
    pose proof (Z.mod_pos_bound n 10 ltac:(lia)) as Hm.
    rewrite IH by (split; [apply Z.div_pos; lia|apply Z.div_lt_upper_bound; lia]).
    cbn [mbind option_bind number_of]. rewrite digit_value_digit by lia.
    cbn [mbind option_bind]. f_equal. lia.
Qed.

Lemma digits_are_digits (w : nat) (n : Z) :
  Forall (fun c => is_Some (digit_value c)) (digits w n).
Proof.
  revert n. induction w as [|w IH]; intros n; [constructor|].
  cbn [digits]. apply Forall_app. split; [apply IH|].
  repeat constructor. rewrite digit_value_digit; [by eexists|].
  pose proof (Z.mod_pos_bound n 10 ltac:(lia)). lia.
Qed.

Lemma length_digits (w : nat) (n : Z) : length (digits w n) = w.
Proof.
  revert n. induction w as [|w IH]; intros n; [done|].
  cbn [digits]. rewrite length_app, IH. cbn. lia.
Qed.

Lemma split_at_here (c : ascii) (s r : text) :
  c ∉ s -> split_at c (s ++ c :: r) = (s, Some r).
Proof.
  induction s as [|a s IH]; intros Hc; cbn [app split_at].
  - by rewrite Ascii.eqb_refl.
  - apply not_elem_of_cons in Hc as [Hne Hc].
    destruct (Ascii.eqb_spec a c) as [->|_]; [done|]. by rewrite IH.
Qed.

Lemma split_at_none (c : ascii) (s : text) : c ∉ s -> split_at c s = (s, None).
Proof.
  induction s as [|a s IH]; intros Hc; cbn [split_at]; [done|].
  apply not_elem_of_cons in Hc as [Hne Hc].
  destruct (Ascii.eqb_spec a c) as [->|_]; [done|]. by rewrite IH.
Qed.

Lemma digits_without (c : ascii) (w : nat) (n : Z) :
  digit_value c = None -> c ∉ digits w n.
Proof.
  intros Hc Hin. pose proof (digits_are_digits w n) as Hall.
  rewrite Forall_forall in Hall. destruct (Hall c Hin) as [d Hd]. congruence.
Qed.


Lemma if_nonempty {A B} (l : list A) (a b : B) :
  l <> [] -> (if l is [] then a else b) = b.
Proof. by destruct l. Qed.

Lemma parse_decimal_numeral (D k : Z) :
  1000000000000000000 <= D < 10000000000000000000 -> -999 <= k <= 999 ->
  parse_decimal (numeral D k) = Some (D, k - 18).
Proof.
  intros HD Hk.
  set (d1 := digits 1 (D / 1000000000000000000)).
  set (d18 := digits 18 (D mod 1000000000000000000)).
  set (es := if k <? 0 then txt "-" else txt "+").
  set (ed := digits (if Z.abs k <? 100 then 2 else 3) (Z.abs k)).
  assert (numeral D k = (d1 ++ "."%char :: d18) ++ "e"%char :: (es ++ ed)) as ->.
  { unfold numeral. by rewrite <- !app_assoc. }
  unfold parse_decimal.
  rewrite split_at_here.
  2: { intros Hin. apply elem_of_app in Hin as [Hin|Hin].
       - by apply (digits_without "e" 1 _ eq_refl) in Hin.
       - apply elem_of_cons in Hin as [Hin|Hin]; [discriminate|].
         by apply (digits_without "e" 18 _ eq_refl) in Hin. }
  cbv beta iota.
  rewrite split_at_here by (apply digits_without; reflexivity).
  cbv beta iota. cbn [default from_option Datatypes.id].
  assert (0 <= D / 1000000000000000000 < 10) as Hq.
  { split; [apply Z.div_pos; lia|apply Z.div_lt_upper_bound; lia]. }
  pose proof (Z.mod_pos_bound D 1000000000000000000 ltac:(lia)) as Hr.
  pose proof (Z.div_mod D 1000000000000000000 ltac:(lia)) as Hdm.
  rewrite if_nonempty.
  2: { intros Hnil. apply (f_equal length) in Hnil. rewrite length_app in Hnil.
       unfold d1, d18 in Hnil. rewrite !length_digits in Hnil. discriminate Hnil. }
  rewrite number_of_app. unfold d1, d18.
  rewrite number_of_digits by (change (10 ^ Z.of_nat 1) with 10; lia).
  cbn [mbind option_bind].
  rewrite number_of_digits by (change (10 ^ Z.of_nat 18) with 1000000000000000000; lia).
  cbn [mbind option_bind]. rewrite length_digits.
  change (10 ^ Z.of_nat 1) with 10. change (10 ^ Z.of_nat 18) with 1000000000000000000.
  assert (parse_int (es ++ ed) = Some k) as ->.
  { unfold es, ed.
    assert (forall w, Z.abs k < 10 ^ Z.of_nat w ->
              number_of 0 (digits w (Z.abs k)) = Some (Z.abs k)) as Hnum.
    { intros w Hw. rewrite number_of_digits by lia. done. }
    assert (Z.abs k < 10 ^ Z.of_nat (if Z.abs k <? 100 then 2%nat else 3%nat)) as Hw.
    { destruct (Z.ltb_spec (Z.abs k) 100).
      - change (10 ^ Z.of_nat 2) with 100. lia.
      - change (10 ^ Z.of_nat 3) with 1000. lia. }
    assert (digits (if Z.abs k <? 100 then 2 else 3) (Z.abs k) <> []) as Hne.
    { intros Hnil'. apply (f_equal length) in Hnil'. rewrite length_digits in Hnil'.
      by destruct (Z.abs k <? 100). }
    destruct (Z.ltb_spec k 0) as [Hneg|Hpos]; cbn [txt list_ascii_of_string app parse_int].
    - change (Ascii.eqb "-" "-") with true. cbn iota.
      rewrite if_nonempty, Hnum by done.
      cbn [fmap option_fmap option_map]. f_equal. lia.
    - change (Ascii.eqb "+" "-") with false. change (Ascii.eqb "+" "+") with true.
      cbn iota. rewrite if_nonempty, Hnum by done. f_equal. lia. }
  cbn [mbind option_bind]. do 2 f_equal. lia.
Qed.

(** A numeral starts with a digit. *)
Lemma numeral_head (D k : Z) :
  exists c r d, numeral D k = c :: r /\ digit_value c = Some d.
Proof.
  unfold numeral. cbn [digits app].
  eexists _, _, _. split; [reflexivity|]. apply digit_value_digit.
  pose proof (Z.mod_pos_bound (D / 10 ^ 18) 10 ltac:(lia)). lia.
Qed.

Lemma parse_unsigned_numeral (s : bool) (D k : Z) :
  1000000000000000000 <= D < 10000000000000000000 -> -999 <= k <= 999 ->
  parse_unsigned s (numeral D k) =
  Some (nearest_binary64 s (times_pow 10 (k - 18) (D, 1))).
Proof.
  intros HD Hk. unfold parse_unsigned.
  destruct (numeral_head D k) as (c & r & d & Hnum & Hc).
  apply digit_plain in Hc as (_ & _ & _ & _ & _ & Hn & Hi).
  rewrite decide_False.
  2: { rewrite Hnum. intros [= -> _]. done. }
  rewrite decide_False.
  2: { rewrite Hnum. intros [[= -> _]|[= -> _]]; done. }
  by rewrite parse_decimal_numeral.
Qed.

(** Reading back what [%.18e] printed gives the number. *)
Lemma parse_float_fmt (x : float) : parse_float (fmt_e18 x) = Some x.
Proof.
  unfold parse_float, fmt_e18.
  pose proof (SF2Prim_Prim2SF x) as Hx. pose proof (Prim2SF_valid x) as Hv.
  destruct (Prim2SF x) as [s|s| |s m e].
  - destruct s; cbn; by rewrite <- Hx.
  - destruct s; cbn; by rewrite <- Hx.
  - cbn. by rewrite <- Hx.
  - cbn [valid_binary] in Hv.
    destruct (e18_spec m e Hv) as (HD & Hk & _).
    pose proof (e18_round_trip s m e Hv) as Hrt.
    destruct (e18 m e) as [D k]. cbn [fst snd] in *.
    destruct (numeral_head D k) as (c & r & d & Hnum & Hc).
    pose proof (parse_unsigned_numeral s D k HD ltac:(lia)) as Hp.
    destruct s; cbn [sign_text txt list_ascii_of_string app].
    + change (Ascii.eqb "-" "-") with true. cbn iota.
      rewrite Hp, Hrt. cbn [fmap option_fmap option_map]. by rewrite Hx.
    + rewrite Hnum in *. apply digit_plain in Hc as (_ & _ & _ & Hm & Hpl & _).
      destruct (Ascii.eqb_spec c "-") as [->|_]; [done|].
      destruct (Ascii.eqb_spec c "+") as [->|_]; [done|].
      rewrite Hp, Hrt. cbn [fmap option_fmap option_map]. by rewrite Hx.
Qed.

(** What [%.18e] prints is a single field: it is not empty and holds no
    separator, no line end and no comment sign. *)
Lemma fmt_is_field (x : float) :
  fmt_e18 x <> [] /\ Forall (fun c => plain c = true) (fmt_e18 x).
Proof.
  unfold fmt_e18. destruct (Prim2SF x) as [s|s| |s m e].
  - destruct s; split; try discriminate; repeat constructor.
  - destruct s; split; try discriminate; repeat constructor.
  - split; [discriminate|]. repeat constructor.
  - destruct (e18 m e) as [D k]. split.
    + destruct (numeral_head D k) as (c & r & d & -> & _). by destruct s.
    + apply Forall_app. split; [destruct s; repeat constructor|].
      assert (forall w n, Forall (fun c => plain c = true) (digits w n)) as Hdig.
      { intros w n. eapply Forall_impl; [apply digits_are_digits|].
        intros c [d Hd]. by apply digit_plain in Hd as [? _]. }
      unfold numeral.
      apply Forall_app; split; [apply Hdig|].
      apply Forall_app; split; [repeat constructor|].
      apply Forall_app; split; [apply Hdig|].
      apply Forall_app; split; [repeat constructor|].
      apply Forall_app; split; [destruct (k <? 0); repeat constructor|apply Hdig].
Qed.

End TextFacts.

(** ** A saved table read back *)

Section Tables.

Lemma split_on_piece (sep : ascii -> bool) (cur s rest : text) :
  Forall (fun c => sep c = false) s ->
  split_on sep cur (s ++ rest) = split_on sep (cur ++ s) rest.
Proof.
  revert cur. induction s as [|c s IH]; intros cur Hs.
  - by rewrite app_nil_r.
  - apply Forall_cons in Hs as [Hc Hs]. cbn [app split_on]. rewrite Hc, IH by done.
    by rewrite <- app_assoc.
Qed.

Lemma plain_spec (c : ascii) :
  plain c = true -> is_space c = false /\ is_newline c = false /\ c <> "#"%char.
Proof.
  unfold plain. intros Hp. apply andb_true_iff in Hp as [Hp H3].
  apply andb_true_iff in Hp as [H1 H2].
  apply negb_true_iff in H1, H2, H3. split; [done|]. split; [done|].
  intros ->. discriminate H3.
Qed.

(** The text of a row: its numbers as fields, one blank between them. *)
Definition row_text (row : list float) : text := join (txt " ") (fmt_e18 <$> row).

Lemma join_plain (ts : list text) :
  Forall (Forall (fun c => plain c = true)) ts ->
  Forall (fun c => is_newline c = false /\ c <> "#"%char) (join (txt " ") ts).
Proof.
  assert (forall t, Forall (fun c => plain c = true) t ->
            Forall (fun c => is_newline c = false /\ c <> "#"%char) t) as Hp.
  { intros t Ht. eapply Forall_impl; [exact Ht|].
    intros c Hc. by apply plain_spec in Hc as (_ & ? & ?). }
  destruct ts as [|t ts]; intros Hall; [constructor|].
  apply Forall_cons in Hall as [Ht Hall]. cbn [join].
  apply Forall_app. split; [by apply Hp|].
  induction Hall as [|u us Hu Hus IH]; [constructor|].
  cbn [fmap list_fmap concat]. apply Forall_app. split; [|done].
  apply Forall_app. split; [|by apply Hp]. repeat constructor; discriminate.
Qed.

Lemma split_join (cur : text) (ts : list text) :
  Forall (Forall (fun c => plain c = true)) ts ->
  split_on is_space cur (concat ((fun u => txt " " ++ u) <$> ts)) = cur :: ts.
Proof.
  revert cur. induction ts as [|t ts IH]; intros cur Hall; [done|].
  apply Forall_cons in Hall as [Ht Hall].
  cbn [fmap list_fmap concat txt list_ascii_of_string app split_on].
  change (is_space " ") with true. cbn iota. rewrite split_on_piece.
  - cbn [app]. by rewrite IH.
  - eapply Forall_impl; [exact Ht|]. intros c Hc. by apply plain_spec in Hc as [? _].
Qed.


Lemma filter_all {A} (P : A -> Prop) `{!forall x, Decision (P x)} (l : list A) :
  Forall P l -> filter P l = l.
Proof.
  induction 1 as [|x l Hx Hl IH]; [done|].
  rewrite filter_cons, decide_True by done. by rewrite IH.
Qed.

Lemma fmt_fields (row : list float) :
  Forall (fun t => t <> []) (fmt_e18 <$> row) /\
  Forall (Forall (fun c => plain c = true)) (fmt_e18 <$> row).
Proof.
  split; apply Forall_fmap, Forall_true; intros x; apply fmt_is_field.
Qed.

Lemma fields_row (row : list float) :
  fields (strip_comment (row_text row)) = fmt_e18 <$> row.
Proof.
  destruct (fmt_fields row) as [Hne Hpl].
  unfold strip_comment. rewrite split_at_none.
  2: { intros Hin. pose proof (join_plain _ Hpl) as Hj. rewrite Forall_forall in Hj.
       by destruct (Hj _ Hin). }
  cbn [fst]. unfold fields, row_text.
  destruct (fmt_e18 <$> row) as [|t ts]; [done|].
  apply Forall_cons in Hpl as [Ht Hpl]. cbn [join].
  rewrite split_on_piece, split_join by
    (done || (eapply Forall_impl; [exact Ht|];
              intros c Hc; by apply plain_spec in Hc as [? _])).
  cbn [app]. by apply filter_all.
Qed.

Lemma row_text_one_line (row : list float) :
  Forall (fun c => is_newline c = false) (row_text row).
Proof.
  destruct (fmt_fields row) as [_ Hpl]. eapply Forall_impl; [exact (join_plain _ Hpl)|].
  by intros c [? _].
Qed.

Lemma lines_savetxt (X : list (list float)) :
  split_on is_newline [] (savetxt X) = (row_text <$> X) ++ [[]].
Proof.
  unfold savetxt. induction X as [|row X IH]; [done|].
  cbn [fmap list_fmap concat app]. fold (row_text row). rewrite <- app_assoc.
  rewrite split_on_piece by apply row_text_one_line.
  cbn [app split_on]. change (is_newline newline) with true. cbn iota.
  by rewrite IH.
Qed.

(** What [np.savetxt] wrote, [np.loadtxt] parses back to the same rows, as
    long as no row is empty. *)
Lemma parse_rows_savetxt (T : nat) (X : list (list float)) :
  1 <= T -> Forall (fun row => length row = T) X ->
  parse_rows (savetxt X) = Some X.
Proof.
  intros HT Hrect. unfold parse_rows. rewrite lines_savetxt, fmap_app.
  rewrite <- list_fmap_compose.
  assert (filter (fun r => r <> [])
            ((((fun l => fields (strip_comment l)) ∘ row_text) <$> X) ++
             ((fun l => fields (strip_comment l)) <$> [[]])) = fmap fmt_e18 <$> X) as ->.
  { rewrite filter_app. change (filter _ (_ <$> [[]])) with (@nil (list text)).
    rewrite app_nil_r. induction Hrect as [|row X Hrow Hrect IH]; [done|].
    cbn [fmap list_fmap]. unfold compose at 1. rewrite fields_row.
    rewrite filter_cons, decide_True.
    - f_equal. exact IH.
    - destruct row; [cbn in Hrow; lia|done]. }
  rewrite (mapM_fmap_Some (mapM parse_float) (fmap fmt_e18)).
  2: { intros row. apply mapM_fmap_Some, parse_float_fmt. }
  cbn [mbind option_bind]. destruct X as [|r rs]; [done|].
  apply Forall_cons in Hrect as [Hr Hrs].
  assert (forallb (fun r' => Nat.eqb (length r') (length r)) rs = true) as ->; [|done].
  apply forallb_forall. intros r' Hin. rewrite Forall_forall in Hrs.
  apply Nat.eqb_eq. rewrite Hr. apply Hrs. by apply list_elem_of_In.
Qed.

Lemma stretch_fits {A} (k : nat) (l : list A) : length l = k -> stretch k l = Some l.
Proof. intros Hl. unfold stretch. by rewrite decide_True. Qed.

Lemma stretch_rows_fit {A} (T : nat) (X : list (list A)) :
  Forall (fun row => length row = T) X -> mapM (stretch T) X = Some X.
Proof.
  intros Hrect. apply mapM_Some_2. induction Hrect as [|row X Hrow Hrect IH].
  - constructor.
  - constructor; [by apply stretch_fits|exact IH].
Qed.

(** The table read back and stored in the [n x T] slice: as it was saved,
    except that a single column of two rows or more comes back as a vector
    of the wrong shape. *)
Lemma broadcast_squeeze (n T : nat) (X : list (list float)) :
  length X = n -> Forall (fun row => length row = T) X -> 1 <= n -> 1 <= T ->
  broadcast_to n T (squeeze X) = if decide (T = 1 /\ 2 <= n) then None else Some X.
Proof.
  intros Hn Hrect Hn1 HT1. unfold broadcast_to.
  pose proof (stretch_rows_fit T X Hrect) as Hfit.
  destruct X as [|r1 [|r2 X]].
  - cbn in Hn. lia.
  - apply Forall_cons in Hrect as [Hr1 _]. cbn in Hn. subst n.
    rewrite decide_False by lia.
    destruct r1 as [|x [|y r1]]; [cbn in Hr1; lia| |].
    + cbn [squeeze as_rows]. cbn in Hr1. subst T. done.
    + cbn [squeeze as_rows]. cbn [mapM]. rewrite stretch_fits by done. done.
  - pose proof Hrect as Hrect'.
    apply Forall_cons in Hrect as [Hr1 Hrect]. cbn [length] in Hn.
    assert (squeeze (r1 :: r2 :: X) =
            if forallb (fun r => Nat.eqb (length r) 1) (r1 :: r2 :: X)
            then Vector (concat (r1 :: r2 :: X)) else Matrix (r1 :: r2 :: X)) as ->.
    { by destruct r1 as [|x [|y r1]]. }
    destruct (decide (T = 1 /\ 2 <= n)) as [[-> _]|Hno].
    + assert (forallb (fun r => Nat.eqb (length r) 1) (r1 :: r2 :: X) = true) as ->.
      { apply forallb_forall. intros r Hin. rewrite Forall_forall in Hrect'.
        apply Nat.eqb_eq, Hrect'. by apply list_elem_of_In. }
      cbn [as_rows mapM].
      assert (stretch 1 (concat (r1 :: r2 :: X)) = None) as ->; [|done].
      apply Forall_cons in Hrect as [Hr2 _].
      destruct r1 as [|x [|? ?]]; try discriminate Hr1.
      destruct r2 as [|y [|? ?]]; try discriminate Hr2. done.
    + assert (2 <= T) as HT2 by lia.
      assert (forallb (fun r => Nat.eqb (length r) 1) (r1 :: r2 :: X) = false) as ->.
      { cbn [forallb]. apply andb_false_iff. left. apply Nat.eqb_neq. lia. }
      cbn [as_rows]. rewrite Hfit. cbn [mbind option_bind].
      by apply stretch_fits.
Qed.

End Tables.

(** ** Saving a time series and loading it back *)

Section SaveLoad.

Variable cfg : Config float.
Variable name : string.

Lemma axis_table_shape (a : vec float -> float) (n : nat) (ts : list (list (vec float))) :
  length (axis_table a n ts) = n /\
  Forall (fun row => length row = length ts) (axis_table a n ts).
Proof.
  unfold axis_table. split; [by rewrite length_fmap, length_seq|].
  apply Forall_fmap, Forall_true. intros i. cbn. by rewrite length_fmap.
Qed.

Lemma axis_table_lookup (a : vec float -> float) (n : nat) (ts : list (list (vec float)))
    (i t : nat) (fr : list (vec float)) :
  i < n -> ts !! t = Some fr -> (axis_table a n ts !!! i) !!! t = a (fr !!! i).
Proof.
  intros Hi Ht.
  assert (axis_table a n ts !! i = Some ((fun fr => a (fr !!! i)) <$> ts)) as Hrow.
  { unfold axis_table. by rewrite list_lookup_fmap, lookup_seq_lt. }
  rewrite (list_lookup_total_correct _ _ _ Hrow).
  apply list_lookup_total_correct. by rewrite list_lookup_fmap, Ht.
Qed.

(** The three files of a series do not overwrite each other. *)
Lemma saved_files (st : State float) (fs : gmap string text) :
  let n := Z.to_nat (N cfg) in
  saveNewSim cfg name st fs !! (name +:+ "X.txt")%string =
    Some (savetxt (axis_table xc n (TimeSeries st))) /\
  saveNewSim cfg name st fs !! (name +:+ "Y.txt")%string =
    Some (savetxt (axis_table yc n (TimeSeries st))) /\
  saveNewSim cfg name st fs !! (name +:+ "Z.txt")%string =
    Some (savetxt (axis_table zc n (TimeSeries st))).
Proof.
  intros n. unfold saveNewSim. cbv zeta. fold n.
  assert (forall a b : string, a <> b -> (name +:+ a)%string <> (name +:+ b)%string) as Hne.
  { intros a b Hab Heq. by apply (inj (String.app name)) in Heq. }
  split; [|split].
  - rewrite !lookup_insert_ne by (apply Hne; discriminate). apply lookup_insert_eq.
  - rewrite lookup_insert_ne by (apply Hne; discriminate). apply lookup_insert_eq.
  - apply lookup_insert_eq.
Qed.

Lemma load_saved_axis (a : vec float -> float) (path : string) (n T : nat)
    (ts : list (list (vec float))) (fs : gmap string text) :
  fs !! path = Some (savetxt (axis_table a n ts)) ->
  length ts = T -> 1 <= n -> 1 <= T ->
  load_axis fs path n T =
  if decide (T = 1 /\ 2 <= n) then None else Some (axis_table a n ts).
Proof.
  intros Hfile HT Hn1 HT1. unfold load_axis, loadtxt. rewrite Hfile.
  destruct (axis_table_shape a n ts) as [Hlen Hrect]. rewrite HT in Hrect.
  cbn [mbind option_bind]. rewrite (parse_rows_savetxt T) by done.
  cbn [fmap option_fmap option_map mbind option_bind].
  by apply broadcast_squeeze.
Qed.

Lemma frames_of_tables (n T : nat) (ts : list (list (vec float))) :
  length ts = T -> Forall (fun fr => length fr = n) ts ->
  frames_of (axis_table xc n ts) (axis_table yc n ts) (axis_table zc n ts) n T = ts.
Proof.
  intros HT Hshape. unfold frames_of. apply list_eq. intros t. rewrite list_lookup_fmap.
  destruct (decide (t < T)) as [Ht|Ht].
  - rewrite lookup_seq_lt by done. cbn [fmap option_fmap option_map Nat.add].
    destruct (lookup_lt_is_Some_2 ts t ltac:(lia)) as [fr Hfr]. rewrite Hfr. f_equal.
    assert (length fr = n) as Hlen.
    { rewrite Forall_forall in Hshape. apply Hshape. by eapply list_elem_of_lookup_2. }
    apply list_eq. intros i. rewrite list_lookup_fmap.
    destruct (decide (i < n)) as [Hi|Hi].
    + rewrite lookup_seq_lt by done. cbn [fmap option_fmap option_map Nat.add].
      rewrite !(axis_table_lookup _ n ts i t fr) by done.
      destruct (lookup_lt_is_Some_2 fr i ltac:(lia)) as [v Hv].
      rewrite (list_lookup_total_correct _ _ _ Hv), Hv. by destruct v as [[? ?] ?].
    + rewrite lookup_seq_ge by lia. symmetry. apply lookup_ge_None. lia.
  - rewrite lookup_seq_ge by lia. symmetry. apply lookup_ge_None. lia.
Qed.

(** C8.  A series of [n >= 1] bodies and [T >= 1] frames is saved and then
    loaded with the same sizes.  With two frames or more, or with a single
    body, the loaded array is the saved one, number for number: [%.18e]
    writes 19 significant digits, and the nearest binary64 number to such a
    decimal is the number that was written.  With one frame and two bodies
    or more each file holds a single column, which [np.loadtxt] returns as a
    vector of [n] entries; it does not fit the [n x 1] slice, and
    [loadSavedSim] stops on a ValueError. *)
Theorem save_then_load (st : State float) (fs : gmap string text) (n T : nat) :
  N cfg = Z.of_nat n -> length (TimeSeries st) = T ->
  Forall (fun fr => length fr = n) (TimeSeries st) -> 1 <= n -> 1 <= T ->
  loadSavedSim name (N cfg) (Z.of_nat T) (saveNewSim cfg name st fs) =
  if decide (T = 1 /\ 2 <= n) then None else Some (TimeSeries st).
Proof.
  intros HN HT Hshape Hn1 HT1. unfold loadSavedSim.
  rewrite decide_False by lia.
  destruct (saved_files st fs) as (HX & HY & HZ).
  rewrite HN, !Nat2Z.id in *.
  rewrite (load_saved_axis xc (name +:+ "X.txt")%string n T (TimeSeries st)) by done.
  destruct (decide (T = 1 /\ 2 <= n)) as [Hbad|Hok]; [done|].
  cbn [mbind option_bind].
  rewrite (load_saved_axis yc (name +:+ "Y.txt")%string n T (TimeSeries st)) by done.
  rewrite decide_False by done. cbn [mbind option_bind].
  rewrite (load_saved_axis zc (name +:+ "Z.txt")%string n T (TimeSeries st)) by done.
  rewrite decide_False by done. cbn [mbind option_bind].
  f_equal. by apply frames_of_tables.
Qed.


Lemma squeeze_one_row (row : list float) :
  2 <= length row -> squeeze [row] = Vector row.
Proof. destruct row as [|x [|y row]]; cbn; [lia|lia|done]. Qed.

Lemma stretch_one {A} (k : nat) (x : A) : stretch k [x] = Some (replicate k x).
Proof.
  unfold stretch. destruct (decide (length [x] = k)) as [<-|]; done.
Qed.

Lemma frames_of_copies (n T : nat) (rx ry rz : list float) :
  frames_of (replicate n rx) (replicate n ry) (replicate n rz) n T =
  (fun t => replicate n ((rx !!! t, ry !!! t, rz !!! t) : vec float)) <$> seq 0 T.
Proof.
  unfold frames_of. apply list_fmap_ext. intros _ t _.
  apply list_eq. intros i. rewrite list_lookup_fmap.
  destruct (decide (i < n)) as [Hi|Hi].
  - rewrite lookup_seq_lt, lookup_replicate_2 by done.
    cbn [fmap option_fmap option_map Nat.add].
    by rewrite !lookup_total_replicate_2.
  - rewrite lookup_seq_ge by lia. symmetry. apply lookup_replicate_None. lia.
Qed.

(** [loadSavedSim] does not compare [n] with what the files hold.  A series
    of one body and two frames or more loads with any body count [n]: each
    file is one row, [np.loadtxt] returns it as a vector, and the assignment
    broadcasts it to all [n] rows.  The loaded array holds [n] copies of the
    saved body, and nothing is reported. *)
Theorem load_with_another_body_count (st : State float) (fs : gmap string text)
    (n T : nat) :
  N cfg = 1%Z -> length (TimeSeries st) = T ->
  Forall (fun fr => length fr = 1) (TimeSeries st) -> 2 <= T ->
  loadSavedSim name (Z.of_nat n) (Z.of_nat T) (saveNewSim cfg name st fs) =
  Some ((fun fr => replicate n (fr !!! 0)) <$> TimeSeries st).
Proof.
  intros HN HT Hshape HT2. unfold loadSavedSim.
  rewrite decide_False by lia. rewrite !Nat2Z.id.
  destruct (saved_files st fs) as (HX & HY & HZ).
  rewrite HN in HX, HY, HZ. change (Z.to_nat 1) with 1 in HX, HY, HZ.
  assert (forall a path,
            saveNewSim cfg name st fs !! path =
              Some (savetxt (axis_table a 1 (TimeSeries st))) ->
            load_axis (saveNewSim cfg name st fs) path n T =
            Some (replicate n ((fun fr => a (fr !!! 0)) <$> TimeSeries st))) as Hload.
  { intros a path Hfile. unfold load_axis, loadtxt. rewrite Hfile.
    destruct (axis_table_shape a 1 (TimeSeries st)) as [_ Hrect]. rewrite HT in Hrect.
    cbn [mbind option_bind]. rewrite (parse_rows_savetxt T) by (done || lia).
    cbn [fmap option_fmap option_map mbind option_bind].
    change (axis_table a 1 (TimeSeries st))
      with [(fun fr => a (fr !!! 0)) <$> TimeSeries st].
    rewrite squeeze_one_row by (rewrite length_fmap; lia).
    unfold broadcast_to. cbn [as_rows mapM].
    rewrite stretch_fits by (by rewrite length_fmap).
    cbn [mbind option_bind mret option_ret fmap option_fmap option_map].
    apply stretch_one. }
  rewrite (Hload xc _ HX), (Hload yc _ HY), (Hload zc _ HZ).
  cbn [mbind option_bind]. f_equal. rewrite frames_of_copies.
  apply list_eq. intros t. rewrite !list_lookup_fmap.
  destruct (decide (t < T)) as [Ht|Ht].
  - rewrite lookup_seq_lt by done. cbn [fmap option_fmap option_map Nat.add].
    destruct (lookup_lt_is_Some_2 (TimeSeries st) t ltac:(lia)) as [fr Hfr].
    rewrite Hfr. cbn [fmap option_fmap option_map]. do 2 f_equal.
    rewrite !(list_lookup_total_correct _ t (_ (fr !!! 0))) by
      (by rewrite list_lookup_fmap, Hfr).
    by destruct (fr !!! 0) as [[? ?] ?].
  - rewrite lookup_seq_ge by lia. rewrite (lookup_ge_None_2 (TimeSeries st)) by lia. done.
Qed.

(** Printed with [%.18e], every binary64 number is one field of a line
    (not empty, and free of blanks, line ends and comment signs), and
    [float] of that field is the number: the finite numbers, the two zeros
    and the two infinities come back bit for bit, a NaN as a NaN. *)
Theorem number_survives_the_text (x : float) :
  fmt_e18 x <> [] /\ Forall (fun c => plain c = true) (fmt_e18 x) /\
  fields (fmt_e18 x) = [fmt_e18 x] /\
  parse_float (fmt_e18 x) = Some x.
Proof.
  destruct (fmt_is_field x) as [Hne Hpl]. split; [done|]. split; [done|].
  split; [|apply parse_float_fmt].
  unfold fields. rewrite <- (app_nil_r (fmt_e18 x)) at 1.
  rewrite split_on_piece.
  - cbn [app split_on]. by rewrite filter_cons, decide_True, filter_nil.
  - eapply Forall_impl; [exact Hpl|]. intros c Hc. by apply plain_spec in Hc as [? _].
Qed.

End SaveLoad.

(** *** Concrete series *)

(** A configuration that only fixes the body count. *)
Definition cfg_bodies (n : Z) : Config float :=
  mkConfig n (fofZ 5000000) (dec 1 1000) (fofZ 12) (dec 95 100) (fofZ 500) (fofZ 5000).

(** A state that only holds a time series. *)
Definition st_series (ts : list (list (vec float))) : State float :=
  mkState [] [] [] [] [] [] [] ts.

(** Two bodies, one frame. *)
Definition series_one_frame : list (list (vec float)) :=
  [[(1850, 1750, 1750); (1760.5, 1755, 1750)]]%float.

(** Two bodies, two frames, with a number that has no short decimal, a
    subnormal number, a negative zero, an infinity and a NaN. *)
Definition series_two_frames : list (list (vec float)) :=
  [[(0.1, 1750, -3.5e-320); (nan, infinity, -0)];
   [(1850, 1755, 1750); (1760.5, 1755, 1e300)]]%float.

(** One body, two frames. *)
Definition series_one_body : list (list (vec float)) :=
  [[(1850, 1750, 1750)]; [(1850, 1755, 1750)]]%float.

(** C8 on two series.  Two bodies and one frame: the file of the x values
    holds one column, and loading the series with the same sizes raises
    ValueError.  Two bodies and two frames: the series comes back as it
    was. *)
Lemma save_then_load_runs :
  (N (cfg_bodies 2) = Z.of_nat 2 /\ length series_one_frame = 1 /\
   Forall (fun fr => length fr = 2) series_one_frame /\
   saveNewSim (cfg_bodies 2) "sim" (st_series series_one_frame) ∅ !! "simX.txt"%string =
     Some (txt "1.850000000000000000e+03" ++ [newline] ++
           txt "1.760500000000000000e+03" ++ [newline]) /\
   loadSavedSim "sim" (N (cfg_bodies 2)) (Z.of_nat 1)
     (saveNewSim (cfg_bodies 2) "sim" (st_series series_one_frame) ∅) = None) /\
  (length series_two_frames = 2 /\
   Forall (fun fr => length fr = 2) series_two_frames /\
   saveNewSim (cfg_bodies 2) "sim" (st_series series_two_frames) ∅ !! "simX.txt"%string =
     Some (txt "1.000000000000000056e-01 1.850000000000000000e+03" ++ [newline] ++
           txt "nan 1.760500000000000000e+03" ++ [newline]) /\
   loadSavedSim "sim" (N (cfg_bodies 2)) (Z.of_nat 2)
     (saveNewSim (cfg_bodies 2) "sim" (st_series series_two_frames) ∅) =
   Some series_two_frames).
Proof.
  split.
  - split; [reflexivity|]. split; [reflexivity|].
    split; [repeat constructor|]. split; [vm_compute; reflexivity|].
    pose proof (save_then_load (cfg_bodies 2) "sim" (st_series series_one_frame) ∅ 2 1)
      as Hs.
    rewrite decide_True in Hs by lia. apply Hs; [reflexivity|reflexivity| |lia|lia].
    repeat constructor.
  - split; [reflexivity|]. split; [repeat constructor|].
    split; [vm_compute; reflexivity|].
    pose proof (save_then_load (cfg_bodies 2) "sim" (st_series series_two_frames) ∅ 2 2)
      as Hs.
    rewrite decide_False in Hs by lia. apply Hs; [reflexivity|reflexivity| |lia|lia].
    repeat constructor.
Defined.

Lemma load_with_another_body_count_run :
  N (cfg_bodies 1) = 1%Z /\ length series_one_body = 2 /\
  loadSavedSim "sim" (Z.of_nat 3) (Z.of_nat 2)
    (saveNewSim (cfg_bodies 1) "sim" (st_series series_one_body) ∅) =
  Some [[(1850, 1750, 1750); (1850, 1750, 1750); (1850, 1750, 1750)];
        [(1850, 1755, 1750); (1850, 1755, 1750); (1850, 1755, 1750)]]%float.
Proof.
  split; [reflexivity|]. split; [reflexivity|].
  refine (load_with_another_body_count (cfg_bodies 1) "sim" (st_series series_one_body)
            ∅ 3 2 _ _ _ _).
  - reflexivity.
  - reflexivity.
  - repeat constructor.
  - lia.
Defined.
